(** * LanguageServiceImpl: validation scheduling, import invalidation,
      batch revalidation and request dispatch

    Shallow embedding of
    [packages/language-server/src/language-service/languageService.ts].

    The class lives on a single-threaded event loop.  Its own state is the
    object [pendingValidationRequests]; everything else it reaches through
    collaborators (connection, DocumentService, JSONSchemaService, the
    validation engine, analytics).  The embedding threads one [state] through
    every method and records each call that leaves the class in a
    chronological [trace].

    Modelling conventions
    - a timer handle ([NodeJS.Timer]) and a promise are natural numbers
      allocated from counters; URIs are strings;
    - an awaited collaborator call answers within the turn that issued it:
      what it answers is given by a [World], a function of the clock and of
      the arguments, so that every theorem holds for every behaviour of the
      collaborators;
    - URIs are document URIs, never names of [Object.prototype] members, so
      the object [pendingValidationRequests] is a finite map;
    - the pool of es6-promise-pool, a dependency, is its loop [_proceed]:
      up to [concurrency] promises are tracked, and each fulfilment frees a
      slot and asks the producer again;
    - a call in the position [return f(...)] of an async function is not
      awaited inside the enclosing [try]: an exception it throws is caught
      there, a promise it returns that rejects is not ([answer]);
    - [configure] only hands the settings on to the engines and is left
      out. *)

From stdpp Require Import gmap strings list fin_maps sorting.
From Stdlib Require Import ZArith Lia.

Open Scope string_scope.
Open Scope nat_scope.
Open Scope list_scope.

(** ** Values crossing the boundary *)

(** The three shapes of thrown values the class distinguishes or produces:
    [err instanceof CfnLintFailedToExecuteError] (line 377), the [TypeError]
    of reading a property of [undefined], and every other [Error]. *)
Inductive Error : Type :=
| CfnLintFailedToExecuteError (message : string)
| TypeError (message : string)
| OtherError (message : string).

Definition message (e : Error) : string :=
  match e with
  | CfnLintFailedToExecuteError m => m
  | TypeError m => m
  | OtherError m => m
  end.

Definition isCfnLintFailedToExecuteError (e : Error) : bool :=
  match e with CfnLintFailedToExecuteError _ => true | _ => false end.

#[global] Instance Error_eq_dec : EqDecision Error.
Proof. solve_decision. Defined.

(** How an awaited call or a promise ends. *)
Inductive outcome (A : Type) : Type :=
| Returned (a : A)
| Threw (e : Error).
Arguments Returned {A} a.
Arguments Threw {A} e.

(** A JavaScript value, as far as [completionItem.data] needs one. *)
#[local] Unset Elimination Schemes.
Inductive JSValue : Type :=
| JSUndefined
| JSNull
| JSBool (b : bool)
| JSNumber (n : Z)
| JSString (s : string)
| JSObject (fields : list (string * JSValue)).
#[local] Set Elimination Schemes.

Definition truthy (v : JSValue) : bool :=
  match v with
  | JSUndefined | JSNull => false
  | JSBool b => b
  | JSNumber n => negb (n =? 0)%Z
  | JSString s => negb (String.eqb s "")
  | JSObject _ => true
  end.

Fixpoint assoc {A : Type} (k : string) (l : list (string * A)) : option A :=
  match l with
  | [] => None
  | (k', v) :: r => if String.eqb k k' then Some v else assoc k r
  end.

(** [v.name] for a truthy [v]: a missing member, and any member of a
    primitive, reads as [undefined]. *)
Definition getMember (v : JSValue) (name : string) : JSValue :=
  match v with
  | JSObject fields => default JSUndefined (assoc name fields)
  | _ => JSUndefined
  end.

(** [a && b], with [b] evaluated only when [a] is truthy. *)
Definition js_and (a : JSValue) (b : JSValue -> JSValue) : JSValue :=
  if truthy a then b a else a.

Definition Diagnostic : Type := string.
Definition JSONSchema : Type := string.
Definition Location : Type := string.

Record TextDocument : Type := mkTextDocument {
  uri : string;
  getText : string
}.

Record YAMLDocument : Type := mkYAMLDocument {
  documentType : string;
  parentParams : option string
}.

Record CompletionItem : Type := mkCompletionItem {
  label : string;
  data : JSValue
}.

Record ResponseError : Type := mkResponseError {
  code : Z;
  error_message : string
}.

(** ** Calls that leave the class *)

Inductive effect : Type :=
| SendDiagnostics (uri : string) (diagnostics : list Diagnostic)
| SendNotification (method : string)
| SendAnalytics (action : string) (attributes : list (string * JSValue))
| SendException (err : Error)
| SetTimeout (handle : nat) (uri : string) (delay : nat)
| ClearTimeout (handle : nat)
| CallValidate (uri : string)
| CallGetYamlDocument (uri : string)
| CallValidationDoValidation (uri : string)
| CallDoExternalImportValidation (uri : string)
| CallCompleterDoResolve (item : CompletionItem)
| CallRegisterPartialSchema (uri : string) (schema : JSONSchema)
                            (property : option string)
| CallClearPartialSchema (uri : string)
| CallRegisterChildParentRelation (uri parentUri : string)
| CallClearRelations (uri : string)
| CallDocumentServiceClear (uri : string).

(** ** Scheduler state *)

Definition VALIDATION_DELAY_MS : nat := 200.

(** A live [setTimeout]: its handle, the clock value at which it is due, and
    what its callback closes over (the URI and the [resolve]/[reject] pair of
    the promise built at line 235). *)
Record timer : Type := mkTimer {
  t_handle : nat;
  t_due : nat;
  t_uri : string;
  t_promise : nat
}.

#[global] Instance timer_eq_dec : EqDecision timer.
Proof. solve_decision. Defined.

(** One [PromisePool] built by [triggerValidationForWorkspaceFiles]: the
    closure variables [uris] and [currentIndex] and the promises the pool
    currently tracks (its [_size] is their number). *)
Record pool : Type := mkPool {
  uris : list string;
  currentIndex : nat;
  tracked : list nat
}.

Definition POOL_CONCURRENCY : nat := 3.

Record state : Type := mkState {
  now : nat;
  next_handle : nat;
  next_promise : nat;
  timers : list timer;
  pendingValidationRequests : gmap string nat;
  settled : gmap nat (outcome unit);
  documents : gmap string string;
  relations : gmap string string;
  partialSchemas : gmap string (list (option string * JSONSchema));
  pools : list pool;
  trace : list effect
}.

Definition initial : state :=
  mkState 0 1 0 [] ∅ ∅ ∅ ∅ ∅ [] [].

Definition set_now (v : nat) (s : state) : state :=
  mkState v (next_handle s) (next_promise s) (timers s)
    (pendingValidationRequests s) (settled s) (documents s) (relations s)
    (partialSchemas s) (pools s) (trace s).

Definition set_timers (v : list timer) (s : state) : state :=
  mkState (now s) (next_handle s) (next_promise s) v
    (pendingValidationRequests s) (settled s) (documents s) (relations s)
    (partialSchemas s) (pools s) (trace s).

Definition set_pending (v : gmap string nat) (s : state) : state :=
  mkState (now s) (next_handle s) (next_promise s) (timers s)
    v (settled s) (documents s) (relations s)
    (partialSchemas s) (pools s) (trace s).

Definition set_settled (v : gmap nat (outcome unit)) (s : state) : state :=
  mkState (now s) (next_handle s) (next_promise s) (timers s)
    (pendingValidationRequests s) v (documents s) (relations s)
    (partialSchemas s) (pools s) (trace s).

Definition set_documents (v : gmap string string) (s : state) : state :=
  mkState (now s) (next_handle s) (next_promise s) (timers s)
    (pendingValidationRequests s) (settled s) v (relations s)
    (partialSchemas s) (pools s) (trace s).

Definition set_relations (v : gmap string string) (s : state) : state :=
  mkState (now s) (next_handle s) (next_promise s) (timers s)
    (pendingValidationRequests s) (settled s) (documents s) v
    (partialSchemas s) (pools s) (trace s).

Definition set_partialSchemas
    (v : gmap string (list (option string * JSONSchema))) (s : state) : state :=
  mkState (now s) (next_handle s) (next_promise s) (timers s)
    (pendingValidationRequests s) (settled s) (documents s) (relations s)
    v (pools s) (trace s).

Definition set_pools (v : list pool) (s : state) : state :=
  mkState (now s) (next_handle s) (next_promise s) (timers s)
    (pendingValidationRequests s) (settled s) (documents s) (relations s)
    (partialSchemas s) v (trace s).

Definition emit (es : list effect) (s : state) : state :=
  mkState (now s) (next_handle s) (next_promise s) (timers s)
    (pendingValidationRequests s) (settled s) (documents s) (relations s)
    (partialSchemas s) (pools s) (trace s ++ es).

(** ** Collaborators *)

(** Modelled from the spec: [JSONSchemaService.registerPartialSchema] and
    [clearPartialSchema] (services/jsonSchema is not among the sources).  A
    fragment is keyed by URI and optional property; clearing a URI drops all
    of its fragments. *)
Definition registerPartialSchema (u : string) (schema : JSONSchema)
    (property : option string) (s : state) : state :=
  emit [CallRegisterPartialSchema u schema property]
    (set_partialSchemas
       (<[u := (property, schema) ::
               filter (λ e, e.1 ≠ property)
                      (default [] (partialSchemas s !! u))]>
          (partialSchemas s)) s).

Definition clearPartialSchema (u : string) (s : state) : state :=
  emit [CallClearPartialSchema u]
    (set_partialSchemas (delete u (partialSchemas s)) s).

(** Modelled from the spec: the relation part of [DocumentService]
    (services/document is not among the sources).  An import relation is an
    edge child -> parent with at most one parent per child, the last
    registration winning; [clearRelations] removes every edge whose parent
    is the given URI; [getChildrenUris] lists the children of a parent. *)
Definition registerChildParentRelation (child parent : string) (s : state)
    : state :=
  emit [CallRegisterChildParentRelation child parent]
    (set_relations (<[child := parent]> (relations s)) s).

Definition getChildrenUris (u : string) (s : state) : list string :=
  (map_to_list (filter (λ kv, kv.2 = u) (relations s))).*1.

Definition clearRelations (u : string) (s : state) : state :=
  emit [CallClearRelations u]
    (set_relations (filter (λ kv, kv.2 ≠ u) (relations s)) s).

(** Modelled from the spec: [DocumentService.clear] removes the document of
    that URI from the store. *)
Definition documentService_clear (u : string) (s : state) : state :=
  emit [CallDocumentServiceClear u]
    (set_documents (delete u (documents s)) s).

(** A callback of [externalImportsCallbacks] as the DocumentService invokes
    it while it parses a document that imports another one.  The second one
    awaits the store twice and the engine once: [fetched] is how
    [getTextDocument] ends, [parsed] how [getYamlDocument] does and
    [validated] how [doExternalImportValidation] does. *)
Inductive externalImport : Type :=
| onRegisterExternalImport (uri parentUri : string)
| onValidateExternalImport (uri parentUri : string) (schema : JSONSchema)
    (property : option string) (fetched parsed validated : outcome unit).

(** What the collaborators answer.  Each answer may depend on the clock and
    on the arguments of the call. *)
Record World : Type := mkWorld {
  (** [Some e]: [documentService.getTextDocument(uri)] rejects with [e];
      [None]: it resolves with the stored document, or [undefined]. *)
  getTextDocument_fails : nat -> string -> option Error;
  (** [documentService.getYamlDocument(uri)]: the imports it discovers while
      parsing, then its result. *)
  getYamlDocument : nat -> string -> list externalImport * outcome YAMLDocument;
  (** [validation.doValidation(document, yamlDocument)]: it raises, or it
      ends with the findings. *)
  validation_doValidation :
    nat -> TextDocument -> YAMLDocument -> outcome (list Diagnostic);
  (** The reference, definition and link engines. *)
  getReferences :
    nat -> TextDocument -> YAMLDocument -> outcome (list Location);
  getDefinition :
    nat -> option TextDocument -> YAMLDocument -> outcome (list Location);
  findDocumentLinks :
    nat -> TextDocument -> YAMLDocument -> outcome (list Location)
}.

(** ** The class *)

Section LanguageServiceImpl.

Variable W : World.

(** [documentService.getTextDocument(uri)], awaited. *)
Definition getTextDocument (u : string) (s : state)
    : outcome (option TextDocument) :=
  match getTextDocument_fails W (now s) u with
  | Some e => Threw e
  | None => Returned (mkTextDocument u <$> documents s !! u)
  end.

(** Modelled from the spec: [promiseRejectionHandler] (utils/errorHandler is
    not among the sources): a failure of the wrapped function is caught and
    reported to the exception sink, never rethrown. *)
Definition promiseRejectionHandler (o : outcome unit)
    : list effect * outcome unit :=
  match o with
  | Returned _ => ([], Returned tt)
  | Threw e => ([SendException e], Returned tt)
  end.

(** [promise.catch(sendException)] (lines 126-128). *)
Definition catch_sendException (o : outcome unit)
    : list effect * outcome unit :=
  match o with
  | Returned _ => ([], Returned tt)
  | Threw e => ([SendException e], Returned tt)
  end.

(** [externalImportsCallbacks] (lines 84-115). *)
Definition externalImportsCallback (c : externalImport) (s : state) : state :=
  match c with
  | onRegisterExternalImport u parentUri =>
      registerChildParentRelation u parentUri s
  | onValidateExternalImport u parentUri schema property
      fetched parsed validated =>
      match fetched with
      | Threw e => emit (promiseRejectionHandler (Threw e)).1 s
      | Returned _ =>
          let s1 := registerPartialSchema u schema property s in
          let s2 := emit [CallGetYamlDocument u] s1 in
          match parsed with
          | Threw e => emit (promiseRejectionHandler (Threw e)).1 s2
          | Returned _ =>
              let s3 := emit [CallDoExternalImportValidation u] s2 in
              emit (promiseRejectionHandler validated).1 s3
          end
      end
  end.

Definition externalImportsCallbacks (cs : list externalImport) (s : state)
    : state :=
  fold_left (λ acc c, externalImportsCallback c acc) cs s.

(** [documentService.getYamlDocument(uri)], awaited: the callbacks the
    store issues while parsing run first. *)
Definition awaitYamlDocument (u : string) (s : state)
    : state * outcome YAMLDocument :=
  let '(imports, parsed) := getYamlDocument W (now s) u in
  (externalImportsCallbacks imports (emit [CallGetYamlDocument u] s), parsed).

(** [cleanPendingValidation] (lines 385-391). *)
Definition cleanPendingValidation (u : string) (s : state) : state :=
  match pendingValidationRequests s !! u with
  | Some request =>
      let s1 := emit [ClearTimeout request]
                  (set_timers
                     (filter (λ t, t_handle t ≠ request) (timers s)) s) in
      set_pending (delete u (pendingValidationRequests s1)) s1
  | None => s
  end.

(** [validate] (lines 347-383).  Returns the state and how the promise of
    the async function settles. *)
Definition validate (u : string) (s : state) : state * outcome unit :=
  match getTextDocument u s with
  | Threw e => (s, Threw e)
  | Returned None => (s, Returned tt)
  | Returned (Some document) =>
      let text := getText document in
      if Nat.eqb (String.length text) 0 then
        (emit [SendDiagnostics (uri document) []] s, Returned tt)
      else
        (* try *)
        let '(s1, parsed) := awaitYamlDocument (uri document) s in
        let caught (err : Error) (s' : state) : state * outcome unit :=
          if isCfnLintFailedToExecuteError err then
            (emit [SendNotification "custom/cfn-lint-installation-error"] s',
             Returned tt)
          else (s', Returned tt) in
        match parsed with
        | Threw err => caught err s1
        | Returned yamlDocument =>
            let s2 := emit
                        [SendAnalytics "validateDocument"
                           [("documentType",
                             JSString (documentType yamlDocument))];
                         CallValidationDoValidation (uri document)] s1 in
            match validation_doValidation W (now s) document yamlDocument with
            | Threw err => caught err s2
            | Returned diagnostics =>
                (* Modelled from the spec: the engine, which holds the
                   connection, publishes its findings when it succeeds. *)
                (emit [SendDiagnostics (uri document) diagnostics] s2,
                 Returned tt)
            end
        end
  end.

(** The function wrapped at lines 231-244, up to the point where it returns
    its promise: cancel, allocate the promise, arm the timer. *)
Definition doValidation (u : string) (s : state) : nat * state :=
  let s1 := cleanPendingValidation u s in
  let promise := next_promise s1 in
  let handle := next_handle s1 in
  let t := mkTimer handle (now s1 + VALIDATION_DELAY_MS) u promise in
  (promise,
   mkState (now s1) (S handle) (S promise) (timers s1 ++ [t])
     (<[u := handle]> (pendingValidationRequests s1)) (settled s1)
     (documents s1) (relations s1) (partialSchemas s1) (pools s1)
     (trace s1 ++ [SetTimeout handle u VALIDATION_DELAY_MS])).

(** How the promise handed out by [doValidation] stands: the inner promise
    seen through [promiseRejectionHandler]. *)
Definition promiseState (p : nat) (s : state) : option (outcome unit) :=
  (λ o, (promiseRejectionHandler o).2) <$> settled s !! p.

(** [nextPromise] (lines 121-133): [None] is the [null] that ends the
    pool's supply. *)
Definition nextPromise (pl : pool) (s : state) : option (nat * pool * state) :=
  if decide (List.length (uris pl) ≤ currentIndex pl)%nat then None
  else
    match uris pl !! currentIndex pl with
    | None => None
    | Some u =>
        let '(promise, s1) := doValidation u s in
        Some (promise,
              mkPool (uris pl) (currentIndex pl + 1) (tracked pl), s1)
    end.

(** es6-promise-pool, [_proceed]: while fewer than [concurrency] promises
    are tracked, ask the producer for the next one and track it.  The loop
    runs at most [slots] times, the number of free slots on entry. *)
Fixpoint pool_fill (slots : nat) (pl : pool) (s : state) : pool * state :=
  match slots with
  | 0 => (pl, s)
  | S k =>
      match nextPromise pl s with
      | None => (pl, s)
      | Some (promise, pl1, s1) =>
          pool_fill k (mkPool (uris pl1) (currentIndex pl1)
                         (tracked pl1 ++ [promise])) s1
      end
  end.

Definition pool_proceed (pl : pool) (s : state) : pool * state :=
  pool_fill (POOL_CONCURRENCY - List.length (tracked pl)) pl s.

(** [triggerValidationForWorkspaceFiles] (lines 117-138); [files] stands for
    [Object.keys(files)]. *)
Definition triggerValidationForWorkspaceFiles (files : list string)
    (s : state) : state :=
  let '(pl, s1) := pool_proceed (mkPool files 0 []) s in
  set_pools (pools s1 ++ [pl]) s1.

(** The promise of [doValidation] numbered [promise] has just settled.  What
    a pool tracks is that promise behind [promiseRejectionHandler] and
    [catch(sendException)], which is always fulfilled: every pool that tracks
    it frees the slot and proceeds. *)
Fixpoint pools_onFulfilled (promise : nat) (pls : list pool) (s : state)
    : list pool * state :=
  match pls with
  | [] => ([], s)
  | pl :: rest =>
      let '(pl1, s1) :=
        if decide (promise ∈ tracked pl) then
          pool_proceed
            (mkPool (uris pl) (currentIndex pl)
               (filter (λ q, q ≠ promise) (tracked pl))) s
        else (pl, s) in
      let '(rest1, s2) := pools_onFulfilled promise rest s1 in
      (pl1 :: rest1, s2)
  end.

(** The [setTimeout] callback (lines 236-241) run to completion: the handle
    is dropped, [validate] runs, and its outcome settles the promise, which
    the [promiseRejectionHandler] around [doValidation] observes. *)
Definition timer_callback (t : timer) (s : state) : state :=
  let s0 := set_now (now s `max` t_due t)
              (set_timers
                 (filter (λ t', t_handle t' ≠ t_handle t) (timers s)) s) in
  let s1 := set_pending (delete (t_uri t) (pendingValidationRequests s0)) s0 in
  let '(s2, o) := validate (t_uri t) (emit [CallValidate (t_uri t)] s1) in
  let s3 := set_settled (<[t_promise t := o]> (settled s2)) s2 in
  emit (promiseRejectionHandler o).1 s3.

(** A due timer runs: its callback, then the reactions of the pools to the
    promise it settled. *)
Definition fire (t : timer) (s : state) : state :=
  let s5 := timer_callback t s in
  let '(pls, s6) := pools_onFulfilled (t_promise t) (pools s5) s5 in
  set_pools pls s6.

(** The timer the event loop runs next: the earliest due one, the first
    armed among equals. *)
Fixpoint earliest (l : list timer) : option timer :=
  match l with
  | [] => None
  | t :: r =>
      match earliest r with
      | Some t' => if t_due t' <? t_due t then Some t' else Some t
      | None => Some t
      end
  end.

Fixpoint run_timers (fuel : nat) (deadline : nat) (s : state) : state :=
  match fuel with
  | 0 => s
  | S k =>
      match earliest (timers s) with
      | Some t =>
          if t_due t <=? deadline then run_timers k deadline (fire t s)
          else s
      | None => s
      end
  end.

(** An upper bound on the timers that can still fire: the live ones and the
    URIs the pools have not handed out yet. *)
Definition backlog (s : state) : nat :=
  List.length (timers s) +
  sum_list (map (λ pl, List.length (uris pl) - currentIndex pl) (pools s)).

(** [dt] milliseconds pass: every timer due by then runs, in order. *)
Definition elapse (dt : nat) (s : state) : state :=
  let deadline := now s + dt in
  let s1 := run_timers (backlog s) deadline s in
  set_now (now s1 `max` deadline) s1.

(** [clearDocument] (lines 312-329). *)
Definition clearDocument (u : string) (s : state) : state :=
  let children := getChildrenUris u s in
  let s1 := cleanPendingValidation u s in
  let s2 := documentService_clear u s1 in
  let s3 := emit [SendDiagnostics u []] s2 in
  if decide (0 < List.length children)%nat then
    fold_left (λ acc childUri, clearPartialSchema childUri acc) children s3
  else s3.

(** [lifecycleCallbacks] (lines 140-166). *)
Definition onFileCreated (u : string) (s : state) : state :=
  (doValidation u s).2.

Definition onFileDeleted (u : string) (s : state) : state :=
  clearDocument u s.

Definition onFileChanged (u : string) (s : state) : state :=
  let children := getChildrenUris u s in
  let s1 :=
    if decide (List.length children ≠ 0) then
      clearRelations u
        (fold_left (λ acc childUri, clearPartialSchema childUri acc)
           children s)
    else s in
  (doValidation u s1).2.

Definition onFileOpened (u : string) (s : state) : state :=
  (doValidation u s).2.

Definition onFileClosed (u : string) (s : state) : state := s.

(** [doResolve] (lines 218-229): the effects, and the promise of the
    delegate handed back as it is. *)
Definition doResolve (completionItem : CompletionItem)
    (delegate : outcome CompletionItem) (s : state)
    : state * outcome CompletionItem :=
  let s1 := emit
    [SendAnalytics "resolveCompletion"
       [("label", JSString (label completionItem));
        ("documentType",
         js_and (data completionItem) (λ d, getMember d "documentType"))]] s in
  (emit [CallCompleterDoResolve completionItem] s1, delegate).

(** What reading [document.uri] throws when the store answered
    [undefined]. *)
Definition uri_of_undefined : Error :=
  TypeError "Cannot read property 'uri' of undefined".

(** The [catch] block shared by [findDefinitions], [findReferences] and
    [doHover]. *)
Definition respondError {A : Type} (err : Error) (s : state)
    : state * outcome (A + ResponseError) :=
  (emit [SendException err] s,
   Returned (inr (mkResponseError 1 (message err)))).

(** [findReferences] (lines 277-294).  [Threw] is a rejected promise: the
    failure reaches the caller. *)
Definition findReferences (u : string) (s : state)
    : state * outcome (list Location + ResponseError) :=
  match getTextDocument u s with
  | Threw e => (s, Threw e)
  | Returned document =>
      (* try *)
      match document with
      | None => respondError uri_of_undefined s
      | Some d =>
          match awaitYamlDocument (uri d) s with
          | (s1, Threw err) => respondError err s1
          | (s1, Returned yamlDocument) =>
              match getReferences W (now s) d yamlDocument with
              | Threw err => respondError err s1
              | Returned locations => (s1, Returned (inl locations))
              end
          end
      end
  end.

(** [findDefinitions] (lines 259-275). *)
Definition findDefinitions (u : string) (s : state)
    : state * outcome (list Location + ResponseError) :=
  (* try *)
  match getTextDocument u s with
  | Threw err => respondError err s
  | Returned document =>
      match awaitYamlDocument u s with
      | (s1, Threw err) => respondError err s1
      | (s1, Returned yamlDocument) =>
          match getDefinition W (now s) document yamlDocument with
          | Threw err => respondError err s1
          | Returned definition => (s1, Returned (inl definition))
          end
      end
  end.

(** [findLinks] (lines 296-310). *)
Definition findLinks (u : string) (s : state)
    : state * outcome (list Location) :=
  let caught (err : Error) (s' : state) : state * outcome (list Location) :=
    (emit [SendException err] s', Returned []) in
  (* try *)
  match getTextDocument u s with
  | Threw err => caught err s
  | Returned document =>
      match document with
      | None => caught uri_of_undefined s
      | Some d =>
          match awaitYamlDocument (uri d) s with
          | (s1, Threw err) => caught err s1
          | (s1, Returned yamlDocument) =>
              match findDocumentLinks W (now s) d yamlDocument with
              | Threw err => caught err s1
              | Returned links => (s1, Returned links)
              end
          end
      end
  end.

End LanguageServiceImpl.

(** ** The event loop as seen from outside *)

(** Everything that can happen to the service: calls on its public surface,
    lifecycle callbacks, callbacks of the store, an update of the store by
    the editor, and the passing of time. *)
Inductive event : Type :=
| Call_doValidation (u : string)
| Call_clearDocument (u : string)
| Call_doResolve (item : CompletionItem) (delegate : outcome CompletionItem)
| Call_findReferences (u : string)
| Call_findDefinitions (u : string)
| Call_findLinks (u : string)
| FileCreated (u : string)
| FileDeleted (u : string)
| FileChanged (u : string)
| FileOpened (u : string)
| FileClosed (u : string)
| WorkplaceFilesInitialized (files : list string)
| WorkplaceFilesChanged (files : list string)
| ExternalImport (c : externalImport)
| DocumentStored (u : string) (text : string)
| Elapse (dt : nat).

Definition step (W : World) (e : event) (s : state) : state :=
  match e with
  | Call_doValidation u => (doValidation u s).2
  | Call_clearDocument u => clearDocument u s
  | Call_doResolve item delegate => (doResolve item delegate s).1
  | Call_findReferences u => (findReferences W u s).1
  | Call_findDefinitions u => (findDefinitions W u s).1
  | Call_findLinks u => (findLinks W u s).1
  | FileCreated u => onFileCreated u s
  | FileDeleted u => onFileDeleted u s
  | FileChanged u => onFileChanged u s
  | FileOpened u => onFileOpened u s
  | FileClosed u => onFileClosed u s
  | WorkplaceFilesInitialized files => triggerValidationForWorkspaceFiles files s
  | WorkplaceFilesChanged files => triggerValidationForWorkspaceFiles files s
  | ExternalImport c => externalImportsCallback c s
  | DocumentStored u text => set_documents (<[u := text]> (documents s)) s
  | Elapse dt => elapse W dt s
  end.

(** The state after a history of events, oldest first. *)
Definition run (W : World) (history : list event) (s : state) : state :=
  fold_left (λ acc e, step W e acc) history s.

(** ** Observations *)

(** The live timers of a URI. *)
Definition liveHandles (u : string) (s : state) : list timer :=
  filter (λ t, t_uri t = u) (timers s).

(** How often [validate(u)] has been entered. *)
Definition isCallValidate (u : string) (e : effect) : bool :=
  match e with
  | CallValidate u' => bool_decide (u' = u)
  | _ => false
  end.

Definition validations (u : string) (tr : list effect) : nat :=
  List.length (List.filter (isCallValidate u) tr).

(** The URIs for which a timer was armed, in the order of arming. *)
Definition scheduled (tr : list effect) : list string :=
  omap (λ e, match e with SetTimeout _ u _ => Some u | _ => None end) tr.

(** [u] is still to be handed out by some pool. *)
Definition queued (u : string) (s : state) : Prop :=
  Exists (λ pl, u ∈ drop (currentIndex pl) (uris pl)) (pools s).

(** ** Well-formed scheduler states *)

(** The part of the state the scheduler and the pools own. *)
Definition scheduler (s : state) :=
  (now s, next_handle s, next_promise s, timers s,
   pendingValidationRequests s, settled s, pools s).

Record wf (s : state) : Prop := mkWf {
  wf_handle_bound : ∀ t, t ∈ timers s → t_handle t < next_handle s;
  wf_promise_bound : ∀ t, t ∈ timers s → t_promise t < next_promise s;
  wf_handles : NoDup (t_handle <$> timers s);
  wf_promises : NoDup (t_promise <$> timers s);
  wf_pending_live : ∀ u h,
    pendingValidationRequests s !! u = Some h →
    ∃ t, t ∈ timers s ∧ t_handle t = h ∧ t_uri t = u;
  wf_live_pending : ∀ t,
    t ∈ timers s → pendingValidationRequests s !! t_uri t = Some (t_handle t);
  wf_unsettled : ∀ t, t ∈ timers s → settled s !! t_promise t = None;
  wf_settled_bound : ∀ p o, settled s !! p = Some o → p < next_promise s;
  wf_tracked_bound : ∀ pl p,
    pl ∈ pools s → p ∈ tracked pl → p < next_promise s;
  wf_pool_size : ∀ pl,
    pl ∈ pools s → List.length (tracked pl) ≤ POOL_CONCURRENCY
}.

(** ** Notions used in the statements and proofs *)

(** The timer [doValidation u] arms on [s]. *)
Definition armed (u : string) (s : state) : timer :=
  mkTimer (next_handle s) (now s + VALIDATION_DELAY_MS) u (next_promise s).

(** [doValidation] for each of [us] in turn. *)
Definition arm_all (us : list string) (s : state) : state :=
  fold_left (λ acc u, (doValidation u acc).2) us s.

(** Whatever happens, a promise is only ever settled by the timer that was
    armed together with it, and later timers carry later promises. *)
Record evolves (s s' : state) : Prop := mkEvolves {
  ev_next_promise : next_promise s ≤ next_promise s';
  ev_now : now s ≤ now s';
  ev_timers : ∀ t, t ∈ timers s' → t ∈ timers s ∨ next_promise s ≤ t_promise t;
  ev_settled : ∀ p,
    p < next_promise s → (∀ t, t ∈ timers s → t_promise t ≠ p) →
    settled s' !! p = settled s !! p
}.

(** [s'] differs from [s] at most in the relations, the schema fragments and
    the trace, and no [validate] was entered in between. *)
Record quiet (s s' : state) : Prop := mkQuiet {
  q_scheduler : scheduler s' = scheduler s;
  q_documents : documents s' = documents s;
  q_validations : ∀ v, validations v (trace s') = validations v (trace s);
  q_scheduled : scheduled (trace s') = scheduled (trace s)
}.

(** The state in which the callback of [t] enters [validate]. *)
Definition entered (t : timer) (s : state) : state :=
  let s0 := set_now (now s `max` t_due t)
              (set_timers
                 (filter (λ t', t_handle t' ≠ t_handle t) (timers s)) s) in
  emit [CallValidate (t_uri t)]
    (set_pending (delete (t_uri t) (pendingValidationRequests s0)) s0).

Definition remaining (pl : pool) : nat :=
  List.length (uris pl) - currentIndex pl.

(** How a pool may differ after a reaction: it moved its cursor forward and
    tracks, besides promises it tracked before, promises allocated in
    between. *)
Record pool_after (lo hi : nat) (pl pl' : pool) : Prop := mkPoolAfter {
  pa_uris : uris pl' = uris pl;
  pa_index : currentIndex pl ≤ currentIndex pl';
  pa_size : List.length (tracked pl) ≤ POOL_CONCURRENCY →
            List.length (tracked pl') ≤ POOL_CONCURRENCY;
  pa_tracked : ∀ q, q ∈ tracked pl' → q ∈ tracked pl ∨ lo ≤ q < hi
}.

(** What [onFileChanged] does before it schedules. *)
Definition invalidated (u : string) (s : state) : state :=
  let children := getChildrenUris u s in
  if decide (List.length children ≠ 0) then
    clearRelations u
      (fold_left (λ acc childUri, clearPartialSchema childUri acc) children s)
  else s.

#[global] Instance queued_dec u s : Decision (queued u s).
Proof. unfold queued. apply _. Defined.

(** A world for examples: the store cannot read [locked.yaml], the parser
    rejects [broken.yaml], cfn-lint cannot be executed on [nolint.yaml] and
    the engine crashes on [crash.yaml]; every other document parses and
    validates with one finding. *)
Definition exampleWorld : World :=
  mkWorld
    (λ _ u, if String.eqb u "locked.yaml"
            then Some (OtherError "EACCES") else None)
    (λ _ u, if String.eqb u "broken.yaml"
            then ([], Threw (OtherError "bad indentation"))
            else ([], Returned (mkYAMLDocument "cfn" None)))
    (λ _ d _, if String.eqb (uri d) "nolint.yaml"
              then Threw (CfnLintFailedToExecuteError "cfn-lint not found")
              else if String.eqb (uri d) "crash.yaml"
              then Threw (OtherError "boom")
              else Returned ["finding"])
    (λ _ d _, if String.eqb (uri d) "crash.yaml"
              then Threw (OtherError "boom") else Returned ["here"])
    (λ _ _ _, Returned ["there"])
    (λ _ _ _, Returned []).

Definition exampleHistory : list event :=
  [DocumentStored "a.yaml" "Resources: {}";
   DocumentStored "b.yaml" "Outputs: {}";
   WorkplaceFilesInitialized ["b.yaml"];
   FileOpened "a.yaml";
   Elapse 70].

(** The calls an import callback makes. *)
Definition externalImportEffects (c : externalImport) : list effect :=
  match c with
  | onRegisterExternalImport u parentUri =>
      [CallRegisterChildParentRelation u parentUri]
  | onValidateExternalImport u parentUri schema property
      fetched parsed validated =>
      match fetched with
      | Threw e => [SendException e]
      | Returned _ =>
          [CallRegisterPartialSchema u schema property; CallGetYamlDocument u]
          ++ match parsed with
             | Threw e => [SendException e]
             | Returned _ =>
                 CallDoExternalImportValidation u ::
                 match validated with
                 | Threw e => [SendException e]
                 | Returned _ => []
                 end
             end
      end
  end.

Definition isSendDiagnostics (e : effect) : bool :=
  match e with SendDiagnostics _ _ => true | _ => false end.

Definition isSendNotification (e : effect) : bool :=
  match e with SendNotification _ => true | _ => false end.

Definition isEngineCall (e : effect) : bool :=
  match e with CallValidationDoValidation _ => true | _ => false end.

Definition isAnalytics (action : string) (e : effect) : bool :=
  match e with SendAnalytics a _ => String.eqb a action | _ => false end.

Definition occurrences (f : effect → bool) (tr : list effect) : nat :=
  List.length (List.filter f tr).

(** What the [try] block of [validate] raises, if anything. *)
Definition raised (W : World) (d : TextDocument) (s : state) : option Error :=
  match (getYamlDocument W (now s) (uri d)).2 with
  | Threw e => Some e
  | Returned y =>
      match validation_doValidation W (now s) d y with
      | Threw e => Some e
      | Returned _ => None
      end
  end.

(** The diagnostics the client currently shows for [u]: the last set
    published for it. *)
Definition publishedDiagnostics (u : string) (tr : list effect)
    : option (list Diagnostic) :=
  fold_left
    (λ acc e,
       match e with
       | SendDiagnostics u' ds => if String.eqb u' u then Some ds else acc
       | _ => acc
       end) tr None.

Definition clearPartialSchemas (children : list string) (s : state) : state :=
  fold_left (λ acc childUri, clearPartialSchema childUri acc) children s.

(** The state of a batch over [files] started on [base], after [c] of the
    URIs were handed out: the last pool tracks exactly the live timers, each
    URI handed out is either still waiting for its timer or was validated
    once, and the clock has not run ahead of the hand-outs. *)
Record sweeping (base : state) (files : list string) (c : nat) (s : state)
    : Prop := mkSweeping {
  sw_wf : wf s;
  sw_pools : ∃ old,
    pools s = old ++ [mkPool files c (t_promise <$> timers s)] ∧
    Forall (λ q, remaining q = 0) old;
  sw_cursor : c ≤ List.length files;
  sw_live : ∀ t, t ∈ timers s → t_uri t ∈ take c files;
  sw_count : ∀ u,
    validations u (trace s) + List.length (liveHandles u s) =
    validations u (trace base) + (if decide (u ∈ take c files) then 1 else 0);
  sw_scheduled : scheduled (trace s) = scheduled (trace base) ++ take c files;
  sw_full : List.length (timers s) < POOL_CONCURRENCY → c = List.length files;
  sw_now : now s ≤ now base + VALIDATION_DELAY_MS * c;
  sw_due : ∀ t, t ∈ timers s → t_due t ≤ now base + VALIDATION_DELAY_MS * c
}.

(** The timers [arm_all] adds when none of the URIs has a live timer. *)
Fixpoint fresh_timers (us : list string) (h p due : nat) : list timer :=
  match us with
  | [] => []
  | u :: r => mkTimer h due u p :: fresh_timers r (S h) (S p) due
  end.

(** Nothing is pending and every earlier batch has handed out all its
    URIs. *)
Definition idle (s : state) : Prop :=
  timers s = [] ∧ Forall (λ q, remaining q = 0) (pools s).

#[global] Instance idle_dec s : Decision (idle s).
Proof. unfold idle. apply _. Defined.

Definition exampleFiles : list string :=
  ["a.yaml"; "locked.yaml"; "nolint.yaml"; "crash.yaml"; "b.yaml"].

(** ** Completion, hover and document symbols *)

Definition Position : Type := (nat * nat)%type.
Definition Hover : Type := string.
Definition DocumentSymbol : Type := string.

Record CompletionList : Type := mkCompletionList {
  items : list CompletionItem;
  isIncomplete : bool
}.

(** What a call in the position [return f(...)] of an async function gives:
    a value (or a promise fulfilled with it), an exception thrown by the call
    itself, or a promise that rejects.  Only the exception is seen by an
    enclosing [try]: the returned promise is not awaited there. *)
Inductive answer (A : Type) : Type :=
| Answers (a : A)
| Throws (e : Error)
| Rejects (e : Error).
Arguments Answers {A} a.
Arguments Throws {A} e.
Arguments Rejects {A} e.

(** The collaborators of [doComplete], [doHover] and [findDocumentSymbols];
    the first argument is the clock. *)
Record Engines : Type := mkEngines {
  (** [completionHelper(document, position).newDocument]. *)
  completionHelper : nat -> TextDocument -> Position -> outcome TextDocument;
  (** [parse(newDocument, undefined, parentParams)]. *)
  parse : nat -> TextDocument -> option string -> outcome YAMLDocument;
  completer_doComplete :
    nat -> TextDocument -> Position -> YAMLDocument -> answer CompletionList;
  hover_doHover :
    nat -> TextDocument -> Position -> YAMLDocument -> answer Hover;
  services_findDocumentSymbols :
    nat -> TextDocument -> YAMLDocument -> answer (list DocumentSymbol)
}.

(** How the promise of an async function ends when its body ends with
    [return f(...)] inside a [try] whose [catch] is [caught]. *)
Definition returned {A B : Type} (a : answer A) (value : A -> B)
    (caught : Error -> state -> state * outcome B) (s : state)
    : state * outcome B :=
  match a with
  | Answers x => (s, Returned (value x))
  | Throws err => caught err s
  | Rejects err => (s, Threw err)
  end.

Definition emptyCompletionList : CompletionList := mkCompletionList [] false.

(** [doComplete] (lines 191-216). *)
Definition doComplete (E : Engines) (W : World)
    (document : option TextDocument) (position : Position) (s : state)
    : state * outcome CompletionList :=
  let result := emptyCompletionList in
  let caught (err : Error) (s' : state) : state * outcome CompletionList :=
    (emit [SendException err] s', Returned result) in
  match document with
  | None => (s, Returned result)
  | Some d =>
      (* try *)
      match completionHelper E (now s) d position with
      | Threw err => caught err s
      | Returned newDocument =>
          match awaitYamlDocument W (uri d) s with
          | (s1, Threw err) => caught err s1
          | (s1, Returned originalYamlDocument) =>
              match parse E (now s) newDocument
                      (parentParams originalYamlDocument) with
              | Threw err => caught err s1
              | Returned yamlDocument =>
                  returned
                    (completer_doComplete E (now s) d position yamlDocument)
                    id caught s1
              end
          end
      end
  end.

(** [doHover] (lines 331-345). *)
Definition doHover (E : Engines) (W : World)
    (document : option TextDocument) (position : Position) (s : state)
    : state * outcome (Hover + ResponseError) :=
  (* try *)
  match document with
  | None => respondError uri_of_undefined s
  | Some d =>
      match awaitYamlDocument W (uri d) s with
      | (s1, Threw err) => respondError err s1
      | (s1, Returned yamlDocument) =>
          returned (hover_doHover E (now s) d position yamlDocument)
            inl respondError s1
      end
  end.

(** [findDocumentSymbols] (lines 246-257): its [catch] answers with the
    empty list and reports nothing. *)
Definition findDocumentSymbols (E : Engines) (W : World)
    (document : option TextDocument) (s : state)
    : state * outcome (list DocumentSymbol) :=
  let caught (err : Error) (s' : state)
      : state * outcome (list DocumentSymbol) := (s', Returned []) in
  (* try *)
  match document with
  | None => caught uri_of_undefined s
  | Some d =>
      match awaitYamlDocument W (uri d) s with
      | (s1, Threw err) => caught err s1
      | (s1, Returned yamlDocument) =>
          returned (services_findDocumentSymbols E (now s) d yamlDocument)
            id caught s1
      end
  end.


(** No live timer carries the promise [p]. *)
Definition superseded (p : nat) (s : state) : Prop :=
  Forall (λ t, t_promise t ≠ p) (timers s).

(** [validate u] on [s] gets as far as the engine: the store hands over a
    document with text and the parser accepts it. *)
Definition reaches_engine (W : World) (u : string) (s : state) : bool :=
  match getTextDocument W u s with
  | Returned (Some d) =>
      negb (Nat.eqb (String.length (getText d)) 0) &&
      match (getYamlDocument W (now s) (uri d)).2 with
      | Returned _ => true
      | Threw _ => false
      end
  | _ => false
  end.


Definition isSendException (e : effect) : bool :=
  match e with SendException _ => true | _ => false end.

(** The diagnostics [es] publishes are not for [u]. *)
Definition silent_for (u : string) (es : list effect) : Prop :=
  Forall (λ e, match e with
               | SendDiagnostics u' _ => u' ≠ u
               | _ => True
               end) es.

(** Engines for examples: the completion helper fails on an empty document,
    the completer throws on [crash.yaml] and its promise rejects on
    [late.yaml]; hover and symbols behave alike. *)
Definition exampleEngines : Engines :=
  mkEngines
    (λ _ d _, if String.eqb (getText d) ""
              then Threw (OtherError "nothing to complete")
              else Returned (mkTextDocument (uri d) (getText d ++ ":")))
    (λ _ d parent, Returned (mkYAMLDocument "cfn" parent))
    (λ _ d _ _, if String.eqb (uri d) "crash.yaml"
                then Throws (OtherError "boom")
                else if String.eqb (uri d) "late.yaml"
                then Rejects (OtherError "too late")
                else Answers (mkCompletionList
                                [mkCompletionItem "Resources" JSUndefined] true))
    (λ _ d _ _, if String.eqb (uri d) "crash.yaml"
                then Throws (OtherError "boom")
                else if String.eqb (uri d) "late.yaml"
                then Rejects (OtherError "too late")
                else Answers "a resource")
    (λ _ d _, if String.eqb (uri d) "crash.yaml"
              then Throws (OtherError "boom")
              else if String.eqb (uri d) "late.yaml"
              then Rejects (OtherError "too late")
              else Answers ["Resources"]).

(** ** What stays as it was, and what was accounted for *)

(** Nothing [v] owns has changed between [s] and [s']: its timer, its entry
    in [pendingValidationRequests], its document, how often it was
    validated and the diagnostics shown for it. *)
Definition undisturbed (v : string) (s s' : state) : Prop :=
  liveHandles v s' = liveHandles v s ∧
  pendingValidationRequests s' !! v = pendingValidationRequests s !! v ∧
  documents s' !! v = documents s !! v ∧
  validations v (trace s') = validations v (trace s) ∧
  publishedDiagnostics v (trace s') = publishedDiagnostics v (trace s).

(** An event other than a new text of [u] in the store. *)
Definition keeps_deleted (u : string) (e : event) : Prop :=
  match e with
  | DocumentStored v _ => v ≠ u
  | _ => True
  end.

#[global] Instance keeps_deleted_dec u e : Decision (keeps_deleted u e).
Proof. destruct e; simpl; apply _. Defined.

(** The events that call [doValidation] for [u] or queue it in a pool. *)
Definition schedules (u : string) (e : event) : Prop :=
  match e with
  | Call_doValidation v | FileCreated v | FileChanged v | FileOpened v => v = u
  | WorkplaceFilesInitialized files | WorkplaceFilesChanged files => u ∈ files
  | _ => False
  end.

#[global] Instance schedules_dec u e : Decision (schedules u e).
Proof. destruct e; simpl; apply _. Defined.

(** [u] has no live timer and no pool is about to schedule it. *)
Definition dormant (u : string) (s : state) : Prop :=
  liveHandles u s = [] ∧ ¬ queued u s.

(** How often a timer was armed for [u]. *)
Definition timesScheduled (u : string) (tr : list effect) : nat :=
  List.length (filter (λ v, v = u) (scheduled tr)).

(** The timers of [u] that ran or are still to run. *)
Definition accounted (u : string) (s : state) : nat :=
  validations u (trace s) + List.length (liveHandles u s).

Definition no_later (a b : timer) : Prop := t_due a ≤ t_due b.

(** The live timers are listed in the order they are due, and none is due
    later than the delay from now. *)
Record on_schedule (s : state) : Prop := mkOnSchedule {
  os_order : StronglySorted no_later (timers s);
  os_bound : Forall (λ t, t_due t ≤ now s + VALIDATION_DELAY_MS) (timers s)
}.

(** No live timer is overdue. *)
Definition none_overdue (s : state) : Prop :=
  Forall (λ t, now s < t_due t) (timers s).

(** No live timer settles a promise [pl] tracks. *)
Definition stalled (pl : pool) (s : state) : Prop :=
  Forall (λ p, superseded p s) (tracked pl).

#[global] Instance stalled_dec pl s : Decision (stalled pl s).
Proof. unfold stalled, superseded. apply _. Defined.

(** A history in which the timers of a batch are all replaced before they
    are due. *)
Definition stallHistory : list event :=
  [WorkplaceFilesInitialized exampleFiles;
   Elapse 100;
   FileOpened "a.yaml"; FileOpened "locked.yaml"; FileChanged "nolint.yaml"].


(** * Properties *)

Lemma wf_initial : wf initial.
Proof.
  split; simpl; try (intros; set_solver); constructor.
Qed.

Lemma wf_same_scheduler s s' : scheduler s = scheduler s' → wf s → wf s'.
Proof.
  unfold scheduler. intros Heq [H1 H2 H3 H4 H5 H6 H7 H8 H9 H10].
  injection Heq as E1 E2 E3 E4 E5 E6 E7.
  split; rewrite <- ?E2, <- ?E3, <- ?E4, <- ?E5, <- ?E6, <- ?E7; assumption.
Qed.

(** Two live timers with one handle are one timer. *)
Lemma wf_handle_inj s t1 t2 :
  wf s → t1 ∈ timers s → t2 ∈ timers s → t_handle t1 = t_handle t2 → t1 = t2.
Proof.
  intros Hwf H1 H2 Heq.
  apply list_elem_of_lookup in H1 as [i Hi], H2 as [j Hj].
  assert (i = j) as ->.
  { apply (NoDup_lookup _ i j (t_handle t1) (wf_handles _ Hwf));
      rewrite list_lookup_fmap; [rewrite Hi | rewrite Hj]; simpl; congruence. }
  congruence.
Qed.

(** At most one live timer per URI. *)
Lemma wf_uri_inj s t1 t2 :
  wf s → t1 ∈ timers s → t2 ∈ timers s → t_uri t1 = t_uri t2 → t1 = t2.
Proof.
  intros Hwf H1 H2 Heq.
  eapply wf_handle_inj; eauto.
  pose proof (wf_live_pending _ Hwf _ H1) as E1.
  pose proof (wf_live_pending _ Hwf _ H2) as E2.
  rewrite Heq in E1. congruence.
Qed.

Lemma filter_length_le_1 {A} (P : A → Prop) `{∀ x, Decision (P x)} (l : list A) :
  NoDup l → (∀ x y, x ∈ l → y ∈ l → P x → P y → x = y) →
  List.length (filter P l) ≤ 1.
Proof.
  intros Hnd Hinj.
  destruct (filter P l) as [|x [|y r]] eqn:E; simpl; try lia.
  exfalso.
  assert (NoDup (filter P l)) as Hnd' by by apply NoDup_filter.
  rewrite E in Hnd'.
  assert (x ∈ filter P l) as Hx by (rewrite E; set_solver).
  assert (y ∈ filter P l) as Hy by (rewrite E; set_solver).
  apply list_elem_of_filter in Hx as [Px Hx], Hy as [Py Hy].
  assert (x = y) as -> by eauto.
  apply NoDup_cons in Hnd' as [Hn _]. set_solver.
Qed.

Lemma wf_timers_NoDup s : wf s → NoDup (timers s).
Proof.
  intros Hwf. eapply NoDup_fmap_1, (wf_handles _ Hwf).
Qed.

Lemma wf_liveHandles s u : wf s → List.length (liveHandles u s) ≤ 1.
Proof.
  intros Hwf. unfold liveHandles.
  apply filter_length_le_1; [by apply wf_timers_NoDup |].
  intros x y Hx Hy Px Py. eapply wf_uri_inj; eauto. congruence.
Qed.

(** ** Facts about lists used below *)

Lemma filter_agree {A} (P Q : A → Prop)
    `{∀ x, Decision (P x)} `{∀ x, Decision (Q x)} (l : list A) :
  (∀ x, x ∈ l → P x ↔ Q x) → filter P l = filter Q l.
Proof.
  induction l as [|a l IH]; intros Hpq; [done |].
  rewrite !filter_cons.
  rewrite IH by (intros x Hx; apply Hpq; by apply list_elem_of_further).
  pose proof (Hpq a (list_elem_of_here a l)) as Ha.
  destruct (decide (P a)) as [p | np], (decide (Q a)) as [q | nq];
    try done; exfalso; tauto.
Qed.

Lemma filter_all {A} (P : A → Prop) `{∀ x, Decision (P x)} (l : list A) :
  (∀ x, x ∈ l → P x) → filter P l = l.
Proof.
  induction l as [|a l IH]; intros Hp; [done |].
  rewrite filter_cons, decide_True by apply Hp, list_elem_of_here.
  by rewrite IH by (intros x Hx; by apply Hp, list_elem_of_further).
Qed.

Lemma filter_none {A} (P : A → Prop) `{∀ x, Decision (P x)} (l : list A) :
  (∀ x, x ∈ l → ¬ P x) → filter P l = [].
Proof.
  induction l as [|a l IH]; intros Hp; [done |].
  rewrite filter_cons, decide_False by apply Hp, list_elem_of_here.
  by rewrite IH by (intros x Hx; by apply Hp, list_elem_of_further).
Qed.

Lemma NoDup_fmap_filter {A B} (f : A → B) (P : A → Prop)
    `{∀ x, Decision (P x)} (l : list A) :
  NoDup (f <$> l) → NoDup (f <$> filter P l).
Proof.
  intros Hnd. eapply sublist_NoDup; [exact Hnd |].
  apply fmap_sublist. by apply sublist_filter.
Qed.

(** ** [cleanPendingValidation] and [doValidation] *)

Ltac clean_unfold :=
  unfold cleanPendingValidation;
  match goal with
  | |- context [pendingValidationRequests ?s !! ?u] =>
      destruct (pendingValidationRequests s !! u)
  end; reflexivity.

Lemma cleanPendingValidation_now u s : now (cleanPendingValidation u s) = now s.
Proof. clean_unfold. Qed.
Lemma cleanPendingValidation_next_handle u s :
  next_handle (cleanPendingValidation u s) = next_handle s.
Proof. clean_unfold. Qed.
Lemma cleanPendingValidation_next_promise u s :
  next_promise (cleanPendingValidation u s) = next_promise s.
Proof. clean_unfold. Qed.
Lemma cleanPendingValidation_settled u s :
  settled (cleanPendingValidation u s) = settled s.
Proof. clean_unfold. Qed.
Lemma cleanPendingValidation_pools u s :
  pools (cleanPendingValidation u s) = pools s.
Proof. clean_unfold. Qed.
Lemma cleanPendingValidation_documents u s :
  documents (cleanPendingValidation u s) = documents s.
Proof. clean_unfold. Qed.
Lemma cleanPendingValidation_relations u s :
  relations (cleanPendingValidation u s) = relations s.
Proof. clean_unfold. Qed.
Lemma cleanPendingValidation_partialSchemas u s :
  partialSchemas (cleanPendingValidation u s) = partialSchemas s.
Proof. clean_unfold. Qed.

Lemma cleanPendingValidation_trace u s :
  trace (cleanPendingValidation u s) =
  trace s ++ match pendingValidationRequests s !! u with
             | Some request => [ClearTimeout request]
             | None => []
             end.
Proof.
  unfold cleanPendingValidation.
  destruct (pendingValidationRequests s !! u); simpl; [done |].
  by rewrite app_nil_r.
Qed.

Lemma cleanPendingValidation_pending u s :
  pendingValidationRequests (cleanPendingValidation u s) =
  delete u (pendingValidationRequests s).
Proof.
  unfold cleanPendingValidation.
  destruct (pendingValidationRequests s !! u) eqn:E; simpl; [done |].
  by rewrite delete_id.
Qed.

(** On a well-formed state, cancelling the handle stored for [u] removes
    exactly the live timers of [u]. *)
Lemma cleanPendingValidation_timers u s :
  wf s →
  timers (cleanPendingValidation u s) = filter (λ t, t_uri t ≠ u) (timers s).
Proof.
  intros Hwf. unfold cleanPendingValidation.
  destruct (pendingValidationRequests s !! u) as [h|] eqn:E; simpl.
  - apply filter_agree. intros t Ht.
    pose proof (wf_live_pending _ Hwf _ Ht) as Hp.
    destruct (wf_pending_live _ Hwf _ _ E) as (t0 & Ht0 & Hh & Hu).
    split; intros Hne Heq; apply Hne.
    + rewrite Heq, E in Hp. congruence.
    + assert (t = t0) as -> by (eapply wf_handle_inj; eauto; congruence).
      done.
  - symmetry. apply filter_all. intros t Ht Heq.
    pose proof (wf_live_pending _ Hwf _ Ht) as Hp.
    rewrite Heq, E in Hp. discriminate.
Qed.

Lemma wf_cleanPendingValidation u s : wf s → wf (cleanPendingValidation u s).
Proof.
  intros Hwf. pose proof Hwf as [H1 H2 H3 H4 H5 H6 H7 H8 H9 H10].
  split;
    rewrite ?cleanPendingValidation_timers, ?cleanPendingValidation_pending,
      ?cleanPendingValidation_next_handle, ?cleanPendingValidation_next_promise,
      ?cleanPendingValidation_settled, ?cleanPendingValidation_pools by done;
    try done.
  - intros t [_ Ht]%list_elem_of_filter. eauto.
  - intros t [_ Ht]%list_elem_of_filter. eauto.
  - by apply NoDup_fmap_filter.
  - by apply NoDup_fmap_filter.
  - intros u' h [Hne Hl]%lookup_delete_Some.
    destruct (H5 _ _ Hl) as (t & Ht & Hh & Hu).
    exists t. split_and!; try done.
    apply list_elem_of_filter. split; [congruence | done].
  - intros t [Hne Ht]%list_elem_of_filter.
    rewrite lookup_delete_ne by done. eauto.
  - intros t [_ Ht]%list_elem_of_filter. eauto.
Qed.

Lemma doValidation_promise u s : (doValidation u s).1 = next_promise s.
Proof. unfold doValidation. simpl. apply cleanPendingValidation_next_promise. Qed.

Lemma doValidation_now u s : now (doValidation u s).2 = now s.
Proof. unfold doValidation. simpl. apply cleanPendingValidation_now. Qed.
Lemma doValidation_next_handle u s :
  next_handle (doValidation u s).2 = S (next_handle s).
Proof.
  unfold doValidation. simpl. by rewrite cleanPendingValidation_next_handle.
Qed.
Lemma doValidation_next_promise u s :
  next_promise (doValidation u s).2 = S (next_promise s).
Proof.
  unfold doValidation. simpl. by rewrite cleanPendingValidation_next_promise.
Qed.
Lemma doValidation_settled u s : settled (doValidation u s).2 = settled s.
Proof. unfold doValidation. simpl. apply cleanPendingValidation_settled. Qed.
Lemma doValidation_pools u s : pools (doValidation u s).2 = pools s.
Proof. unfold doValidation. simpl. apply cleanPendingValidation_pools. Qed.
Lemma doValidation_documents u s : documents (doValidation u s).2 = documents s.
Proof. unfold doValidation. simpl. apply cleanPendingValidation_documents. Qed.
Lemma doValidation_relations u s : relations (doValidation u s).2 = relations s.
Proof. unfold doValidation. simpl. apply cleanPendingValidation_relations. Qed.
Lemma doValidation_partialSchemas u s :
  partialSchemas (doValidation u s).2 = partialSchemas s.
Proof.
  unfold doValidation. simpl. apply cleanPendingValidation_partialSchemas.
Qed.

Lemma doValidation_pending u s :
  pendingValidationRequests (doValidation u s).2 =
  <[u := next_handle s]> (pendingValidationRequests s).
Proof.
  unfold doValidation. simpl.
  rewrite cleanPendingValidation_pending, cleanPendingValidation_next_handle.
  apply insert_delete_eq.
Qed.

Lemma doValidation_trace u s :
  trace (doValidation u s).2 =
  trace s ++ match pendingValidationRequests s !! u with
             | Some request => [ClearTimeout request]
             | None => []
             end ++ [SetTimeout (next_handle s) u VALIDATION_DELAY_MS].
Proof.
  unfold doValidation. simpl.
  rewrite cleanPendingValidation_trace, cleanPendingValidation_next_handle.
  by rewrite <- app_assoc.
Qed.

Lemma doValidation_timers u s :
  wf s →
  timers (doValidation u s).2 =
  filter (λ t, t_uri t ≠ u) (timers s) ++ [armed u s].
Proof.
  intros Hwf. unfold doValidation, armed. simpl.
  by rewrite cleanPendingValidation_timers, cleanPendingValidation_now,
    cleanPendingValidation_next_handle, cleanPendingValidation_next_promise.
Qed.

(** [doValidation] never mentions [validate] in what it does itself. *)
Lemma doValidation_validations u v s :
  validations v (trace (doValidation u s).2) = validations v (trace s).
Proof.
  rewrite doValidation_trace. unfold validations.
  rewrite !List.filter_app, !length_app.
  destruct (pendingValidationRequests s !! u); simpl; lia.
Qed.

Lemma wf_doValidation u s : wf s → wf (doValidation u s).2.
Proof.
  intros Hwf. pose proof Hwf as [H1 H2 H3 H4 H5 H6 H7 H8 H9 H10].
  split;
    rewrite ?doValidation_timers, ?doValidation_pending,
      ?doValidation_next_handle, ?doValidation_next_promise,
      ?doValidation_settled, ?doValidation_pools by done.
  - intros t [[_ Ht]%list_elem_of_filter | ->%list_elem_of_singleton]%elem_of_app;
      [apply H1 in Ht; lia | simpl; lia].
  - intros t [[_ Ht]%list_elem_of_filter | ->%list_elem_of_singleton]%elem_of_app;
      [apply H2 in Ht; lia | simpl; lia].
  - rewrite fmap_app. apply NoDup_app. split_and!.
    + by apply NoDup_fmap_filter.
    + intros h (t & -> & [_ Ht]%list_elem_of_filter)%list_elem_of_fmap.
      simpl. intros Heq%list_elem_of_singleton. apply H1 in Ht. lia.
    + simpl. apply NoDup_singleton.
  - rewrite fmap_app. apply NoDup_app. split_and!.
    + by apply NoDup_fmap_filter.
    + intros h (t & -> & [_ Ht]%list_elem_of_filter)%list_elem_of_fmap.
      simpl. intros Heq%list_elem_of_singleton. apply H2 in Ht. lia.
    + simpl. apply NoDup_singleton.
  - intros u' h Hl. destruct (decide (u = u')) as [<- | Hne].
    + rewrite lookup_insert_eq in Hl. injection Hl as <-.
      exists (armed u s). split_and!; try done. set_solver.
    + rewrite lookup_insert_ne in Hl by done.
      destruct (H5 _ _ Hl) as (t & Ht & Hh & Hu).
      exists t. split_and!; try done.
      apply elem_of_app. left. apply list_elem_of_filter. split; congruence.
  - intros t [[Hne Ht]%list_elem_of_filter | ->%list_elem_of_singleton]%elem_of_app.
    + rewrite lookup_insert_ne by done. eauto.
    + simpl. by rewrite lookup_insert_eq.
  - intros t [[_ Ht]%list_elem_of_filter | ->%list_elem_of_singleton]%elem_of_app;
      [eauto |].
    simpl. destruct (settled s !! next_promise s) eqn:E; [| done].
    apply H8 in E. lia.
  - intros p o Hs. apply H8 in Hs. lia.
  - intros pl p Hpl Hp. specialize (H9 _ _ Hpl Hp). lia.
  - done.
Qed.

(** ** The pool *)

Lemma arm_all_cons u us s :
  arm_all (u :: us) s = arm_all us (doValidation u s).2.
Proof. reflexivity. Qed.

Lemma arm_all_app us vs s : arm_all (us ++ vs) s = arm_all vs (arm_all us s).
Proof. apply fold_left_app. Qed.

(** What the pool's loop amounts to: it hands out the next URIs, as many as
    there are free slots and URIs left, and tracks the promises allocated
    for them. *)
Lemma pool_fill_spec k pl s :
  let j := k `min` (List.length (uris pl) - currentIndex pl) in
  pool_fill k pl s =
  (mkPool (uris pl) (currentIndex pl + j)
     (tracked pl ++ seq (next_promise s) j),
   arm_all (take j (drop (currentIndex pl) (uris pl))) s).
Proof.
  revert pl s. induction k as [|k IH]; intros pl s; simpl.
  { rewrite Nat.add_0_r, app_nil_r. by destruct pl. }
  unfold nextPromise.
  destruct (decide (List.length (uris pl) ≤ currentIndex pl)) as [Hle | Hgt].
  { replace (List.length (uris pl) - currentIndex pl) with 0 by lia.
    simpl. rewrite Nat.add_0_r, app_nil_r. by destruct pl. }
  destruct (uris pl !! currentIndex pl) as [u|] eqn:Hu.
  2: { apply lookup_ge_None in Hu. lia. }
  destruct (doValidation u s) as [p s1] eqn:Hdo. simpl.
  rewrite IH. simpl.
  assert (p = next_promise s) as ->
    by (rewrite <- (doValidation_promise u s); by rewrite Hdo).
  assert (s1 = (doValidation u s).2) as -> by by rewrite Hdo.
  rewrite doValidation_next_promise.
  destruct (List.length (uris pl) - currentIndex pl) as [|m] eqn:Hm; [lia |].
  replace (List.length (uris pl) - (currentIndex pl + 1)) with m by lia.
  simpl. f_equal.
  - f_equal; [lia |]. by rewrite <- app_assoc.
  - rewrite (drop_S _ u _ Hu). simpl. by rewrite Nat.add_1_r.
Qed.

Lemma pool_proceed_spec pl s :
  let j := (POOL_CONCURRENCY - List.length (tracked pl)) `min`
           (List.length (uris pl) - currentIndex pl) in
  pool_proceed pl s =
  (mkPool (uris pl) (currentIndex pl + j)
     (tracked pl ++ seq (next_promise s) j),
   arm_all (take j (drop (currentIndex pl) (uris pl))) s).
Proof. apply pool_fill_spec. Qed.

Lemma arm_all_now us s : now (arm_all us s) = now s.
Proof.
  revert s. induction us as [|u l IH]; intros s; [done |].
  by rewrite arm_all_cons, IH, doValidation_now.
Qed.
Lemma arm_all_settled us s : settled (arm_all us s) = settled s.
Proof.
  revert s. induction us as [|u l IH]; intros s; [done |].
  by rewrite arm_all_cons, IH, doValidation_settled.
Qed.
Lemma arm_all_pools us s : pools (arm_all us s) = pools s.
Proof.
  revert s. induction us as [|u l IH]; intros s; [done |].
  by rewrite arm_all_cons, IH, doValidation_pools.
Qed.
Lemma arm_all_relations us s : relations (arm_all us s) = relations s.
Proof.
  revert s. induction us as [|u l IH]; intros s; [done |].
  by rewrite arm_all_cons, IH, doValidation_relations.
Qed.
Lemma arm_all_partialSchemas us s :
  partialSchemas (arm_all us s) = partialSchemas s.
Proof.
  revert s. induction us as [|u l IH]; intros s; [done |].
  by rewrite arm_all_cons, IH, doValidation_partialSchemas.
Qed.
Lemma arm_all_next_promise us s :
  next_promise (arm_all us s) = next_promise s + List.length us.
Proof.
  revert s. induction us as [|u l IH]; intros s; [simpl; lia |].
  rewrite arm_all_cons, IH, doValidation_next_promise. simpl. lia.
Qed.
Lemma arm_all_next_handle us s :
  next_handle (arm_all us s) = next_handle s + List.length us.
Proof.
  revert s. induction us as [|u l IH]; intros s; [simpl; lia |].
  rewrite arm_all_cons, IH, doValidation_next_handle. simpl. lia.
Qed.
Lemma arm_all_validations us v s :
  validations v (trace (arm_all us s)) = validations v (trace s).
Proof.
  revert s. induction us as [|u l IH]; intros s; [done |].
  by rewrite arm_all_cons, IH, doValidation_validations.
Qed.
Lemma wf_arm_all us s : wf s → wf (arm_all us s).
Proof.
  revert s. induction us as [|u l IH]; intros s Hwf; [done |].
  rewrite arm_all_cons. by apply IH, wf_doValidation.
Qed.

Lemma doValidation_liveHandles_other u v s :
  wf s → u ≠ v → liveHandles u (doValidation v s).2 = liveHandles u s.
Proof.
  intros Hwf Hne. unfold liveHandles.
  rewrite doValidation_timers, filter_app by done.
  rewrite list_filter_filter. simpl.
  rewrite (filter_cons _ (armed v s)), decide_False by (simpl; congruence).
  rewrite filter_nil, app_nil_r.
  apply filter_agree. intros t _. split; [tauto | intros <-; done].
Qed.

Lemma doValidation_liveHandles_same u s :
  wf s → liveHandles u (doValidation u s).2 = [armed u s].
Proof.
  intros Hwf. unfold liveHandles.
  rewrite doValidation_timers, filter_app by done.
  rewrite list_filter_filter.
  rewrite (filter_none (λ t, t_uri t = u ∧ t_uri t ≠ u)) by (intros t _; tauto).
  by rewrite filter_cons, decide_True.
Qed.

Lemma arm_all_liveHandles_other us u s :
  wf s → u ∉ us → liveHandles u (arm_all us s) = liveHandles u s.
Proof.
  revert s. induction us as [|v l IH]; intros s Hwf Hnot; [done |].
  apply not_elem_of_cons in Hnot as [Hne Hnot].
  rewrite arm_all_cons, IH by (try apply wf_doValidation; done).
  by apply doValidation_liveHandles_other.
Qed.

Lemma doValidation_timers_length u s :
  wf s → List.length (timers (doValidation u s).2) ≤ S (List.length (timers s)).
Proof.
  intros Hwf. rewrite doValidation_timers, length_app by done. simpl.
  pose proof (length_filter (λ t, t_uri t ≠ u) (timers s)). lia.
Qed.

Lemma arm_all_timers_length us s :
  wf s →
  List.length (timers (arm_all us s)) ≤ List.length (timers s) + List.length us.
Proof.
  revert s. induction us as [|v l IH]; intros s Hwf; [simpl; lia |].
  rewrite arm_all_cons. etrans; [apply IH, wf_doValidation, Hwf |].
  pose proof (doValidation_timers_length v s Hwf). cbn [List.length]. lia.
Qed.

(** ** How a state can evolve *)

Lemma evolves_refl s : evolves s s.
Proof. split; auto. Qed.

Lemma evolves_trans s1 s2 s3 : evolves s1 s2 → evolves s2 s3 → evolves s1 s3.
Proof.
  intros [A1 A2 A3 A4] [B1 B2 B3 B4]. split; try lia.
  - intros t Ht. destruct (B3 _ Ht) as [Ht' | Hge]; [| right; lia].
    destruct (A3 _ Ht'); [by left | by right].
  - intros p Hp Hno. rewrite B4, A4; try done; [lia |].
    intros t Ht. destruct (A3 _ Ht) as [Ht' | Hge]; [by apply Hno | lia].
Qed.

Lemma evolves_same_scheduler s s' : scheduler s = scheduler s' → evolves s s'.
Proof.
  unfold scheduler. intros Heq. injection Heq as E1 E2 E3 E4 E5 E6 E7.
  split; rewrite <- ?E1, <- ?E3, <- ?E4, <- ?E6; auto.
Qed.

Lemma evolves_cleanPendingValidation u s :
  evolves s (cleanPendingValidation u s).
Proof.
  split;
    rewrite ?cleanPendingValidation_next_promise, ?cleanPendingValidation_now,
      ?cleanPendingValidation_settled; auto.
  intros t Ht. left. unfold cleanPendingValidation in Ht.
  destruct (pendingValidationRequests s !! u); simpl in Ht; [| done].
  by apply list_elem_of_filter in Ht as [_ Ht].
Qed.

Lemma evolves_doValidation u s : wf s → evolves s (doValidation u s).2.
Proof.
  intros Hwf. split;
    rewrite ?doValidation_next_promise, ?doValidation_now,
      ?doValidation_settled, ?doValidation_timers by done; auto.
  intros t [[_ Ht]%list_elem_of_filter | ->%list_elem_of_singleton]%elem_of_app;
    [by left | right; simpl; lia].
Qed.

Lemma evolves_arm_all us s : wf s → evolves s (arm_all us s).
Proof.
  revert s. induction us as [|v l IH]; intros s Hwf; [apply evolves_refl |].
  rewrite arm_all_cons. eapply evolves_trans; [by apply evolves_doValidation |].
  by apply IH, wf_doValidation.
Qed.

(** ** Code that leaves the scheduler alone *)

Lemma validations_app v es1 es2 :
  validations v (es1 ++ es2) = validations v es1 + validations v es2.
Proof. unfold validations. by rewrite List.filter_app, length_app. Qed.

Lemma quiet_refl s : quiet s s.
Proof. by split. Qed.

Lemma quiet_trans s1 s2 s3 : quiet s1 s2 → quiet s2 s3 → quiet s1 s3.
Proof.
  intros [A1 A2 A3 A4] [B1 B2 B3 B4].
  split; [congruence | congruence | intros v; by rewrite B3 | congruence].
Qed.

Lemma scheduled_app es1 es2 :
  scheduled (es1 ++ es2) = scheduled es1 ++ scheduled es2.
Proof. apply omap_app. Qed.

Lemma quiet_emit es s :
  (∀ v, validations v es = 0) → scheduled es = [] → quiet s (emit es s).
Proof.
  intros Hes Hsch. split; try done.
  - intros v. simpl. rewrite validations_app, Hes. lia.
  - simpl. by rewrite scheduled_app, Hsch, app_nil_r.
Qed.

Ltac quiet_emit := apply quiet_emit; [intros ?; reflexivity | reflexivity].

Lemma quiet_registerPartialSchema u schema property s :
  quiet s (registerPartialSchema u schema property s).
Proof.
  split; try done.
  - intros v. simpl. rewrite validations_app. unfold validations. simpl. lia.
  - simpl. by rewrite scheduled_app, app_nil_r.
Qed.

Lemma quiet_externalImportsCallback c s :
  quiet s (externalImportsCallback c s).
Proof.
  destruct c as [u p | u p schema property [[]|e] [[]|e'] [[]|e'']]; simpl;
    try quiet_emit.
  - split; try done.
    + intros v. simpl. rewrite validations_app. unfold validations. simpl. lia.
    + simpl. by rewrite scheduled_app, app_nil_r.
  - eapply quiet_trans; [apply quiet_registerPartialSchema |].
    eapply quiet_trans; [| quiet_emit].
    eapply quiet_trans; [| quiet_emit]; quiet_emit.
  - eapply quiet_trans; [apply quiet_registerPartialSchema |].
    eapply quiet_trans; [| quiet_emit].
    eapply quiet_trans; [| quiet_emit]; quiet_emit.
  - eapply quiet_trans; [apply quiet_registerPartialSchema |].
    eapply quiet_trans; [| quiet_emit]; quiet_emit.
  - eapply quiet_trans; [apply quiet_registerPartialSchema |].
    eapply quiet_trans; [| quiet_emit]; quiet_emit.
Qed.

Lemma quiet_externalImportsCallbacks cs s :
  quiet s (externalImportsCallbacks cs s).
Proof.
  revert s. induction cs as [|c cs IH]; intros s; [apply quiet_refl |].
  simpl. eapply quiet_trans; [apply quiet_externalImportsCallback | apply IH].
Qed.

Lemma quiet_awaitYamlDocument W u s : quiet s (awaitYamlDocument W u s).1.
Proof.
  unfold awaitYamlDocument. destruct (getYamlDocument W (now s) u) as [cs o].
  simpl. eapply quiet_trans; [| apply quiet_externalImportsCallbacks].
  quiet_emit.
Qed.

Lemma quiet_validate W u s : quiet s (validate W u s).1.
Proof.
  unfold validate.
  destruct (getTextDocument W u s) as [[d|]|e]; simpl; try apply quiet_refl.
  destruct (String.length (getText d) =? 0); simpl; [quiet_emit |].
  pose proof (quiet_awaitYamlDocument W (uri d) s) as Hq.
  destruct (awaitYamlDocument W (uri d) s) as [s1 [y|e]]; simpl in *.
  - destruct (validation_doValidation W (now s) d y) as [ds|e]; simpl.
    + eapply quiet_trans; [exact Hq |].
      eapply quiet_trans; [| quiet_emit]; quiet_emit.
    + destruct (isCfnLintFailedToExecuteError e); simpl;
        (eapply quiet_trans; [exact Hq |]);
        [eapply quiet_trans; [| quiet_emit] |]; quiet_emit.
  - destruct (isCfnLintFailedToExecuteError e); simpl;
      (eapply quiet_trans; [exact Hq |]); [quiet_emit | apply quiet_refl].
Qed.

Lemma wf_quiet s s' : quiet s s' → wf s → wf s'.
Proof. intros [H _ _ _]. by apply wf_same_scheduler. Qed.

Lemma evolves_quiet s s' : quiet s s' → evolves s s'.
Proof. intros [H _ _ _]. by apply evolves_same_scheduler. Qed.

(** ** The timer callback *)

Section timer_callback.
Variable W : World.
Variables (t : timer) (s : state).
Let entered : state := entered t s.

Lemma timer_callback_unfold :
  timer_callback W t s =
  let o := (validate W (t_uri t) entered).2 in
  emit (promiseRejectionHandler o).1
    (set_settled
       (<[t_promise t := o]> (settled (validate W (t_uri t) entered).1))
       (validate W (t_uri t) entered).1).
Proof.
  unfold timer_callback, entered. cbv zeta.
  by destruct (validate W (t_uri t) _) as [s2 o].
Qed.

Let Hq : quiet entered (validate W (t_uri t) entered).1 :=
  quiet_validate W (t_uri t) entered.

Lemma timer_callback_timers :
  timers (timer_callback W t s) =
  filter (λ t', t_handle t' ≠ t_handle t) (timers s).
Proof.
  rewrite timer_callback_unfold. simpl.
  pose proof (q_scheduler _ _ Hq) as E. unfold scheduler in E.
  by injection E.
Qed.

Lemma timer_callback_pending :
  pendingValidationRequests (timer_callback W t s) =
  delete (t_uri t) (pendingValidationRequests s).
Proof.
  rewrite timer_callback_unfold. simpl.
  pose proof (q_scheduler _ _ Hq) as E. unfold scheduler in E.
  by injection E.
Qed.

Lemma timer_callback_now :
  now (timer_callback W t s) = now s `max` t_due t.
Proof.
  rewrite timer_callback_unfold. simpl.
  pose proof (q_scheduler _ _ Hq) as E. unfold scheduler in E.
  by injection E.
Qed.

Lemma timer_callback_next_handle :
  next_handle (timer_callback W t s) = next_handle s.
Proof.
  rewrite timer_callback_unfold. simpl.
  pose proof (q_scheduler _ _ Hq) as E. unfold scheduler in E.
  by injection E.
Qed.

Lemma timer_callback_next_promise :
  next_promise (timer_callback W t s) = next_promise s.
Proof.
  rewrite timer_callback_unfold. simpl.
  pose proof (q_scheduler _ _ Hq) as E. unfold scheduler in E.
  by injection E.
Qed.

Lemma timer_callback_pools :
  pools (timer_callback W t s) = pools s.
Proof.
  rewrite timer_callback_unfold. simpl.
  pose proof (q_scheduler _ _ Hq) as E. unfold scheduler in E.
  by injection E.
Qed.


Lemma timer_callback_settled :
  settled (timer_callback W t s) =
  <[t_promise t := (validate W (t_uri t) entered).2]> (settled s).
Proof.
  rewrite timer_callback_unfold. simpl.
  pose proof (q_scheduler _ _ Hq) as E. unfold scheduler in E.
  injection E as _ _ _ _ _ -> _. done.
Qed.

Lemma timer_callback_validations v :
  validations v (trace (timer_callback W t s)) =
  validations v (trace s) + (if decide (t_uri t = v) then 1 else 0).
Proof.
  rewrite timer_callback_unfold. simpl.
  rewrite validations_app, (q_validations _ _ Hq). simpl.
  rewrite validations_app.
  assert (validations v [CallValidate (t_uri t)] =
          if decide (t_uri t = v) then 1 else 0) as ->.
  { unfold validations. simpl. unfold bool_decide.
    by destruct (decide_rel eq (t_uri t) v), (decide (t_uri t = v)). }
  destruct (validate W (t_uri t) entered).2; unfold validations; simpl; lia.
Qed.
End timer_callback.

Lemma timer_callback_settled_other W t s p :
  p ≠ t_promise t → settled (timer_callback W t s) !! p = settled s !! p.
Proof.
  intros Hne. rewrite timer_callback_settled. by rewrite lookup_insert_ne.
Qed.

Lemma timer_callback_settled_own W t s :
  is_Some (settled (timer_callback W t s) !! t_promise t).
Proof. rewrite timer_callback_settled, lookup_insert_eq. eauto. Qed.

Lemma timer_callback_liveHandles W t s u :
  liveHandles u (timer_callback W t s) =
  filter (λ t', t_handle t' ≠ t_handle t) (liveHandles u s).
Proof.
  unfold liveHandles. rewrite timer_callback_timers, !list_filter_filter.
  apply list_filter_iff. tauto.
Qed.

Lemma wf_timer_callback W t s : wf s → t ∈ timers s → wf (timer_callback W t s).
Proof.
  intros Hwf Hin. pose proof Hwf as [H1 H2 H3 H4 H5 H6 H7 H8 H9 H10].
  split;
    rewrite ?timer_callback_timers, ?timer_callback_pending,
      ?timer_callback_next_handle, ?timer_callback_next_promise,
      ?timer_callback_pools; try done.
  - intros t' [_ Ht]%list_elem_of_filter. eauto.
  - intros t' [_ Ht]%list_elem_of_filter. eauto.
  - by apply NoDup_fmap_filter.
  - by apply NoDup_fmap_filter.
  - intros u h [Hne Hl]%lookup_delete_Some.
    destruct (H5 _ _ Hl) as (t' & Ht' & Hh & Hu).
    exists t'. split_and!; try done.
    apply list_elem_of_filter. split; [| done].
    intros Heq. assert (t' = t) as -> by by eapply wf_handle_inj. done.
  - intros t' [Hne Ht']%list_elem_of_filter.
    rewrite lookup_delete_ne; [eauto |].
    intros Heq. apply Hne. f_equal. by eapply wf_uri_inj.
  - intros t' [Hne Ht']%list_elem_of_filter.
    rewrite timer_callback_settled_other; [eauto |].
    intros Heq. apply Hne. f_equal.
    apply list_elem_of_lookup in Hin as [i Hi], Ht' as [j Hj].
    assert (j = i) as ->; [| congruence].
    apply (NoDup_lookup _ j i (t_promise t) H4);
      rewrite list_lookup_fmap; [rewrite Hj | rewrite Hi]; simpl; congruence.
  - intros p o. rewrite timer_callback_settled.
    destruct (decide (p = t_promise t)) as [-> | Hne].
    + intros _. eauto.
    + rewrite lookup_insert_ne by done. eauto.
Qed.

Lemma evolves_timer_callback W t s :
  t ∈ timers s → evolves s (timer_callback W t s).
Proof.
  intros Hin. split;
    rewrite ?timer_callback_next_promise, ?timer_callback_now,
      ?timer_callback_timers; try lia.
  - intros t' [_ Ht']%list_elem_of_filter. by left.
  - intros p Hp Hno. apply timer_callback_settled_other.
    intros ->. by eapply Hno.
Qed.

(** ** The reactions of the pools *)

Lemma backlog_eq s :
  backlog s = List.length (timers s) + sum_list (remaining <$> pools s).
Proof. reflexivity. Qed.

Lemma pool_after_refl lo hi pl : pool_after lo hi pl pl.
Proof. split; auto. Qed.

Lemma pool_after_widen lo hi lo' hi' pl pl' :
  lo' ≤ lo → hi ≤ hi' → pool_after lo hi pl pl' → pool_after lo' hi' pl pl'.
Proof.
  intros Hlo Hhi [A1 A2 A3 A4]. split; try done.
  intros q Hq. destruct (A4 _ Hq); [by left | right; lia].
Qed.

Lemma pool_after_queued lo hi pl pl' u :
  pool_after lo hi pl pl' →
  u ∈ drop (currentIndex pl') (uris pl') → u ∈ drop (currentIndex pl) (uris pl).
Proof.
  intros [A1 A2 _ _]. rewrite A1.
  replace (currentIndex pl') with
    (currentIndex pl + (currentIndex pl' - currentIndex pl)) by lia.
  rewrite <- drop_drop. intros Hin.
  eapply elem_of_sublist; [exact Hin | apply sublist_drop].
Qed.

(** A pool that proceeds after freeing the slot of [p]. *)
Lemma pool_proceed_after p pl s :
  let freed := mkPool (uris pl) (currentIndex pl)
                 (filter (λ q, q ≠ p) (tracked pl)) in
  let us := take ((POOL_CONCURRENCY - List.length (tracked freed)) `min`
                  remaining pl)
              (drop (currentIndex pl) (uris pl)) in
  (pool_proceed freed s).2 = arm_all us s ∧
  (∀ u, u ∈ us → u ∈ drop (currentIndex pl) (uris pl)) ∧
  remaining (pool_proceed freed s).1 + List.length us = remaining pl ∧
  pool_after (next_promise s) (next_promise s + List.length us)
    pl (pool_proceed freed s).1.
Proof.
  intros freed us. rewrite pool_proceed_spec. simpl.
  fold (remaining pl). fold us.
  set (j := (POOL_CONCURRENCY - List.length (filter (λ q, q ≠ p) (tracked pl)))
            `min` remaining pl) in *.
  assert (List.length us = j) as Hlen.
  { unfold us. rewrite length_take, length_drop. fold (remaining pl).
    unfold j. simpl. lia. }
  assert (j ≤ remaining pl) as Hj by (unfold j; lia).
  assert (j ≤ POOL_CONCURRENCY -
              List.length (filter (λ q, q ≠ p) (tracked pl))) as Hj'
    by (unfold j; lia).
  split_and!.
  - reflexivity.
  - intros u Hu. eapply elem_of_sublist; [exact Hu | apply sublist_take].
  - unfold remaining in *. simpl. lia.
  - split; simpl; try done; try lia.
    + intros Hsz. rewrite length_app, length_seq.
      pose proof (length_filter (λ q, q ≠ p) (tracked pl)). lia.
    + intros q [[_ Hq]%list_elem_of_filter | Hq%elem_of_seq]%elem_of_app;
        [by left | right; lia].
Qed.

Lemma pools_onFulfilled_spec p pls s :
  ∃ us,
    (pools_onFulfilled p pls s).2 = arm_all us s ∧
    (∀ u, u ∈ us →
       Exists (λ pl, u ∈ drop (currentIndex pl) (uris pl)) pls) ∧
    sum_list (remaining <$> (pools_onFulfilled p pls s).1) + List.length us =
      sum_list (remaining <$> pls) ∧
    Forall2 (pool_after (next_promise s) (next_promise s + List.length us))
      pls (pools_onFulfilled p pls s).1.
Proof.
  revert s. induction pls as [|pl rest IH]; intros s.
  { exists []. simpl. split_and!; try done. intros u Hu. set_solver. }
  simpl. destruct (decide (p ∈ tracked pl)) as [Hin | Hout].
  - destruct (pool_proceed_after p pl s) as (E1 & Q1 & R1 & A1).
    set (us1 := take _ _) in *.
    destruct (pool_proceed _ s) as [pl1 s1]. simpl in *. subst s1.
    destruct (IH (arm_all us1 s)) as (us2 & E2 & Q2 & R2 & A2).
    destruct (pools_onFulfilled p rest (arm_all us1 s)) as [rest1 s2].
    simpl in *. subst s2. exists (us1 ++ us2).
    rewrite arm_all_app, length_app. split_and!; try done.
    + intros u [Hu | Hu]%elem_of_app; [left; auto | right; auto].
    + unfold fmap in *. lia.
    + constructor.
      * eapply pool_after_widen; [| | exact A1]; lia.
      * eapply Forall2_impl; [exact A2 |]. intros x y Hxy.
        rewrite arm_all_next_promise in Hxy.
        eapply pool_after_widen; [| | exact Hxy]; lia.
  - destruct (IH s) as (us2 & E2 & Q2 & R2 & A2).
    destruct (pools_onFulfilled p rest s) as [rest1 s2].
    simpl in *. subst s2. exists us2. split_and!; try done.
    + intros u Hu. right. auto.
    + unfold fmap in *. lia.
    + constructor; [apply pool_after_refl | done].
Qed.

(** ** A timer fires *)

(** Firing a timer is its callback followed by [doValidation] for some URIs
    the pools still had queued. *)
Lemma fire_spec W t s :
  ∃ us pls,
    fire W t s = set_pools pls (arm_all us (timer_callback W t s)) ∧
    (∀ u, u ∈ us → queued u s) ∧
    sum_list (remaining <$> pls) + List.length us =
      sum_list (remaining <$> pools s) ∧
    Forall2 (pool_after (next_promise s) (next_promise s + List.length us))
      (pools s) pls.
Proof.
  unfold fire.
  destruct (pools_onFulfilled_spec (t_promise t)
              (pools (timer_callback W t s)) (timer_callback W t s))
    as (us & E & Q & R & A).
  destruct (pools_onFulfilled _ _ _) as [pls s6]. simpl in *. subst s6.
  rewrite timer_callback_pools in *. rewrite timer_callback_next_promise in A.
  by exists us, pls.
Qed.

Lemma wf_set_pools pls s :
  wf s →
  (∀ pl p, pl ∈ pls → p ∈ tracked pl → p < next_promise s) →
  (∀ pl, pl ∈ pls → List.length (tracked pl) ≤ POOL_CONCURRENCY) →
  wf (set_pools pls s).
Proof. intros [H1 H2 H3 H4 H5 H6 H7 H8 H9 H10] Ha Hb. by split. Qed.

Lemma wf_fire W t s : wf s → t ∈ timers s → wf (fire W t s).
Proof.
  intros Hwf Hin. destruct (fire_spec W t s) as (us & pls & -> & Q & R & A).
  assert (wf (arm_all us (timer_callback W t s))) as Hwf'
    by by apply wf_arm_all, wf_timer_callback.
  apply wf_set_pools; [done | |].
  - intros pl' p Hpl' Hp.
    rewrite arm_all_next_promise, timer_callback_next_promise.
    apply list_elem_of_lookup in Hpl' as [i Hi].
    destruct (Forall2_lookup_r _ _ _ _ _ A Hi) as (pl & Hpl & Hafter).
    destruct (pa_tracked _ _ _ _ Hafter _ Hp) as [Hold | Hnew]; [| lia].
    apply list_elem_of_lookup_2 in Hpl.
    pose proof (wf_tracked_bound _ Hwf _ _ Hpl Hold). lia.
  - intros pl' Hpl'.
    apply list_elem_of_lookup in Hpl' as [i Hi].
    destruct (Forall2_lookup_r _ _ _ _ _ A Hi) as (pl & Hpl & Hafter).
    apply (pa_size _ _ _ _ Hafter).
    apply list_elem_of_lookup_2 in Hpl. by apply (wf_pool_size _ Hwf).
Qed.

Lemma evolves_set_pools pls s : evolves s (set_pools pls s).
Proof. split; auto. Qed.

Lemma evolves_fire W t s : wf s → t ∈ timers s → evolves s (fire W t s).
Proof.
  intros Hwf Hin. destruct (fire_spec W t s) as (us & pls & -> & _).
  eapply evolves_trans; [by apply (evolves_timer_callback W) |].
  eapply evolves_trans; [| apply evolves_set_pools].
  by apply evolves_arm_all, wf_timer_callback.
Qed.

Lemma fire_validations W t s v :
  validations v (trace (fire W t s)) =
  validations v (trace s) + (if decide (t_uri t = v) then 1 else 0).
Proof.
  destruct (fire_spec W t s) as (us & pls & -> & _). simpl.
  by rewrite arm_all_validations, timer_callback_validations.
Qed.

Lemma fire_now W t s : now (fire W t s) = now s `max` t_due t.
Proof.
  destruct (fire_spec W t s) as (us & pls & -> & _). simpl.
  by rewrite arm_all_now, timer_callback_now.
Qed.


Lemma fire_settled_own W t s : is_Some (settled (fire W t s) !! t_promise t).
Proof.
  destruct (fire_spec W t s) as (us & pls & -> & _). simpl.
  rewrite arm_all_settled. apply timer_callback_settled_own.
Qed.

Lemma fire_liveHandles W t s u :
  wf s → t ∈ timers s → ¬ queued u s →
  liveHandles u (fire W t s) =
  filter (λ t', t_handle t' ≠ t_handle t) (liveHandles u s).
Proof.
  intros Hwf Hin Hnq.
  destruct (fire_spec W t s) as (us & pls & -> & Q & _).
  change (liveHandles u (set_pools pls ?x)) with (liveHandles u x).
  rewrite arm_all_liveHandles_other.
  - apply timer_callback_liveHandles.
  - by apply wf_timer_callback.
  - intros Hu. by apply Hnq, Q.
Qed.

Lemma fire_queued W t s u : queued u (fire W t s) → queued u s.
Proof.
  destruct (fire_spec W t s) as (us & pls & -> & _ & _ & A).
  unfold queued. simpl. rewrite !Exists_exists.
  intros (pl' & Hpl' & Hu).
  apply list_elem_of_lookup in Hpl' as [i Hi].
  destruct (Forall2_lookup_r _ _ _ _ _ A Hi) as (pl & Hpl & Hafter).
  exists pl. split; [by eapply list_elem_of_lookup_2 |].
  by eapply pool_after_queued.
Qed.

Lemma NoDup_filter_remove {A} `{EqDecision A} (l : list A) (x : A) :
  NoDup l → x ∈ l → S (List.length (filter (λ y, y ≠ x) l)) = List.length l.
Proof.
  induction l as [|a l IH]; intros Hnd Hin; [by apply not_elem_of_nil in Hin |].
  apply NoDup_cons in Hnd as [Hna Hnd].
  rewrite filter_cons. destruct (decide (a = x)) as [-> | Hne].
  - rewrite decide_False by auto. simpl. f_equal. f_equal.
    apply filter_all. intros y Hy ->. done.
  - rewrite decide_True by done. simpl. f_equal. apply IH; [done |].
    apply elem_of_cons in Hin as [-> | Hin]; done.
Qed.

Lemma timer_callback_timers_length W t s :
  wf s → t ∈ timers s →
  S (List.length (timers (timer_callback W t s))) = List.length (timers s).
Proof.
  intros Hwf Hin. rewrite timer_callback_timers.
  rewrite <- (NoDup_filter_remove (timers s) t); [| by apply wf_timers_NoDup | done].
  f_equal. f_equal. apply filter_agree. intros t' Ht'. split.
  - intros Hne ->. done.
  - intros Hne Heq. apply Hne. by eapply wf_handle_inj.
Qed.

Lemma fire_backlog W t s :
  wf s → t ∈ timers s → backlog (fire W t s) < backlog s.
Proof.
  intros Hwf Hin. destruct (fire_spec W t s) as (us & pls & -> & _ & R & _).
  rewrite !backlog_eq. simpl.
  pose proof (arm_all_timers_length us _ (wf_timer_callback W t s Hwf Hin)).
  pose proof (timer_callback_timers_length W t s Hwf Hin).
  unfold fmap in *. lia.
Qed.

(** ** Time passes *)

Lemma earliest_elem l t : earliest l = Some t → t ∈ l.
Proof.
  revert t. induction l as [|a l IH]; intros t; simpl; [done |].
  destruct (earliest l) as [t'|].
  - destruct (t_due t' <? t_due a); intros [= <-];
      [apply list_elem_of_further; by apply IH | apply list_elem_of_here].
  - intros [= <-]. apply list_elem_of_here.
Qed.

Lemma earliest_None l : earliest l = None → l = [].
Proof.
  destruct l as [|a l]; simpl; [done |].
  destruct (earliest l) as [t'|]; [| done].
  by destruct (t_due t' <? t_due a).
Qed.

Lemma earliest_min l t t' :
  earliest l = Some t → t' ∈ l → t_due t ≤ t_due t'.
Proof.
  revert t. induction l as [|a l IH]; intros t; simpl; [done |].
  intros He Hin. destruct (earliest l) as [m|] eqn:Em.
  - specialize (IH m eq_refl).
    destruct (t_due m <? t_due a) eqn:Hlt;
      [apply Nat.ltb_lt in Hlt | apply Nat.ltb_ge in Hlt];
      injection He as <-;
      apply elem_of_cons in Hin as [-> | Hin]; try lia;
      specialize (IH Hin); lia.
  - apply earliest_None in Em as ->. injection He as <-.
    apply elem_of_cons in Hin as [-> | Hin]; [lia | by apply not_elem_of_nil in Hin].
Qed.

(** Induction over the timers that fire while time passes. *)
Lemma run_timers_ind W deadline (P : state → Prop) :
  (∀ s t, P s → t ∈ timers s → t_due t ≤ deadline →
          (∀ t', t' ∈ timers s → t_due t ≤ t_due t') → P (fire W t s)) →
  ∀ fuel s, P s → P (run_timers W fuel deadline s).
Proof.
  intros Hstep fuel. induction fuel as [|k IH]; intros s Hs; simpl; [done |].
  destruct (earliest (timers s)) as [t|] eqn:E; [| done].
  destruct (t_due t <=? deadline) eqn:Hd; [| done].
  apply IH, Hstep; try done.
  - by apply earliest_elem.
  - by apply Nat.leb_le.
  - intros t' Ht'. by eapply earliest_min.
Qed.

Lemma wf_run_timers W fuel deadline s :
  wf s → wf (run_timers W fuel deadline s).
Proof.
  apply (run_timers_ind W deadline wf). intros s' t Hwf Hin _ _.
  by apply wf_fire.
Qed.

Lemma evolves_run_timers W fuel deadline s :
  wf s → evolves s (run_timers W fuel deadline s).
Proof.
  intros Hwf.
  apply (run_timers_ind W deadline (λ s', wf s' ∧ evolves s s'));
    [| split; [done | apply evolves_refl]].
  intros s' t [Hwf' Hev] Hin _ _. split; [by apply wf_fire |].
  eapply evolves_trans; [exact Hev | by apply evolves_fire].
Qed.

(** The fuel [elapse] supplies is enough: no timer due by the deadline is
    left. *)
Lemma run_timers_complete W fuel deadline s :
  wf s → backlog s ≤ fuel →
  ∀ t, t ∈ timers (run_timers W fuel deadline s) → deadline < t_due t.
Proof.
  revert s. induction fuel as [|k IH]; intros s Hwf Hfuel t; simpl.
  { rewrite backlog_eq in Hfuel.
    destruct (timers s); [intros []%not_elem_of_nil | simpl in Hfuel; lia]. }
  destruct (earliest (timers s)) as [t0|] eqn:E.
  - destruct (t_due t0 <=? deadline) eqn:Hd.
    + apply IH; [by apply wf_fire, earliest_elem |].
      pose proof (fire_backlog W t0 s Hwf (earliest_elem _ _ E)). lia.
    + intros Ht. apply Nat.leb_gt in Hd.
      pose proof (earliest_min _ _ _ E Ht). lia.
  - apply earliest_None in E as ->. intros []%not_elem_of_nil.
Qed.

Lemma wf_set_now v s : wf s → wf (set_now v s).
Proof. intros [H1 H2 H3 H4 H5 H6 H7 H8 H9 H10]. by split. Qed.

Lemma wf_elapse W dt s : wf s → wf (elapse W dt s).
Proof. intros Hwf. unfold elapse. by apply wf_set_now, wf_run_timers. Qed.

Lemma evolves_elapse W dt s : wf s → evolves s (elapse W dt s).
Proof.
  intros Hwf. unfold elapse.
  eapply evolves_trans; [by apply (evolves_run_timers W) |].
  split; simpl; auto; lia.
Qed.

Lemma elapse_timers W dt s :
  timers (elapse W dt s) = timers (run_timers W (backlog s) (now s + dt) s).
Proof. reflexivity. Qed.

Lemma elapse_complete W dt s t :
  wf s → t ∈ timers (elapse W dt s) → now s + dt < t_due t.
Proof.
  intros Hwf. rewrite elapse_timers. by apply run_timers_complete.
Qed.

(** ** Every event keeps the state well formed *)

Lemma scheduler_fold_clearPartialSchema children s :
  scheduler (fold_left (λ acc c, clearPartialSchema c acc) children s) =
  scheduler s.
Proof.
  revert s. induction children as [|c l IH]; intros s; [done |].
  simpl. by rewrite IH.
Qed.

Lemma clearDocument_scheduler u s :
  scheduler (clearDocument u s) = scheduler (cleanPendingValidation u s).
Proof.
  unfold clearDocument. case_decide; [| done].
  by rewrite scheduler_fold_clearPartialSchema.
Qed.

Lemma wf_clearDocument u s : wf s → wf (clearDocument u s).
Proof.
  intros Hwf. eapply wf_same_scheduler; [symmetry; apply clearDocument_scheduler |].
  by apply wf_cleanPendingValidation.
Qed.

Lemma evolves_clearDocument u s : evolves s (clearDocument u s).
Proof.
  eapply evolves_trans; [apply (evolves_cleanPendingValidation u) |].
  apply evolves_same_scheduler. symmetry. apply clearDocument_scheduler.
Qed.

Lemma onFileChanged_unfold u s :
  onFileChanged u s = (doValidation u (invalidated u s)).2.
Proof. reflexivity. Qed.

Lemma invalidated_scheduler u s : scheduler (invalidated u s) = scheduler s.
Proof.
  unfold invalidated. case_decide; [| done].
  unfold clearRelations, scheduler. simpl.
  apply (scheduler_fold_clearPartialSchema (getChildrenUris u s) s).
Qed.

Lemma wf_onFileChanged u s : wf s → wf (onFileChanged u s).
Proof.
  intros Hwf. rewrite onFileChanged_unfold. apply wf_doValidation.
  eapply wf_same_scheduler; [symmetry; apply invalidated_scheduler | done].
Qed.

Lemma evolves_onFileChanged u s : wf s → evolves s (onFileChanged u s).
Proof.
  intros Hwf. rewrite onFileChanged_unfold.
  eapply evolves_trans;
    [apply evolves_same_scheduler; symmetry; apply invalidated_scheduler |].
  apply evolves_doValidation.
  eapply wf_same_scheduler; [symmetry; apply invalidated_scheduler | done].
Qed.

Lemma triggerValidationForWorkspaceFiles_unfold files s :
  let j := POOL_CONCURRENCY `min` List.length files in
  triggerValidationForWorkspaceFiles files s =
  set_pools (pools s ++ [mkPool files j (seq (next_promise s) j)])
    (arm_all (take j files) s).
Proof.
  unfold triggerValidationForWorkspaceFiles.
  rewrite pool_proceed_spec. simpl.
  by rewrite Nat.sub_0_r, arm_all_pools.
Qed.

Lemma wf_triggerValidationForWorkspaceFiles files s :
  wf s → wf (triggerValidationForWorkspaceFiles files s).
Proof.
  intros Hwf. rewrite triggerValidationForWorkspaceFiles_unfold.
  pose proof (wf_arm_all (take (POOL_CONCURRENCY `min` List.length files) files)
                s Hwf) as Hwf'.
  assert (List.length
            (take (POOL_CONCURRENCY `min` List.length files) files) =
          POOL_CONCURRENCY `min` List.length files) as Hlen
    by (rewrite length_take; lia).
  apply wf_set_pools; [done | |].
  - intros pl p [Hpl | ->%list_elem_of_singleton]%elem_of_app Hp;
      rewrite arm_all_next_promise.
    + pose proof (wf_tracked_bound _ Hwf _ _ Hpl Hp). lia.
    + cbn [tracked] in Hp. apply elem_of_seq in Hp. lia.
  - intros pl [Hpl | ->%list_elem_of_singleton]%elem_of_app.
    + by apply (wf_pool_size _ Hwf).
    + cbn [tracked]. rewrite length_seq. lia.
Qed.

Lemma evolves_triggerValidationForWorkspaceFiles files s :
  wf s → evolves s (triggerValidationForWorkspaceFiles files s).
Proof.
  intros Hwf. rewrite triggerValidationForWorkspaceFiles_unfold.
  eapply evolves_trans; [by apply evolves_arm_all | apply evolves_set_pools].
Qed.

Lemma quiet_findReferences W u s : quiet s (findReferences W u s).1.
Proof.
  unfold findReferences.
  destruct (getTextDocument W u s) as [[d|]|e]; simpl; try apply quiet_refl;
    [| quiet_emit].
  pose proof (quiet_awaitYamlDocument W (uri d) s) as Hq.
  destruct (awaitYamlDocument W (uri d) s) as [s1 [y|e]]; simpl in *.
  - destruct (getReferences W (now s) d y); simpl; [done |].
    eapply quiet_trans; [exact Hq | quiet_emit].
  - eapply quiet_trans; [exact Hq | quiet_emit].
Qed.

Lemma quiet_findDefinitions W u s : quiet s (findDefinitions W u s).1.
Proof.
  unfold findDefinitions.
  destruct (getTextDocument W u s) as [d|e]; simpl; [| quiet_emit].
  pose proof (quiet_awaitYamlDocument W u s) as Hq.
  destruct (awaitYamlDocument W u s) as [s1 [y|e]]; simpl in *.
  - destruct (getDefinition W (now s) d y); simpl; [done |].
    eapply quiet_trans; [exact Hq | quiet_emit].
  - eapply quiet_trans; [exact Hq | quiet_emit].
Qed.

Lemma quiet_findLinks W u s : quiet s (findLinks W u s).1.
Proof.
  unfold findLinks.
  destruct (getTextDocument W u s) as [[d|]|e]; simpl; try quiet_emit.
  pose proof (quiet_awaitYamlDocument W (uri d) s) as Hq.
  destruct (awaitYamlDocument W (uri d) s) as [s1 [y|e]]; simpl in *.
  - destruct (findDocumentLinks W (now s) d y); simpl; [done |].
    eapply quiet_trans; [exact Hq | quiet_emit].
  - eapply quiet_trans; [exact Hq | quiet_emit].
Qed.

Lemma wf_step W e s : wf s → wf (step W e s).
Proof.
  intros Hwf. destruct e; simpl;
    try (by apply wf_doValidation);
    try (by apply wf_clearDocument);
    try (by apply wf_triggerValidationForWorkspaceFiles);
    try done.
  - eapply wf_same_scheduler; [| exact Hwf]. done.
  - eapply wf_quiet; [apply quiet_findReferences | done].
  - eapply wf_quiet; [apply quiet_findDefinitions | done].
  - eapply wf_quiet; [apply quiet_findLinks | done].
  - by apply wf_onFileChanged.
  - eapply wf_quiet; [apply quiet_externalImportsCallback | done].
  - eapply wf_same_scheduler; [| exact Hwf]. done.
  - by apply wf_elapse.
Qed.

Lemma evolves_step W e s : wf s → evolves s (step W e s).
Proof.
  intros Hwf. destruct e; simpl;
    try (by apply evolves_doValidation);
    try (by apply evolves_clearDocument);
    try (by apply evolves_triggerValidationForWorkspaceFiles);
    try apply evolves_refl.
  - by apply evolves_same_scheduler.
  - apply evolves_quiet, quiet_findReferences.
  - apply evolves_quiet, quiet_findDefinitions.
  - apply evolves_quiet, quiet_findLinks.
  - by apply evolves_onFileChanged.
  - apply evolves_quiet, quiet_externalImportsCallback.
  - by apply evolves_same_scheduler.
  - by apply evolves_elapse.
Qed.

Lemma run_snoc W history e s :
  run W (history ++ [e]) s = step W e (run W history s).
Proof. unfold run. by rewrite fold_left_app. Qed.

Lemma run_app W h1 h2 s : run W (h1 ++ h2) s = run W h2 (run W h1 s).
Proof. unfold run. by rewrite fold_left_app. Qed.

Lemma wf_run W history s : wf s → wf (run W history s).
Proof.
  revert s. induction history as [|e h IH]; intros s Hwf; [done |].
  simpl. by apply IH, wf_step.
Qed.

Lemma evolves_run W history s : wf s → evolves s (run W history s).
Proof.
  revert s. induction history as [|e h IH]; intros s Hwf; [apply evolves_refl |].
  simpl. eapply evolves_trans; [by apply (evolves_step W e) |].
  by apply IH, wf_step.
Qed.

Lemma wf_reachable W history : wf (run W history initial).
Proof. apply wf_run, wf_initial. Qed.

(** ** A URI nobody else schedules *)

Lemma settled_stays s s' p :
  wf s → is_Some (settled s !! p) → evolves s s' →
  settled s' !! p = settled s !! p.
Proof.
  intros Hwf [o Ho] Hev. apply (ev_settled _ _ Hev).
  - by eapply wf_settled_bound.
  - intros t Ht Heq. pose proof (wf_unsettled _ Hwf _ Ht) as Hn.
    rewrite Heq in Hn. congruence.
Qed.

Lemma liveHandles_elem u s t : t ∈ liveHandles u s ↔ t_uri t = u ∧ t ∈ timers s.
Proof. unfold liveHandles. by rewrite list_elem_of_filter. Qed.

(** While the timers of [u] are not due and no pool is about to schedule
    [u], the passing of time leaves [u] alone. *)
Lemma run_timers_keeps W fuel deadline s u :
  wf s → ¬ queued u s →
  (∀ t, t ∈ liveHandles u s → deadline < t_due t) →
  let s' := run_timers W fuel deadline s in
  wf s' ∧ ¬ queued u s' ∧
  liveHandles u s' = liveHandles u s ∧
  validations u (trace s') = validations u (trace s).
Proof.
  intros Hwf Hnq Hdue.
  apply (run_timers_ind W deadline
           (λ s', wf s' ∧ ¬ queued u s' ∧
                  liveHandles u s' = liveHandles u s ∧
                  validations u (trace s') = validations u (trace s)));
    [| done].
  intros s' t (Hwf' & Hnq' & Hl & Hv) Hin Hd _.
  assert (t_uri t ≠ u) as Hne.
  { intros Heq. assert (t ∈ liveHandles u s) as Ht
      by (rewrite <- Hl; by apply liveHandles_elem).
    apply Hdue in Ht. lia. }
  split_and!.
  - by apply wf_fire.
  - intros Hq. by apply Hnq', (fire_queued W t).
  - rewrite fire_liveHandles, <- Hl by done.
    apply filter_all. intros t' [Hu Ht']%liveHandles_elem Heq.
    apply Hne. rewrite <- Hu. f_equal. symmetry. by eapply wf_handle_inj.
  - rewrite fire_validations, decide_False by done. lia.
Qed.

(** A due timer of such a URI fires, exactly once. *)
Lemma run_timers_fires W fuel deadline s u t :
  wf s → ¬ queued u s → liveHandles u s = [t] → t_due t ≤ deadline →
  backlog s ≤ fuel →
  let s' := run_timers W fuel deadline s in
  wf s' ∧ ¬ queued u s' ∧
  liveHandles u s' = [] ∧
  validations u (trace s') = validations u (trace s) + 1 ∧
  is_Some (settled s' !! t_promise t).
Proof.
  revert s. induction fuel as [|k IH]; intros s Hwf Hnq Hl Hd Hfuel.
  { rewrite backlog_eq in Hfuel.
    assert (t ∈ timers s) as Hin
      by (apply (liveHandles_elem u); rewrite Hl; apply list_elem_of_here).
    destruct (timers s); [by apply not_elem_of_nil in Hin | simpl in Hfuel; lia]. }
  assert (t ∈ liveHandles u s) as Ht by (rewrite Hl; apply list_elem_of_here).
  apply liveHandles_elem in Ht as [Hu Hin].
  simpl. destruct (earliest (timers s)) as [t0|] eqn:E.
  2: { apply earliest_None in E. rewrite E in Hin.
       by apply not_elem_of_nil in Hin. }
  pose proof (earliest_elem _ _ E) as Hin0.
  pose proof (earliest_min _ _ _ E Hin) as Hmin.
  rewrite (proj2 (Nat.leb_le _ _)) by lia.
  pose proof (wf_fire W t0 s Hwf Hin0) as Hwf'.
  assert (¬ queued u (fire W t0 s)) as Hnq'
    by (intros Hq; by apply Hnq, (fire_queued W t0)).
  pose proof (fire_backlog W t0 s Hwf Hin0) as Hb.
  destruct (decide (t0 = t)) as [-> | Hne].
  - (* the timer of [u] is the one that runs *)
    assert (liveHandles u (fire W t s) = []) as Hl'.
    { rewrite fire_liveHandles, Hl by done.
      by rewrite filter_cons, decide_False by auto. }
    destruct (run_timers_keeps W k deadline (fire W t s) u Hwf' Hnq')
      as (Hwf2 & Hnq2 & Hl2 & Hv2).
    { intros t'. rewrite Hl'. by intros ?%not_elem_of_nil. }
    split_and!; try done; try congruence.
    + rewrite Hv2, fire_validations, decide_True by done. lia.
    + pose proof (fire_settled_own W t s) as Hs.
      rewrite (settled_stays (fire W t s)); try done.
      by apply evolves_run_timers.
  - (* another timer runs first *)
    assert (t_uri t0 ≠ u) as Hu0.
    { intros Heq. apply Hne, (wf_uri_inj s t0 t Hwf Hin0 Hin). congruence. }
    assert (liveHandles u (fire W t0 s) = [t]) as Hl'.
    { rewrite fire_liveHandles, Hl by done.
      rewrite filter_cons, decide_True; [done |].
      intros Heq. apply Hne. symmetry.
      by apply (wf_handle_inj s t t0 Hwf Hin Hin0). }
    destruct (IH (fire W t0 s) Hwf' Hnq' Hl' Hd) as (A1 & A2 & A3 & A4 & A5);
      [lia |].
    split_and!; try done.
    rewrite A4, fire_validations, decide_False by done. lia.
Qed.

Lemma run_timers_now W fuel deadline s :
  now s ≤ deadline → now (run_timers W fuel deadline s) ≤ deadline.
Proof.
  apply (run_timers_ind W deadline (λ s', now s' ≤ deadline)).
  intros s' t Hs _ Hd _. rewrite fire_now. lia.
Qed.

Lemma elapse_now W dt s : now (elapse W dt s) = now s + dt.
Proof.
  unfold elapse. simpl.
  pose proof (run_timers_now W (backlog s) (now s + dt) s). lia.
Qed.

Lemma elapse_keeps W dt s u :
  wf s → ¬ queued u s →
  (∀ t, t ∈ liveHandles u s → now s + dt < t_due t) →
  ¬ queued u (elapse W dt s) ∧
  liveHandles u (elapse W dt s) = liveHandles u s ∧
  validations u (trace (elapse W dt s)) = validations u (trace s).
Proof.
  intros Hwf Hnq Hdue.
  by destruct (run_timers_keeps W (backlog s) (now s + dt) s u Hwf Hnq Hdue)
    as (_ & A & B & C).
Qed.

Lemma elapse_fires W dt s u t :
  wf s → ¬ queued u s → liveHandles u s = [t] → t_due t ≤ now s + dt →
  ¬ queued u (elapse W dt s) ∧
  liveHandles u (elapse W dt s) = [] ∧
  validations u (trace (elapse W dt s)) = validations u (trace s) + 1 ∧
  is_Some (settled (elapse W dt s) !! t_promise t).
Proof.
  intros Hwf Hnq Hl Hdue.
  by destruct (run_timers_fires W (backlog s) (now s + dt) s u t
                 Hwf Hnq Hl Hdue (Nat.le_refl _)) as (_ & A & B & C & D).
Qed.

(** ** The debounce *)

Lemma doValidation_queued u v s : queued v (doValidation u s).2 ↔ queued v s.
Proof. unfold queued. by rewrite doValidation_pools. Qed.

Lemma liveHandles_pending u s t :
  wf s → liveHandles u s = [t] →
  pendingValidationRequests s !! u = Some (t_handle t).
Proof.
  intros Hwf Hl.
  assert (t ∈ liveHandles u s) as [Hu Hin]%liveHandles_elem
    by (rewrite Hl; apply list_elem_of_here).
  rewrite <- Hu. by apply wf_live_pending.
Qed.

(** C1.  At every moment of every run every URI has at most one live timer,
    the one whose handle [pendingValidationRequests] holds for it.
    [doValidation u] cancels the pending handle of [u] and arms a new one
    due [VALIDATION_DELAY_MS] later; when it is called twice less than that
    delay apart, and nothing else schedules [u], [validate u] runs exactly
    once, from the timer of the second call: the promise of the second call
    is settled, the one of the first call is not. *)
Theorem doValidation_debounce W history u d1 d2 :
  let s := run W history initial in
  let s1 := (doValidation u s).2 in
  let s2 := elapse W d1 s1 in
  let s3 := (doValidation u s2).2 in
  let s4 := elapse W d2 s3 in
  ¬ queued u s → d1 < VALIDATION_DELAY_MS → VALIDATION_DELAY_MS ≤ d2 →
  (∀ h fuel deadline v,
     let s' := run_timers W fuel deadline (run W h initial) in
     List.length (liveHandles v s') ≤ 1 ∧
     Forall (λ t, pendingValidationRequests s' !! v = Some (t_handle t))
       (liveHandles v s')) ∧
  liveHandles u s1 = [armed u s] ∧
  liveHandles u s2 = [armed u s] ∧
  trace s3 = trace s2 ++ [ClearTimeout (t_handle (armed u s));
                          SetTimeout (t_handle (armed u s2)) u
                            VALIDATION_DELAY_MS] ∧
  liveHandles u s3 = [armed u s2] ∧
  t_due (armed u s2) = now s2 + VALIDATION_DELAY_MS ∧
  validations u (trace s3) = validations u (trace s) ∧
  validations u (trace s4) = validations u (trace s) + 1 ∧
  liveHandles u s4 = [] ∧
  settled s4 !! (doValidation u s).1 = None ∧
  is_Some (settled s4 !! (doValidation u s2).1).
Proof.
  intros s s1 s2 s3 s4 Hnq Hd1 Hd2.
  assert (wf s) as Hwf by apply wf_reachable.
  assert (wf s1) as Hwf1 by by apply wf_doValidation.
  assert (wf s2) as Hwf2 by by apply wf_elapse.
  assert (wf s3) as Hwf3 by by apply wf_doValidation.
  assert (liveHandles u s1 = [armed u s]) as Hl1
    by by apply doValidation_liveHandles_same.
  assert (¬ queued u s1) as Hnq1
    by (unfold s1; by rewrite doValidation_queued).
  destruct (elapse_keeps W d1 s1 u Hwf1 Hnq1) as (Hnq2 & Hl2 & Hv2).
  { intros t. rewrite Hl1. intros ->%list_elem_of_singleton.
    unfold s1. rewrite doValidation_now. simpl. lia. }
  rewrite Hl1 in Hl2. change (elapse W d1 s1) with s2 in Hnq2, Hl2, Hv2.
  unfold s1 in Hv2. rewrite doValidation_validations in Hv2.
  assert (liveHandles u s3 = [armed u s2]) as Hl3
    by by apply doValidation_liveHandles_same.
  assert (¬ queued u s3) as Hnq3
    by (unfold s3; by rewrite doValidation_queued).
  destruct (elapse_fires W d2 s3 u (armed u s2) Hwf3 Hnq3 Hl3)
    as (Hnq4 & Hl4 & Hv4 & Hs4).
  { unfold s3. rewrite doValidation_now. simpl. lia. }
  change (elapse W d2 s3) with s4 in Hnq4, Hl4, Hv4, Hs4.
  assert (armed u s ∈ timers s2) as Hin2
    by (apply (liveHandles_elem u); rewrite Hl2; apply list_elem_of_here).
  split_and!; try done.
  - intros h fuel deadline v s'.
    assert (wf s') as Hwf' by apply wf_run_timers, wf_reachable.
    split; [by apply wf_liveHandles |].
    apply Forall_forall. intros t [<- Ht]%liveHandles_elem.
    by apply wf_live_pending.
  - unfold s3. rewrite doValidation_trace.
    by rewrite (liveHandles_pending u s2 (armed u s)).
  - unfold s3. by rewrite doValidation_validations, Hv2.
  - rewrite Hv4. unfold s3. by rewrite doValidation_validations, Hv2.
  - rewrite doValidation_promise.
    assert (settled s3 !! next_promise s = None) as Hn3.
    { unfold s3. rewrite doValidation_settled.
      apply (wf_unsettled _ Hwf2 _ Hin2). }
    rewrite <- Hn3. apply (ev_settled s3 s4 (evolves_elapse W d2 s3 Hwf3)).
    + pose proof (wf_promise_bound _ Hwf2 _ Hin2) as Hb.
      unfold armed in Hb. cbn [t_promise] in Hb.
      unfold s3. rewrite doValidation_next_promise. lia.
    + intros t Ht Heq.
      unfold s3 in Ht. rewrite doValidation_timers in Ht by done.
      apply elem_of_app in Ht as [[Hne Ht]%list_elem_of_filter
                                 | ->%list_elem_of_singleton].
      * apply Hne.
        assert (t = armed u s) as ->; [| done].
        apply list_elem_of_lookup in Ht as [i Hi], Hin2 as [j Hj].
        assert (i = j) as ->; [| congruence].
        apply (NoDup_lookup _ i j (next_promise s) (wf_promises _ Hwf2));
          rewrite list_lookup_fmap; [rewrite Hi | rewrite Hj]; simpl;
          congruence.
      * pose proof (wf_promise_bound _ Hwf2 _ Hin2) as Hb.
        unfold armed in Hb, Heq. cbn [t_promise] in Hb, Heq. lia.
  - by rewrite doValidation_promise.
Qed.

Lemma doValidation_debounce_witness :
  let s := run exampleWorld exampleHistory initial in
  ¬ queued "a.yaml" s ∧ 50 < VALIDATION_DELAY_MS ∧ VALIDATION_DELAY_MS ≤ 200 ∧
  validations "a.yaml"
    (trace (elapse exampleWorld 200
              (doValidation "a.yaml"
                 (elapse exampleWorld 50 (doValidation "a.yaml" s).2)).2)) =
  validations "a.yaml" (trace s) + 1.
Proof.
  assert (¬ queued "a.yaml" (run exampleWorld exampleHistory initial)) as H1
    by (apply (bool_decide_unpack _); vm_compute; exact I).
  assert (50 < VALIDATION_DELAY_MS) as H2 by (unfold VALIDATION_DELAY_MS; lia).
  assert (VALIDATION_DELAY_MS ≤ 200) as H3 by (unfold VALIDATION_DELAY_MS; lia).
  split; [exact H1 | split; [exact H2 | split; [exact H3 |]]].
  apply (doValidation_debounce exampleWorld exampleHistory "a.yaml" 50 200
           H1 H2 H3).
Defined.

(** ** What [validate] sends *)

Lemma occurrences_app f es1 es2 :
  occurrences f (es1 ++ es2) = occurrences f es1 + occurrences f es2.
Proof. unfold occurrences. by rewrite List.filter_app, length_app. Qed.

Lemma externalImportsCallback_trace c s :
  trace (externalImportsCallback c s) = trace s ++ externalImportEffects c.
Proof.
  destruct c as [u p | u p schema property [[]|e] [[]|e'] [[]|e'']]; simpl;
    by rewrite <- ?app_assoc, ?app_nil_r.
Qed.

Lemma externalImportsCallbacks_trace cs s :
  trace (externalImportsCallbacks cs s) =
  trace s ++ concat (externalImportEffects <$> cs).
Proof.
  revert s. induction cs as [|c cs IH]; intros s; simpl.
  - by rewrite app_nil_r.
  - unfold externalImportsCallbacks in IH. rewrite IH.
    by rewrite externalImportsCallback_trace, <- app_assoc.
Qed.

(** The callbacks neither publish diagnostics nor notify. *)
Lemma externalImportEffects_silent cs :
  occurrences isSendDiagnostics (concat (externalImportEffects <$> cs)) = 0 ∧
  occurrences isSendNotification (concat (externalImportEffects <$> cs)) = 0.
Proof.
  induction cs as [|c cs [IH1 IH2]]; [done |].
  rewrite fmap_cons. simpl. rewrite !occurrences_app, IH1, IH2.
  by destruct c as [u p | u p schema property [[]|e] [[]|e'] [[]|e'']].
Qed.

Lemma awaitYamlDocument_trace W u s :
  trace (awaitYamlDocument W u s).1 =
  trace s ++ [CallGetYamlDocument u] ++
  concat (externalImportEffects <$> (getYamlDocument W (now s) u).1).
Proof.
  unfold awaitYamlDocument. destruct (getYamlDocument W (now s) u) as [cs o].
  simpl. rewrite externalImportsCallbacks_trace. simpl.
  by rewrite <- app_assoc.
Qed.

Lemma awaitYamlDocument_result W u s :
  (awaitYamlDocument W u s).2 = (getYamlDocument W (now s) u).2.
Proof.
  unfold awaitYamlDocument. by destruct (getYamlDocument W (now s) u).
Qed.

(** ** Failures inside [validate] *)

Lemma timer_callback_promiseState W t s :
  promiseState (t_promise t) (timer_callback W t s) = Some (Returned tt).
Proof.
  unfold promiseState. rewrite timer_callback_settled, lookup_insert_eq.
  simpl. by destruct (validate _ _ _).2.
Qed.

(** C5.  Once the store has handed over a document with text, [validate]
    never rejects, whatever the parser and the engine do.  When what they
    raise is the tool-failed-to-execute error, the run publishes no
    diagnostics and sends exactly one notification, the installation-error
    one; when it is any other error, it publishes and notifies nothing.  And
    whatever happens in a run, the promise handed out by [doValidation] is
    fulfilled, so no rejection is left unhandled. *)
Theorem validate_contains_failures W u s d :
  getTextDocument W u s = Returned (Some d) →
  String.length (getText d) ≠ 0 →
  let s' := (validate W u s).1 in
  (validate W u s).2 = Returned tt ∧
  match raised W d s with
  | Some e =>
      occurrences isSendDiagnostics (trace s') =
        occurrences isSendDiagnostics (trace s) ∧
      occurrences isSendNotification (trace s') =
        occurrences isSendNotification (trace s) +
        (if isCfnLintFailedToExecuteError e then 1 else 0) ∧
      (isCfnLintFailedToExecuteError e = true →
       last (trace s') =
         Some (SendNotification "custom/cfn-lint-installation-error"))
  | None =>
      occurrences isSendDiagnostics (trace s') =
        occurrences isSendDiagnostics (trace s) + 1 ∧
      occurrences isSendNotification (trace s') =
        occurrences isSendNotification (trace s)
  end ∧
  (∀ t, promiseState (t_promise t) (timer_callback W t s) = Some (Returned tt)).
Proof.
  intros Hdoc Htext s'. subst s'. unfold validate, raised.
  rewrite Hdoc. rewrite (proj2 (Nat.eqb_neq _ _) Htext).
  pose proof (awaitYamlDocument_trace W (uri d) s) as Htr.
  pose proof (awaitYamlDocument_result W (uri d) s) as Hres.
  destruct (externalImportEffects_silent (getYamlDocument W (now s) (uri d)).1)
    as [Hd Hn].
  destruct (awaitYamlDocument W (uri d) s) as [s1 parsed].
  cbn [fst snd] in Htr, Hres. rewrite <- Hres.
  split_and!; [| | intros t; apply timer_callback_promiseState].
  - destruct parsed as [y|e]; simpl.
    + destruct (validation_doValidation W (now s) d y) as [ds|e]; simpl;
        [done |]. by destruct (isCfnLintFailedToExecuteError e).
    + by destruct (isCfnLintFailedToExecuteError e).
  - destruct parsed as [y|e]; simpl.
    + destruct (validation_doValidation W (now s) d y) as [ds|e]; simpl.
      * rewrite Htr, !occurrences_app, Hd, Hn.
        unfold occurrences. simpl. lia.
      * destruct (isCfnLintFailedToExecuteError e); simpl;
          rewrite Htr, !occurrences_app, Hd, Hn; unfold occurrences; simpl;
          (split_and!; [lia | lia |]); [| done].
        intros _. by rewrite last_snoc.
    + destruct (isCfnLintFailedToExecuteError e); simpl;
        rewrite Htr, !occurrences_app, Hd, Hn; unfold occurrences; simpl;
        (split_and!; [lia | lia |]); [| done].
      intros _. by rewrite last_snoc.
Qed.

Lemma validate_contains_failures_witness :
  let s := run exampleWorld [DocumentStored "nolint.yaml" "Resources: {}"]
             initial in
  let d := mkTextDocument "nolint.yaml" "Resources: {}" in
  getTextDocument exampleWorld "nolint.yaml" s = Returned (Some d) ∧
  String.length (getText d) ≠ 0 ∧
  (validate exampleWorld "nolint.yaml" s).2 = Returned tt.
Proof.
  intros s d.
  assert (getTextDocument exampleWorld "nolint.yaml" s = Returned (Some d))
    as H1 by (vm_compute; reflexivity).
  assert (String.length (getText d) ≠ 0) as H2 by (vm_compute; lia).
  split; [exact H1 | split; [exact H2 |]].
  apply (validate_contains_failures exampleWorld "nolint.yaml" s d H1 H2).
Defined.

(** ** Documents without text, and URIs without a document *)

Lemma doValidation_timers_raw u s :
  timers (doValidation u s).2 =
  timers (cleanPendingValidation u s) ++ [armed u s].
Proof.
  unfold doValidation, armed. simpl.
  by rewrite cleanPendingValidation_now, cleanPendingValidation_next_handle,
    cleanPendingValidation_next_promise.
Qed.

Lemma doValidation_occurrences f u s :
  (∀ h, f (ClearTimeout h) = false) → (∀ h v d, f (SetTimeout h v d) = false) →
  occurrences f (trace (doValidation u s).2) = occurrences f (trace s).
Proof.
  intros Hc Hs. rewrite doValidation_trace, !occurrences_app.
  unfold occurrences at 2 3.
  destruct (pendingValidationRequests s !! u); simpl; rewrite ?Hc, Hs; simpl; lia.
Qed.

(** C6.  For a stored document whose text has length 0, [validate]
    publishes the empty set for the URI and does nothing else: the engine is
    not called, no [validateDocument] event is sent, relations and schema
    fragments stay as they are.  The case takes the usual way: [doValidation]
    publishes nothing itself and arms the usual timer, and the empty set is
    published when that timer's callback runs. *)
Theorem validate_empty_text W u s text :
  documents s !! u = Some text → String.length text = 0 →
  getTextDocument_fails W (now s) u = None →
  let s' := (validate W u s).1 in
  validate W u s = (emit [SendDiagnostics u []] s, Returned tt) ∧
  publishedDiagnostics u (trace s') = Some [] ∧
  occurrences isEngineCall (trace s') = occurrences isEngineCall (trace s) ∧
  occurrences (isAnalytics "validateDocument") (trace s') =
    occurrences (isAnalytics "validateDocument") (trace s) ∧
  relations s' = relations s ∧
  partialSchemas s' = partialSchemas s ∧
  timers (doValidation u s).2 =
    timers (cleanPendingValidation u s) ++ [armed u s] ∧
  t_due (armed u s) = now s + VALIDATION_DELAY_MS ∧
  occurrences isSendDiagnostics (trace (doValidation u s).2) =
    occurrences isSendDiagnostics (trace s) ∧
  (∀ t, t_uri t = u → t_due t ≤ now s →
        trace (timer_callback W t s) =
        trace s ++ [CallValidate u; SendDiagnostics u []]).
Proof.
  intros Hdoc Hlen Hok s'.
  assert (∀ s0, now s0 = now s → documents s0 = documents s →
                validate W u s0 = (emit [SendDiagnostics u []] s0, Returned tt))
    as Hval.
  { intros s0 Hnow Hdocs. unfold validate, getTextDocument.
    rewrite Hnow, Hok, Hdocs, Hdoc. simpl. by rewrite Hlen. }
  subst s'. rewrite (Hval s) by done. simpl.
  split_and!; try done.
  - unfold publishedDiagnostics. rewrite fold_left_app. simpl.
    by rewrite String.eqb_refl.
  - rewrite occurrences_app. unfold occurrences at 2. simpl. lia.
  - rewrite occurrences_app. unfold occurrences at 2. simpl. lia.
  - apply doValidation_timers_raw.
  - by apply doValidation_occurrences.
  - intros t Hu Hdue. rewrite timer_callback_unfold. cbv zeta.
    rewrite Hu, Hval; unfold entered; simpl; [| lia | done].
    by rewrite Hu, app_nil_r, <- app_assoc.
Qed.

Lemma validate_empty_text_witness :
  let s := run exampleWorld [DocumentStored "empty.yaml" ""] initial in
  documents s !! "empty.yaml" = Some "" ∧ String.length "" = 0 ∧
  getTextDocument_fails exampleWorld (now s) "empty.yaml" = None ∧
  validate exampleWorld "empty.yaml" s =
    (emit [SendDiagnostics "empty.yaml" []] s, Returned tt).
Proof.
  intros s.
  assert (documents s !! "empty.yaml" = Some "") as H1
    by (vm_compute; reflexivity).
  assert (String.length "" = 0) as H2 by reflexivity.
  assert (getTextDocument_fails exampleWorld (now s) "empty.yaml" = None) as H3
    by (vm_compute; reflexivity).
  split; [exact H1 | split; [exact H2 | split; [exact H3 |]]].
  apply (validate_empty_text exampleWorld "empty.yaml" s "" H1 H2 H3).
Defined.

Lemma publishedDiagnostics_snoc u tr e :
  isSendDiagnostics e = false →
  publishedDiagnostics u (tr ++ [e]) = publishedDiagnostics u tr.
Proof.
  intros He. unfold publishedDiagnostics. rewrite fold_left_app. simpl.
  by destruct e.
Qed.

(** C10.  For a URI of which the store has no document, [validate] returns
    at once and leaves the state as it is: nothing is published, the engine
    is not called, relations and schema fragments are not touched.  The run
    of the timer callback adds only its own call of [validate] to the trace,
    and the diagnostics shown for the URI stay what they were. *)
Theorem validate_no_document W u s :
  documents s !! u = None → getTextDocument_fails W (now s) u = None →
  validate W u s = (s, Returned tt) ∧
  (∀ t, t_uri t = u → t_due t ≤ now s →
        let s' := timer_callback W t s in
        trace s' = trace s ++ [CallValidate u] ∧
        publishedDiagnostics u (trace s') = publishedDiagnostics u (trace s) ∧
        occurrences isEngineCall (trace s') =
          occurrences isEngineCall (trace s) ∧
        relations s' = relations s ∧
        partialSchemas s' = partialSchemas s ∧
        documents s' = documents s).
Proof.
  intros Hdoc Hok.
  assert (∀ s0, now s0 = now s → documents s0 = documents s →
                validate W u s0 = (s0, Returned tt)) as Hval.
  { intros s0 Hnow Hdocs. unfold validate, getTextDocument.
    by rewrite Hnow, Hok, Hdocs, Hdoc. }
  split; [by apply Hval |].
  intros t Hu Hdue s'. subst s'. rewrite timer_callback_unfold. cbv zeta.
  rewrite Hu, Hval; unfold entered; simpl; [| lia | done].
  rewrite Hu, app_nil_r. split_and!; try done.
  - by apply publishedDiagnostics_snoc.
  - rewrite occurrences_app. unfold occurrences at 2. simpl. lia.
Qed.

Lemma validate_no_document_witness :
  let s := run exampleWorld [DocumentStored "a.yaml" "x"] initial in
  documents s !! "gone.yaml" = None ∧
  getTextDocument_fails exampleWorld (now s) "gone.yaml" = None ∧
  validate exampleWorld "gone.yaml" s = (s, Returned tt).
Proof.
  intros s.
  assert (documents s !! "gone.yaml" = None) as H1 by (vm_compute; reflexivity).
  assert (getTextDocument_fails exampleWorld (now s) "gone.yaml" = None) as H2
    by (vm_compute; reflexivity).
  split; [exact H1 | split; [exact H2 |]].
  apply (validate_no_document exampleWorld "gone.yaml" s H1 H2).
Defined.

(** ** Children and their fragments *)

Lemma getChildrenUris_elem u c s :
  c ∈ getChildrenUris u s ↔ relations s !! c = Some u.
Proof.
  unfold getChildrenUris. rewrite list_elem_of_fmap. split.
  - intros ([c' p] & -> & Hin). apply elem_of_map_to_list in Hin.
    apply map_lookup_filter_Some in Hin as [Hl Hp]. simpl in *. by subst.
  - intros Hl. exists (c, u). split; [done |].
    apply elem_of_map_to_list. by apply map_lookup_filter_Some.
Qed.

Lemma getChildrenUris_nil u s :
  (∀ c, relations s !! c ≠ Some u) → getChildrenUris u s = [].
Proof.
  intros Hno. destruct (getChildrenUris u s) as [|c l] eqn:E; [done |].
  exfalso. apply (Hno c), getChildrenUris_elem. rewrite E. apply list_elem_of_here.
Qed.

Lemma getChildrenUris_same_relations u s s' :
  relations s' = relations s → getChildrenUris u s' = getChildrenUris u s.
Proof. unfold getChildrenUris. by intros ->. Qed.

Lemma clearPartialSchemas_trace children s :
  trace (clearPartialSchemas children s) =
  trace s ++ (CallClearPartialSchema <$> children).
Proof.
  revert s. induction children as [|c l IH]; intros s; simpl.
  - by rewrite app_nil_r.
  - unfold clearPartialSchemas in *. rewrite IH. simpl.
    by rewrite <- app_assoc.
Qed.

Lemma clearPartialSchemas_relations children s :
  relations (clearPartialSchemas children s) = relations s.
Proof.
  revert s. induction children as [|c l IH]; intros s; [done |].
  unfold clearPartialSchemas in *. simpl. by rewrite IH.
Qed.

Lemma clearPartialSchemas_documents children s :
  documents (clearPartialSchemas children s) = documents s.
Proof.
  revert s. induction children as [|c l IH]; intros s; [done |].
  unfold clearPartialSchemas in *. simpl. by rewrite IH.
Qed.

Lemma clearPartialSchemas_lookup children s c :
  partialSchemas (clearPartialSchemas children s) !! c =
  if decide (c ∈ children) then None else partialSchemas s !! c.
Proof.
  revert s. induction children as [|a l IH]; intros s.
  - by rewrite decide_False by apply not_elem_of_nil.
  - change (clearPartialSchemas (a :: l) s)
      with (clearPartialSchemas l (clearPartialSchema a s)).
    rewrite IH.
    change (partialSchemas (clearPartialSchema a s))
      with (delete a (partialSchemas s)).
    destruct (decide (c ∈ l)) as [Hin | Hout].
    + by rewrite decide_True by by apply list_elem_of_further.
    + destruct (decide (c = a)) as [-> | Hne].
      * rewrite decide_True by apply list_elem_of_here.
        apply lookup_delete_eq.
      * rewrite decide_False, lookup_delete_ne; [done | done |].
        intros [-> | Hin]%elem_of_cons; done.
Qed.

Lemma clearPartialSchemas_cleared children s :
  Forall (λ c, partialSchemas (clearPartialSchemas children s) !! c = None)
    children.
Proof.
  apply Forall_forall. intros c Hc.
  by rewrite clearPartialSchemas_lookup, decide_True.
Qed.

Lemma clearRelations_trace u s :
  trace (clearRelations u s) = trace s ++ [CallClearRelations u].
Proof. reflexivity. Qed.

Lemma clearRelations_relations u s :
  relations (clearRelations u s) = filter (λ kv, kv.2 ≠ u) (relations s).
Proof. reflexivity. Qed.

Lemma clearRelations_partialSchemas u s :
  partialSchemas (clearRelations u s) = partialSchemas s.
Proof. reflexivity. Qed.

Lemma doValidation_same_scheduler u s s' :
  scheduler s' = scheduler s →
  timers (doValidation u s').2 = timers (doValidation u s).2 ∧
  trace (doValidation u s').2 =
    trace s' ++ match pendingValidationRequests s !! u with
                | Some request => [ClearTimeout request]
                | None => []
                end ++ [SetTimeout (next_handle s) u VALIDATION_DELAY_MS].
Proof.
  unfold scheduler. intros Heq. injection Heq as E1 E2 E3 E4 E5 E6 E7.
  rewrite doValidation_trace, E5, E2. split; [| done].
  unfold doValidation, cleanPendingValidation. rewrite E5.
  destruct (pendingValidationRequests s !! u); simpl; by rewrite E1, E2, E3, E4.
Qed.

(** C2.  A file-changed event on a URI with recorded children clears the
    schema fragment of each child, then the relations of the URI, then
    schedules one validation of the URI, in this order; on a URI without
    children it only schedules the validation and calls neither the schema
    registry nor the relation store. *)
Theorem onFileChanged_invalidates u s :
  let children := getChildrenUris u s in
  let s' := onFileChanged u s in
  trace s' =
    trace s ++
    (if decide (children = []) then []
     else (CallClearPartialSchema <$> children) ++ [CallClearRelations u]) ++
    match pendingValidationRequests s !! u with
    | Some request => [ClearTimeout request]
    | None => []
    end ++ [SetTimeout (next_handle s) u VALIDATION_DELAY_MS] ∧
  timers s' = timers (cleanPendingValidation u s) ++ [armed u s] ∧
  Forall (λ c, partialSchemas s' !! c = None) children ∧
  (if decide (children = [])
   then partialSchemas s' = partialSchemas s ∧ relations s' = relations s
   else relations s' = filter (λ kv, kv.2 ≠ u) (relations s)) ∧
  getChildrenUris u s' = [].
Proof.
  intros children s'. subst s'. rewrite onFileChanged_unfold.
  destruct (doValidation_same_scheduler u s (invalidated u s)
              (invalidated_scheduler u s)) as [Ht Htr].
  rewrite Htr, Ht, doValidation_timers_raw, doValidation_partialSchemas,
    doValidation_relations.
  unfold invalidated. fold children.
  fold (clearPartialSchemas children s).
  destruct (decide (children = [])) as [Hnil | Hne].
  - rewrite decide_False by (rewrite Hnil; simpl; lia).
    rewrite Hnil. split_and!; try done.
    rewrite <- Hnil. apply getChildrenUris_same_relations.
    apply doValidation_relations.
  - rewrite decide_True by (destruct children; [done | simpl; lia]).
    rewrite clearRelations_trace, clearRelations_relations,
      clearRelations_partialSchemas,
      clearPartialSchemas_trace, clearPartialSchemas_relations.
    split_and!; try done.
    + by rewrite <- !app_assoc.
    + apply clearPartialSchemas_cleared.
    + apply getChildrenUris_nil. intros c.
      rewrite doValidation_relations, clearRelations_relations,
        clearPartialSchemas_relations.
      intros [_ Hp]%map_lookup_filter_Some. by apply Hp.
Qed.

(** ** [clearDocument] *)

Lemma publishedDiagnostics_app_silent u tr es :
  Forall (λ e, isSendDiagnostics e = false) es →
  publishedDiagnostics u (tr ++ es) = publishedDiagnostics u tr.
Proof.
  intros Hes. unfold publishedDiagnostics. rewrite fold_left_app.
  generalize (fold_left
    (λ acc e, match e with
              | SendDiagnostics u' ds => if String.eqb u' u then Some ds else acc
              | _ => acc
              end) tr None).
  induction Hes as [|e es He _ IH]; intros acc; [done |].
  simpl. rewrite <- IH. by destruct e.
Qed.

Lemma clearDocument_unfold u s :
  clearDocument u s =
  clearPartialSchemas (getChildrenUris u s)
    (emit [SendDiagnostics u []]
       (documentService_clear u (cleanPendingValidation u s))).
Proof.
  unfold clearDocument. case_decide as Hlen; [done |].
  destruct (getChildrenUris u s); [done | simpl in Hlen; lia].
Qed.

(** C7.  [clearDocument u] cancels the pending handle of [u], clears the
    document from the store, publishes the empty set for [u] and clears the
    schema fragment of every recorded child of [u], in this order.  It arms
    no timer, so no child is revalidated, and it leaves every relation as it
    was, so the children are still recorded. *)
Theorem clearDocument_effects W history u :
  let s := run W history initial in
  let children := getChildrenUris u s in
  let s' := clearDocument u s in
  trace s' =
    trace s ++
    match pendingValidationRequests s !! u with
    | Some request => [ClearTimeout request]
    | None => []
    end ++
    [CallDocumentServiceClear u; SendDiagnostics u []] ++
    (CallClearPartialSchema <$> children) ∧
  pendingValidationRequests s' !! u = None ∧
  liveHandles u s' = [] ∧
  timers s' = filter (λ t, t_uri t ≠ u) (timers s) ∧
  documents s' = delete u (documents s) ∧
  publishedDiagnostics u (trace s') = Some [] ∧
  Forall (λ c, partialSchemas s' !! c = None) children ∧
  relations s' = relations s ∧
  getChildrenUris u s' = children.
Proof.
  intros s children s'. subst s'.
  assert (wf s) as Hwf by apply wf_reachable.
  pose proof (clearDocument_scheduler u s) as Hsch.
  unfold scheduler in Hsch. injection Hsch as E1 E2 E3 E4 E5 E6 E7.
  rewrite clearDocument_unfold in *. fold children in E4, E5 |- *.
  split_and!.
  - rewrite clearPartialSchemas_trace. simpl.
    rewrite cleanPendingValidation_trace. by rewrite <- !app_assoc.
  - rewrite E5, cleanPendingValidation_pending. apply lookup_delete_eq.
  - unfold liveHandles. rewrite E4, cleanPendingValidation_timers by done.
    rewrite list_filter_filter. apply filter_none. intros t _. tauto.
  - by rewrite E4, cleanPendingValidation_timers.
  - rewrite clearPartialSchemas_documents. simpl.
    by rewrite cleanPendingValidation_documents.
  - rewrite clearPartialSchemas_trace.
    rewrite publishedDiagnostics_app_silent
      by (apply Forall_fmap, Forall_forall; by intros c _).
    simpl. unfold publishedDiagnostics. rewrite fold_left_app. simpl.
    by rewrite String.eqb_refl.
  - apply clearPartialSchemas_cleared.
  - rewrite clearPartialSchemas_relations. simpl.
    apply cleanPendingValidation_relations.
  - apply getChildrenUris_same_relations.
    rewrite clearPartialSchemas_relations. simpl.
    apply cleanPendingValidation_relations.
Qed.

(** ** [doResolve] *)

(** C8.  [doResolve] sends exactly one [resolveCompletion] event, carrying
    the label of the item and the document type found in its data, and calls
    the delegate exactly once; it hands back what the delegate answers,
    success or failure alike. *)
Theorem doResolve_once item delegate s :
  ∃ documentType_sent,
    trace (doResolve item delegate s).1 =
      trace s ++
      [SendAnalytics "resolveCompletion"
         [("label", JSString (label item));
          ("documentType", documentType_sent)];
       CallCompleterDoResolve item] ∧
    (doResolve item delegate s).2 = delegate ∧
    match data item with
    | JSObject fields =>
        documentType_sent = default JSUndefined (assoc "documentType" fields)
    | other =>
        documentType_sent = if truthy other then JSUndefined else other
    end ∧
    occurrences (isAnalytics "resolveCompletion")
      (trace (doResolve item delegate s).1) =
      occurrences (isAnalytics "resolveCompletion") (trace s) + 1 ∧
    scheduler (doResolve item delegate s).1 = scheduler s.
Proof.
  exists (js_and (data item) (λ d, getMember d "documentType")).
  split_and!.
  - simpl. by rewrite <- app_assoc.
  - done.
  - unfold js_and. by destruct (data item) as [| |[]|n|str|fields]; simpl;
      try destruct (negb _).
  - simpl. rewrite !occurrences_app. unfold occurrences at 2 3. simpl. lia.
  - done.
Qed.

(** ** Requests *)

(** C4, where it fails.  The store cannot read [locked.yaml]: the promise
    of [getTextDocument] rejects.  [findReferences] awaits it before its
    [try] block, so the rejection reaches the caller and nothing is
    reported; [findDefinitions] and [findLinks], which await it inside,
    report the error and answer with their fallback. *)
Theorem findReferences_store_failure_propagates :
  let s := run exampleWorld [DocumentStored "a.yaml" "x"] initial in
  findReferences exampleWorld "locked.yaml" s = (s, Threw (OtherError "EACCES")) ∧
  findDefinitions exampleWorld "locked.yaml" s =
    (emit [SendException (OtherError "EACCES")] s,
     Returned (inr (mkResponseError 1 "EACCES"))) ∧
  findLinks exampleWorld "locked.yaml" s =
    (emit [SendException (OtherError "EACCES")] s, Returned []).
Proof. by vm_compute. Qed.

Lemma findReferences_rejects W u s e :
  getTextDocument_fails W (now s) u = Some e →
  findReferences W u s = (s, Threw e).
Proof. intros He. unfold findReferences, getTextDocument. by rewrite He. Qed.

(** Whenever the store does answer, [findReferences]
    never rejects: a missing document, a failing parse and a failing engine
    all end in the error response that carries the message, after a report
    to the exception sink. *)
Lemma findReferences_fallback W u s :
  getTextDocument_fails W (now s) u = None →
  match (findReferences W u s).2 with
  | Threw _ => False
  | Returned (inl locations) =>
      ∃ text y, documents s !! u = Some text ∧
        (getYamlDocument W (now s) u).2 = Returned y ∧
        getReferences W (now s) (mkTextDocument u text) y = Returned locations
  | Returned (inr response) =>
      ∃ err, response = mkResponseError 1 (message err) ∧
        last (trace (findReferences W u s).1) = Some (SendException err)
  end.
Proof.
  intros Hok. unfold findReferences, getTextDocument. rewrite Hok.
  destruct (documents s !! u) as [text|]; simpl.
  - pose proof (awaitYamlDocument_result W u s) as Hres.
    destruct (awaitYamlDocument W u s) as [s1 [y|e]]; simpl in *.
    + destruct (getReferences W (now s) _ y) as [ls|e] eqn:E; simpl.
      * by exists text, y.
      * exists e. by rewrite last_snoc.
    + exists e. by rewrite last_snoc.
  - exists uri_of_undefined. by rewrite last_snoc.
Qed.

(** ** Superseded calls *)

(** C9.  A call of [doValidation u] whose timer has not run when a later
    [doValidation u] or [clearDocument u] comes is never answered: whatever
    happens afterwards, its promise is neither resolved nor rejected. *)
Theorem superseded_promise_never_settles W history u before cancel after :
  let s := run W history initial in
  let p := (doValidation u s).1 in
  let s2 := run W before (doValidation u s).2 in
  settled s2 !! p = None →
  cancel = Call_doValidation u ∨ cancel = Call_clearDocument u →
  promiseState p (run W after (step W cancel s2)) = None.
Proof.
  intros s p s2 Hpending Hcancel.
  assert (wf s) as Hwf by apply wf_reachable.
  assert (wf (doValidation u s).2) as Hwf1 by by apply wf_doValidation.
  assert (wf s2) as Hwf2 by by apply wf_run.
  assert (wf (step W cancel s2)) as Hwf3 by by apply wf_step.
  assert (p = next_promise s) as Hp by apply doValidation_promise.
  clearbody p. subst p.
  assert (next_promise s < next_promise s2) as Hlt.
  { pose proof (ev_next_promise _ _ (evolves_run W before _ Hwf1)) as Hle.
    rewrite doValidation_next_promise in Hle. fold s2 in Hle. lia. }
  assert (∀ t, t ∈ timers s2 → t_promise t = next_promise s → t_uri t = u)
    as Howner.
  { intros t Ht Heq.
    destruct (ev_timers _ _ (evolves_run W before _ Hwf1) t Ht) as [Ht1 | Hge].
    - rewrite doValidation_timers in Ht1 by done.
      apply elem_of_app in Ht1 as [[_ Hin]%list_elem_of_filter
                                  | ->%list_elem_of_singleton]; [| done].
      pose proof (wf_promise_bound _ Hwf _ Hin). lia.
    - rewrite doValidation_next_promise in Hge. lia. }
  assert (settled (step W cancel s2) !! next_promise s = None ∧
          next_promise s < next_promise (step W cancel s2) ∧
          ∀ t, t ∈ timers (step W cancel s2) → t_promise t ≠ next_promise s)
    as (Hs3 & Hlt3 & Hdead).
  { destruct Hcancel as [-> | ->]; cbn [step].
    - rewrite doValidation_settled, doValidation_next_promise,
        doValidation_timers by done.
      split_and!; [done | lia |].
      intros t [[Hne Hin]%list_elem_of_filter
               | ->%list_elem_of_singleton]%elem_of_app Heq.
      + by apply Hne, Howner.
      + unfold armed in Heq. cbn [t_promise] in Heq. lia.
    - pose proof (clearDocument_scheduler u s2) as Hsch.
      unfold scheduler in Hsch. injection Hsch as E1 E2 E3 E4 E5 E6 E7.
      rewrite E6, E3, E4, cleanPendingValidation_settled,
        cleanPendingValidation_next_promise,
        cleanPendingValidation_timers by done.
      split_and!; [done | lia |].
      intros t [Hne Hin]%list_elem_of_filter Heq. by apply Hne, Howner. }
  unfold promiseState.
  rewrite (ev_settled _ _ (evolves_run W after _ Hwf3)) by done.
  by rewrite Hs3.
Qed.

Lemma superseded_promise_never_settles_witness :
  let s := run exampleWorld exampleHistory initial in
  let p := (doValidation "a.yaml" s).1 in
  let s2 := run exampleWorld [Elapse 100] (doValidation "a.yaml" s).2 in
  settled s2 !! p = None ∧
  promiseState p
    (run exampleWorld [Elapse 1000; Call_doValidation "b.yaml"; Elapse 1000]
       (step exampleWorld (Call_clearDocument "a.yaml") s2)) = None.
Proof.
  intros s p s2.
  assert (settled s2 !! p = None) as H1 by (vm_compute; reflexivity).
  split; [exact H1 |].
  apply (superseded_promise_never_settles exampleWorld exampleHistory "a.yaml"
           [Elapse 100] (Call_clearDocument "a.yaml")
           [Elapse 1000; Call_doValidation "b.yaml"; Elapse 1000]
           H1 (or_intror eq_refl)).
Defined.

(** ** A batch on an idle service *)

Lemma wf_promise_inj s t1 t2 :
  wf s → t1 ∈ timers s → t2 ∈ timers s → t_promise t1 = t_promise t2 → t1 = t2.
Proof.
  intros Hwf H1 H2 Heq.
  apply list_elem_of_lookup in H1 as [i Hi], H2 as [j Hj].
  assert (i = j) as ->; [| congruence].
  apply (NoDup_lookup _ i j (t_promise t1) (wf_promises _ Hwf));
    rewrite list_lookup_fmap; [rewrite Hi | rewrite Hj]; simpl; congruence.
Qed.

Lemma filter_fmap {A B} (f : A → B) (P : B → Prop) `{∀ x, Decision (P x)}
    (l : list A) :
  filter P (f <$> l) = f <$> filter (λ x, P (f x)) l.
Proof.
  induction l as [|a l IH]; [done |].
  rewrite fmap_cons, !filter_cons, IH. by destruct (decide (P (f a))).
Qed.

(** Freeing the slot of a live timer's promise in a pool that tracks
    exactly the promises of the live timers. *)
Lemma tracked_after_callback s t :
  wf s → t ∈ timers s →
  filter (λ q, q ≠ t_promise t) (t_promise <$> timers s) =
  t_promise <$> filter (λ t', t_handle t' ≠ t_handle t) (timers s).
Proof.
  intros Hwf Hin. rewrite filter_fmap. f_equal. apply filter_agree.
  intros t' Ht'. split; intros Hne Heq; apply Hne.
  - f_equal. by eapply wf_handle_inj.
  - f_equal. by eapply wf_promise_inj.
Qed.

Lemma liveHandles_of_live s t :
  wf s → t ∈ timers s → liveHandles (t_uri t) s = [t].
Proof.
  intros Hwf Hin.
  assert (t ∈ liveHandles (t_uri t) s) as Hl by by apply liveHandles_elem.
  pose proof (wf_liveHandles s (t_uri t) Hwf) as Hlen.
  destruct (liveHandles (t_uri t) s) as [|a [|b r]]; simpl in Hlen; try lia.
  - by apply not_elem_of_nil in Hl.
  - by apply list_elem_of_singleton in Hl as ->.
Qed.

(** The callback turns a live timer of [u] into one validation of [u]. *)
Lemma timer_callback_count W t s u :
  wf s → t ∈ timers s →
  validations u (trace (timer_callback W t s)) +
    List.length (liveHandles u (timer_callback W t s)) =
  validations u (trace s) + List.length (liveHandles u s).
Proof.
  intros Hwf Hin.
  rewrite timer_callback_validations, timer_callback_liveHandles.
  destruct (decide (t_uri t = u)) as [<- | Hne].
  - rewrite (liveHandles_of_live s t) by done.
    rewrite filter_cons, decide_False by auto. simpl. lia.
  - rewrite filter_all; [lia |].
    intros t' [Hu Ht']%liveHandles_elem Heq. apply Hne. rewrite <- Hu.
    f_equal. symmetry. by eapply wf_handle_inj.
Qed.

Lemma timer_callback_scheduled W t s :
  scheduled (trace (timer_callback W t s)) = scheduled (trace s).
Proof.
  rewrite timer_callback_unfold. cbv zeta. simpl.
  rewrite scheduled_app, (q_scheduled _ _ (quiet_validate W (t_uri t) _)).
  unfold entered. simpl. rewrite scheduled_app. simpl.
  destruct (validate W _ _).2; simpl; by rewrite !app_nil_r.
Qed.

Lemma doValidation_scheduled u s :
  scheduled (trace (doValidation u s).2) = scheduled (trace s) ++ [u].
Proof.
  rewrite doValidation_trace, !scheduled_app.
  by destruct (pendingValidationRequests s !! u).
Qed.

Lemma arm_all_scheduled us s :
  scheduled (trace (arm_all us s)) = scheduled (trace s) ++ us.
Proof.
  revert s. induction us as [|u l IH]; intros s.
  - by rewrite app_nil_r.
  - rewrite arm_all_cons, IH, doValidation_scheduled. by rewrite <- app_assoc.
Qed.

Lemma pools_onFulfilled_app p pls1 pls2 s :
  pools_onFulfilled p (pls1 ++ pls2) s =
  let '(r1, s1) := pools_onFulfilled p pls1 s in
  let '(r2, s2) := pools_onFulfilled p pls2 s1 in
  (r1 ++ r2, s2).
Proof.
  revert s. induction pls1 as [|pl rest IH]; intros s; simpl.
  - by destruct (pools_onFulfilled p pls2 s).
  - destruct (if decide (p ∈ tracked pl) then _ else _) as [pl1 s1].
    rewrite IH. destruct (pools_onFulfilled p rest s1) as [r1 s2].
    by destruct (pools_onFulfilled p pls2 s2).
Qed.

(** Pools that have handed out all their URIs arm nothing. *)
Lemma pools_onFulfilled_drained p pls s :
  Forall (λ q, remaining q = 0) pls →
  (pools_onFulfilled p pls s).2 = s ∧
  Forall (λ q, remaining q = 0) (pools_onFulfilled p pls s).1.
Proof.
  induction 1 as [|pl rest Hpl _ [IH1 IH2]]; [done |].
  simpl. destruct (decide (p ∈ tracked pl)) as [Hin | Hout].
  - rewrite pool_proceed_spec. cbn [uris currentIndex tracked].
    unfold remaining in Hpl. rewrite Hpl, Nat.min_0_r. simpl.
    destruct (pools_onFulfilled p rest s) as [r s']. simpl in *.
    split; [done |]. constructor; [| done].
    unfold remaining. simpl. lia.
  - destruct (pools_onFulfilled p rest s) as [r s']. simpl in *.
    split; [done |]. by constructor.
Qed.

(** Firing a timer when the last pool tracks exactly the live timers and the
    pools before it are drained. *)
Lemma fire_sweep W t s old files c :
  wf s → t ∈ timers s →
  pools s = old ++ [mkPool files c (t_promise <$> timers s)] →
  Forall (λ q, remaining q = 0) old →
  let s5 := timer_callback W t s in
  let j := (POOL_CONCURRENCY - List.length (timers s5)) `min`
           (List.length files - c) in
  ∃ old', Forall (λ q, remaining q = 0) old' ∧
    fire W t s =
    set_pools
      (old' ++ [mkPool files (c + j)
                  ((t_promise <$> timers s5) ++ seq (next_promise s) j)])
      (arm_all (take j (drop c files)) s5).
Proof.
  intros Hwf Hin Hpools Hold s5 j. unfold fire. fold s5.
  assert (pools s5 = pools s) as -> by apply timer_callback_pools.
  rewrite Hpools, pools_onFulfilled_app.
  destruct (pools_onFulfilled_drained (t_promise t) old s5 Hold) as [E1 E2].
  destruct (pools_onFulfilled (t_promise t) old s5) as [old' sa].
  simpl in E1, E2. subst sa. exists old'. split; [done |].
  cbn [pools_onFulfilled tracked uris currentIndex].
  rewrite decide_True by (apply list_elem_of_fmap; eauto).
  rewrite pool_proceed_spec. cbn [tracked uris currentIndex].
  rewrite (tracked_after_callback s t Hwf Hin), length_fmap.
  assert (next_promise s5 = next_promise s) as ->
    by apply timer_callback_next_promise.
  unfold j.
  assert (timers s5 = filter (λ t', t_handle t' ≠ t_handle t) (timers s))
    as -> by apply timer_callback_timers.
  done.
Qed.

Lemma NoDup_not_in_take (files : list string) c u :
  NoDup files → files !! c = Some u → u ∉ take c files.
Proof.
  intros Hnd Hu [i [Hi Hlt]]%elem_of_take.
  pose proof (NoDup_lookup _ _ _ _ Hnd Hi Hu). lia.
Qed.

Ltac unpool := cbn [set_pools timers pools trace now].

Lemma sweeping_fire W base files c s t :
  NoDup files → sweeping base files c s → t ∈ timers s →
  ∃ c', sweeping base files c' (fire W t s).
Proof.
  intros Hnd [Hwf (old & Hpools & Hold) Hc Hlive Hcount Hsched Hfull Hnow Hdue]
    Hin.
  pose proof (wf_fire W t s Hwf Hin) as Hwf'.
  pose proof (fire_sweep W t s old files c Hwf Hin Hpools Hold) as Hfs.
  cbv zeta in Hfs. destruct Hfs as (old' & Hold' & Hfire).
  pose proof (wf_timer_callback W t s Hwf Hin) as Hwf5.
  pose proof (timer_callback_timers_length W t s Hwf Hin) as Hlen5.
  pose proof (timer_callback_now W t s) as Hnow5.
  pose proof (Hdue t Hin) as Hdue_t.
  assert (List.length (timers s) ≤ POOL_CONCURRENCY) as Hsz.
  { assert (mkPool files c (t_promise <$> timers s) ∈ pools s) as Hpl
      by (rewrite Hpools; apply elem_of_app; right; apply list_elem_of_here).
    apply (wf_pool_size _ Hwf) in Hpl. cbn [tracked] in Hpl.
    by rewrite length_fmap in Hpl. }
  assert (∀ t', t' ∈ timers (timer_callback W t s) → t' ∈ timers s) as Hsub.
  { intros t'. rewrite timer_callback_timers.
    by intros [_ ?]%list_elem_of_filter. }
  destruct (decide (c = List.length files)) as [Hend | Hmore].
  - (* every URI was handed out already *)
    rewrite Hend, Nat.sub_diag, Nat.min_0_r in Hfire.
    change (take 0 ?l) with (@nil string) in Hfire.
    change (seq ?a 0) with (@nil nat) in Hfire.
    change (arm_all [] ?x) with x in Hfire.
    rewrite Nat.add_0_r, app_nil_r in Hfire.
    exists c. rewrite Hfire in *. split.
    + done.
    + unpool. exists old'. by rewrite Hend.
    + done.
    + unpool. intros t' Ht'. by apply Hlive, Hsub.
    + intros u. change (liveHandles u (set_pools ?p ?x)) with (liveHandles u x).
      unpool. rewrite timer_callback_count by done. apply Hcount.
    + unpool. by rewrite timer_callback_scheduled.
    + done.
    + unpool. rewrite Hnow5. lia.
    + unpool. intros t' Ht'. by apply Hdue, Hsub.
  - (* the freed slot takes the next URI *)
    assert (List.length (timers s) = POOL_CONCURRENCY) as Hthree.
    { destruct (decide (List.length (timers s) < POOL_CONCURRENCY)) as [Hl|Hl];
        [by apply Hfull in Hl | lia]. }
    assert ((POOL_CONCURRENCY - List.length (timers (timer_callback W t s)))
            `min` (List.length files - c) = 1) as Hj
      by (unfold POOL_CONCURRENCY in *; lia).
    rewrite Hj in Hfire.
    destruct (lookup_lt_is_Some_2 files c) as [u' Hu']; [lia |].
    rewrite (drop_S _ _ _ Hu') in Hfire.
    change (take 1 (u' :: ?l)) with [u'] in Hfire.
    change (seq ?a 1) with [a] in Hfire.
    change (arm_all [u'] ?x) with (doValidation u' x).2 in Hfire.
    pose proof (NoDup_not_in_take files c u' Hnd Hu') as Hfresh.
    assert (∀ t', t' ∈ timers (timer_callback W t s) → t_uri t' ≠ u') as Hnot.
    { intros t' Ht' Heq. apply Hfresh. rewrite <- Heq. by apply Hlive, Hsub. }
    assert (timers (doValidation u' (timer_callback W t s)).2 =
            timers (timer_callback W t s) ++ [armed u' (timer_callback W t s)])
      as Htimers.
    { rewrite doValidation_timers by done. f_equal. by apply filter_all. }
    assert (take (c + 1) files = take c files ++ [u']) as Htake
      by (rewrite Nat.add_1_r; by apply take_S_r).
    exists (c + 1). rewrite Hfire in *. split.
    + done.
    + unpool. exists old'. split; [| done]. rewrite Htimers, fmap_app.
      change (t_promise <$> [armed u' ?x]) with [next_promise x].
      by rewrite timer_callback_next_promise.
    + apply lookup_lt_Some in Hu'. lia.
    + unpool. rewrite Htimers, Htake.
      intros t' [Ht' | ->%list_elem_of_singleton]%elem_of_app;
        apply elem_of_app; [left; by apply Hlive, Hsub | right].
      apply list_elem_of_here.
    + intros u. change (liveHandles u (set_pools ?p ?x)) with (liveHandles u x).
      unpool. rewrite doValidation_validations, Htake.
      destruct (decide (u = u')) as [-> | Hne].
      * rewrite doValidation_liveHandles_same by done.
        pose proof (timer_callback_count W t s u' Hwf Hin) as Hpres.
        rewrite Hcount, decide_False in Hpres by done.
        rewrite decide_True by (apply elem_of_app; right; apply list_elem_of_here).
        assert (liveHandles u' (timer_callback W t s) = []) as Hnone.
        { apply filter_none. intros t' Ht'. by apply Hnot. }
        rewrite Hnone in Hpres. simpl in *. lia.
      * rewrite doValidation_liveHandles_other, timer_callback_count, Hcount
          by done.
        f_equal. destruct (decide (u ∈ take c files)) as [Hi | Hni].
        -- by rewrite decide_True by (apply elem_of_app; by left).
        -- rewrite decide_False; [done |].
           intros [Hi | Hi%list_elem_of_singleton]%elem_of_app; done.
    + unpool.
      rewrite doValidation_scheduled, timer_callback_scheduled, Hsched, Htake.
      by rewrite <- app_assoc.
    + unpool. rewrite Htimers, length_app. simpl.
      unfold POOL_CONCURRENCY in *. lia.
    + unpool. rewrite doValidation_now, Hnow5. lia.
    + unpool. rewrite Htimers.
      intros t' [Ht' | ->%list_elem_of_singleton]%elem_of_app.
      * apply Hsub, Hdue in Ht'. lia.
      * simpl. rewrite Hnow5. unfold VALIDATION_DELAY_MS in *. lia.
Qed.

Lemma arm_all_fresh us s :
  wf s → NoDup us → (∀ t, t ∈ timers s → t_uri t ∉ us) →
  timers (arm_all us s) =
  timers s ++ fresh_timers us (next_handle s) (next_promise s)
                (now s + VALIDATION_DELAY_MS).
Proof.
  revert s. induction us as [|u r IH]; intros s Hwf Hnd Hfree.
  { simpl. by rewrite app_nil_r. }
  apply NoDup_cons in Hnd as [Hu Hnd].
  rewrite arm_all_cons, IH; [| by apply wf_doValidation | done |].
  - rewrite doValidation_timers, doValidation_next_handle,
      doValidation_next_promise, doValidation_now by done.
    rewrite filter_all, <- app_assoc; [done |].
    intros t Ht Heq. apply (Hfree t Ht). rewrite Heq. apply list_elem_of_here.
  - intros t. rewrite doValidation_timers by done.
    intros [[_ Ht]%list_elem_of_filter | ->%list_elem_of_singleton]%elem_of_app.
    + intros Hin. apply (Hfree t Ht). by apply list_elem_of_further.
    + done.
Qed.

Lemma fresh_timers_promises us h p due :
  t_promise <$> fresh_timers us h p due = seq p (List.length us).
Proof.
  revert h p. induction us as [|u r IH]; intros h p; [done |].
  simpl. by rewrite IH.
Qed.

Lemma fresh_timers_elem us h p due t :
  t ∈ fresh_timers us h p due → t_uri t ∈ us ∧ t_due t = due.
Proof.
  revert h p. induction us as [|u r IH]; intros h p; simpl.
  - by intros ?%not_elem_of_nil.
  - intros [-> | Hin]%elem_of_cons.
    + split; [apply list_elem_of_here | done].
    + destruct (IH _ _ Hin). split; [by apply list_elem_of_further | done].
Qed.

Lemma fresh_timers_length us h p due :
  List.length (fresh_timers us h p due) = List.length us.
Proof.
  revert h p. induction us as [|u r IH]; intros h p; [done |].
  simpl. by rewrite IH.
Qed.

Lemma fresh_timers_live us h p due u :
  NoDup us →
  List.length (filter (λ t, t_uri t = u) (fresh_timers us h p due)) =
  if decide (u ∈ us) then 1 else 0.
Proof.
  revert h p. induction us as [|a r IH]; intros h p Hnd.
  { by rewrite decide_False by apply not_elem_of_nil. }
  apply NoDup_cons in Hnd as [Ha Hnd]. simpl.
  rewrite filter_cons. simpl. destruct (decide (a = u)) as [-> | Hne].
  - rewrite decide_True by apply list_elem_of_here.
    simpl. by rewrite IH, decide_False.
  - rewrite IH by done. destruct (decide (u ∈ r)) as [Hin | Hout].
    + by rewrite decide_True by by apply list_elem_of_further.
    + rewrite decide_False; [done |].
      intros [-> | Hin]%elem_of_cons; done.
Qed.

Lemma sweeping_start files s :
  wf s → idle s → NoDup files →
  sweeping s files (POOL_CONCURRENCY `min` List.length files)
    (triggerValidationForWorkspaceFiles files s).
Proof.
  intros Hwf [Hnone Hold] Hnd.
  pose proof (wf_triggerValidationForWorkspaceFiles files s Hwf) as Hwf'.
  rewrite triggerValidationForWorkspaceFiles_unfold in *. cbv zeta in *.
  set (j := POOL_CONCURRENCY `min` List.length files) in *.
  assert (List.length (take j files) = j) as Hlen
    by (rewrite length_take; unfold j; lia).
  assert (timers (arm_all (take j files) s) =
          fresh_timers (take j files) (next_handle s) (next_promise s)
            (now s + VALIDATION_DELAY_MS)) as Htimers.
  { rewrite arm_all_fresh, Hnone; [done | done | |].
    - eapply sublist_NoDup; [exact Hnd | apply sublist_take].
    - rewrite Hnone. by intros t ?%not_elem_of_nil. }
  split.
  - done.
  - unpool. exists (pools s). split; [| done].
    by rewrite Htimers, fresh_timers_promises, Hlen.
  - unfold j. lia.
  - unpool. rewrite Htimers. intros t Ht. by apply fresh_timers_elem in Ht as [? _].
  - intros u. change (liveHandles u (set_pools ?p ?x)) with (liveHandles u x).
    unpool. rewrite arm_all_validations. f_equal.
    unfold liveHandles. rewrite Htimers. apply fresh_timers_live.
    eapply sublist_NoDup; [exact Hnd | apply sublist_take].
  - unpool. by rewrite arm_all_scheduled.
  - unpool. rewrite Htimers, fresh_timers_length, Hlen.
    unfold j, POOL_CONCURRENCY. lia.
  - unpool. rewrite arm_all_now. lia.
  - unpool. rewrite Htimers. intros t Ht.
    pose proof (fresh_timers_length (take j files) (next_handle s)
                  (next_promise s) (now s + VALIDATION_DELAY_MS)) as Hl.
    apply fresh_timers_elem in Ht as Hd. destruct Hd as [_ ->].
    destruct (fresh_timers _ _ _ _) as [|x r] eqn:E;
      [by apply not_elem_of_nil in Ht |].
    simpl in Hl. unfold VALIDATION_DELAY_MS. lia.
Qed.

(** The whole batch: once enough time has passed, every URI was handed out,
    in order, and validated once, and the pool is empty again. *)
Lemma sweeping_elapse W files s dt :
  wf s → idle s → NoDup files →
  VALIDATION_DELAY_MS * List.length files ≤ dt →
  let s2 := elapse W dt (triggerValidationForWorkspaceFiles files s) in
  scheduled (trace s2) = scheduled (trace s) ++ files ∧
  (∀ u, validations u (trace s2) =
        validations u (trace s) + (if decide (u ∈ files) then 1 else 0)) ∧
  timers s2 = [] ∧
  last (pools s2) = Some (mkPool files (List.length files) []).
Proof.
  intros Hwf Hidle Hnd Hdt s2.
  pose proof (sweeping_start files s Hwf Hidle Hnd) as Hstart.
  set (s1 := triggerValidationForWorkspaceFiles files s) in *.
  assert (now s1 = now s) as Hnow1.
  { unfold s1. rewrite triggerValidationForWorkspaceFiles_unfold. cbv zeta.
    unpool. apply arm_all_now. }
  assert (∃ c, sweeping s files c
                 (run_timers W (backlog s1) (now s1 + dt) s1))
    as [c Hsw].
  { apply (run_timers_ind W (now s1 + dt)
             (λ s', ∃ c, sweeping s files c s')); [| eauto].
    intros s' t [c' Hs'] Hin _ _. by eapply sweeping_fire. }
  pose proof (run_timers_complete W (backlog s1) (now s1 + dt) s1
                (sw_wf _ _ _ _ Hstart) (Nat.le_refl _)) as Hdone.
  set (s' := run_timers W (backlog s1) (now s1 + dt) s1) in *.
  destruct Hsw as [Hwf' (old & Hpools & Hold) Hc Hlive Hcount Hsched Hfull
                     Hnow Hdue].
  assert (timers s' = []) as Hempty.
  { destruct (timers s') as [|t r] eqn:E; [done |]. exfalso.
    assert (t ∈ t :: r) as Ht by apply list_elem_of_here.
    pose proof (Hdone t Ht). pose proof (Hdue t Ht).
    assert (VALIDATION_DELAY_MS * c ≤ VALIDATION_DELAY_MS * List.length files)
      by (apply Nat.mul_le_mono_l; lia).
    lia. }
  assert (c = List.length files) as ->
    by (apply Hfull; rewrite Hempty; simpl; unfold POOL_CONCURRENCY; lia).
  rewrite firstn_all in *.
  change (trace s2) with (trace s'). change (timers s2) with (timers s').
  change (pools s2) with (pools s').
  split_and!; try done.
  - intros u. rewrite <- Hcount. unfold liveHandles. rewrite Hempty. simpl. lia.
  - rewrite Hpools, Hempty. apply last_snoc.
Qed.

(** ** The pool after a settlement *)

Lemma pools_onFulfilled_progress p pls s i pl u :
  pls !! i = Some pl → p ∈ tracked pl →
  List.length (tracked pl) ≤ POOL_CONCURRENCY →
  uris pl !! currentIndex pl = Some u →
  ∃ pl' us,
    (pools_onFulfilled p pls s).1 !! i = Some pl' ∧
    uris pl' = uris pl ∧
    currentIndex pl < currentIndex pl' ∧
    scheduled (trace (pools_onFulfilled p pls s).2) =
      scheduled (trace s) ++ us ∧
    u ∈ us.
Proof.
  revert i s. induction pls as [|pl0 rest IH]; intros i s Hi Hp Hsz Hu;
    [done |].
  destruct i as [|i].
  - injection Hi as ->. cbn [pools_onFulfilled].
    rewrite decide_True by done. rewrite pool_proceed_spec.
    cbn [uris currentIndex tracked].
    set (j := (POOL_CONCURRENCY -
               List.length (filter (λ q, q ≠ p) (tracked pl)))
              `min` (List.length (uris pl) - currentIndex pl)).
    assert (0 < j) as Hj.
    { pose proof (length_filter_lt (λ q, q ≠ p) (tracked pl) p Hp
                    (λ H, H eq_refl)) as Hlt.
      pose proof (lookup_lt_Some _ _ _ Hu). unfold j. lia. }
    destruct (pools_onFulfilled_spec p rest
                (arm_all (take j (drop (currentIndex pl) (uris pl))) s))
      as (us2 & E2 & _).
    destruct (pools_onFulfilled p rest _) as [rest' s2]. simpl in E2. subst s2.
    eexists _, (take j (drop (currentIndex pl) (uris pl)) ++ us2).
    cbn [fst snd]. split_and!.
    + reflexivity.
    + done.
    + simpl. lia.
    + by rewrite !arm_all_scheduled, app_assoc.
    + apply elem_of_app. left. rewrite (drop_S _ _ _ Hu).
      destruct j; [lia |]. apply list_elem_of_here.
  - cbn [pools_onFulfilled].
    assert (∃ pl1 us1,
              (if decide (p ∈ tracked pl0)
               then pool_proceed
                      (mkPool (uris pl0) (currentIndex pl0)
                         (filter (λ q, q ≠ p) (tracked pl0))) s
               else (pl0, s)) = (pl1, arm_all us1 s)) as (pl1 & us1 & ->).
    { destruct (decide (p ∈ tracked pl0)).
      - rewrite pool_proceed_spec. eauto.
      - by exists pl0, []. }
    destruct (IH i (arm_all us1 s) Hi Hp Hsz Hu)
      as (pl' & us & L & A & B & C & D).
    destruct (pools_onFulfilled p rest (arm_all us1 s)) as [rest' s2].
    cbn [fst snd] in *. exists pl', (us1 ++ us). split_and!; try done.
    + by rewrite C, arm_all_scheduled, app_assoc.
    + apply elem_of_app. by right.
Qed.

Lemma fire_progress W t s i pl u :
  wf s → pools s !! i = Some pl → t_promise t ∈ tracked pl →
  uris pl !! currentIndex pl = Some u →
  ∃ pl' us,
    pools (fire W t s) !! i = Some pl' ∧
    uris pl' = uris pl ∧
    currentIndex pl < currentIndex pl' ∧
    scheduled (trace (fire W t s)) = scheduled (trace s) ++ us ∧
    u ∈ us.
Proof.
  intros Hwf Hi Hp Hu.
  assert (List.length (tracked pl) ≤ POOL_CONCURRENCY) as Hsz
    by (apply (wf_pool_size _ Hwf); by eapply list_elem_of_lookup_2).
  unfold fire. rewrite timer_callback_pools.
  destruct (pools_onFulfilled_progress (t_promise t) (pools s)
              (timer_callback W t s) i pl u Hi Hp Hsz Hu)
    as (pl' & us & L & A & B & C & D).
  destruct (pools_onFulfilled _ _ _) as [pls s6]. cbn [fst snd] in *.
  exists pl', us. unpool. rewrite timer_callback_scheduled in C. done.
Qed.

Lemma timer_callback_reports W t s e :
  (validate W (t_uri t) (entered t s)).2 = Threw e →
  last (trace (timer_callback W t s)) = Some (SendException e).
Proof.
  intros He. rewrite timer_callback_unfold. cbv zeta. rewrite He. simpl.
  by rewrite last_snoc.
Qed.

(** C3.  No pool ever tracks more than [POOL_CONCURRENCY] = 3 promises, at
    any moment of any run.  When a tracked promise settles and the pool has
    URIs left, the pool moves its cursor and a timer is armed for the next
    URI, whatever the outcome of the validation.  A validation that fails is
    reported to the exception sink and its promise is fulfilled for the
    pool; the [catch] of the batch runner turns any rejection into a report
    and a fulfilment.  A batch started on an idle service hands out all its
    URIs in order and each of them is validated once, whatever the
    collaborators do, within [VALIDATION_DELAY_MS] for each URI. *)
Theorem workspace_batch W history files dt :
  let s := run W history initial in
  let s2 := elapse W dt (triggerValidationForWorkspaceFiles files s) in
  idle s → NoDup files → VALIDATION_DELAY_MS * List.length files ≤ dt →
  (∀ h fuel deadline pl,
     pl ∈ pools (run_timers W fuel deadline (run W h initial)) →
     List.length (tracked pl) ≤ POOL_CONCURRENCY) ∧
  (∀ h t i pl u,
     pools (run W h initial) !! i = Some pl → t_promise t ∈ tracked pl →
     uris pl !! currentIndex pl = Some u →
     ∃ pl' us,
       pools (fire W t (run W h initial)) !! i = Some pl' ∧
       uris pl' = uris pl ∧
       currentIndex pl < currentIndex pl' ∧
       scheduled (trace (fire W t (run W h initial))) =
         scheduled (trace (run W h initial)) ++ us ∧
       u ∈ us) ∧
  (∀ t s0 e,
     (validate W (t_uri t) (entered t s0)).2 = Threw e →
     last (trace (timer_callback W t s0)) = Some (SendException e) ∧
     promiseState (t_promise t) (timer_callback W t s0) = Some (Returned tt)) ∧
  (∀ e, catch_sendException (Threw e) = ([SendException e], Returned tt)) ∧
  scheduled (trace s2) = scheduled (trace s) ++ files ∧
  (∀ u, validations u (trace s2) =
        validations u (trace s) + (if decide (u ∈ files) then 1 else 0)) ∧
  timers s2 = [] ∧
  last (pools s2) = Some (mkPool files (List.length files) []).
Proof.
  intros s s2 Hidle Hnd Hdt.
  split_and!.
  - intros h fuel deadline pl Hpl.
    by apply (wf_pool_size _ (wf_run_timers W fuel deadline _
                               (wf_reachable W h))).
  - intros h t i pl u Hi Hp Hu.
    by apply fire_progress; [apply wf_reachable | | |].
  - intros t s0 e He. split;
      [by apply timer_callback_reports | apply timer_callback_promiseState].
  - done.
  - by apply (sweeping_elapse W files s dt (wf_reachable W history)).
  - by apply (sweeping_elapse W files s dt (wf_reachable W history)).
  - by apply (sweeping_elapse W files s dt (wf_reachable W history)).
  - by apply (sweeping_elapse W files s dt (wf_reachable W history)).
Qed.

Lemma workspace_batch_witness :
  let s := run exampleWorld (exampleHistory ++ [Elapse 500]) initial in
  idle s ∧ NoDup exampleFiles ∧
  VALIDATION_DELAY_MS * List.length exampleFiles ≤ 1000 ∧
  scheduled
    (trace (elapse exampleWorld 1000
              (triggerValidationForWorkspaceFiles exampleFiles s))) =
  scheduled (trace s) ++ exampleFiles.
Proof.
  intros s.
  assert (idle s) as H1 by (apply (bool_decide_unpack _); vm_compute; exact I).
  assert (NoDup exampleFiles) as H2
    by (apply (bool_decide_unpack _); vm_compute; exact I).
  assert (VALIDATION_DELAY_MS * List.length exampleFiles ≤ 1000) as H3
    by (vm_compute; lia).
  split; [exact H1 | split; [exact H2 | split; [exact H3 |]]].
  apply (workspace_batch exampleWorld (exampleHistory ++ [Elapse 500])
           exampleFiles 1000 H1 H2 H3).
Defined.

(** ** Runs of the example world *)

(** A batch over five files, one unreadable, one without cfn-lint, one on
    which the engine crashes and one without text: three timers at first,
    the next URI as each promise settles, and every file validated. *)
Example batch_run :
  let s0 := run exampleWorld
              [DocumentStored "a.yaml" "Resources: {}";
               DocumentStored "nolint.yaml" "Resources: {}";
               DocumentStored "crash.yaml" "Resources: {}";
               DocumentStored "b.yaml" ""] initial in
  trace (elapse exampleWorld 400
           (triggerValidationForWorkspaceFiles exampleFiles s0)) =
  [SetTimeout 1 "a.yaml" 200; SetTimeout 2 "locked.yaml" 200;
   SetTimeout 3 "nolint.yaml" 200;
   CallValidate "a.yaml"; CallGetYamlDocument "a.yaml";
   SendAnalytics "validateDocument" [("documentType", JSString "cfn")];
   CallValidationDoValidation "a.yaml"; SendDiagnostics "a.yaml" ["finding"];
   SetTimeout 4 "crash.yaml" 200;
   CallValidate "locked.yaml"; SendException (OtherError "EACCES");
   SetTimeout 5 "b.yaml" 200;
   CallValidate "nolint.yaml"; CallGetYamlDocument "nolint.yaml";
   SendAnalytics "validateDocument" [("documentType", JSString "cfn")];
   CallValidationDoValidation "nolint.yaml";
   SendNotification "custom/cfn-lint-installation-error";
   CallValidate "crash.yaml"; CallGetYamlDocument "crash.yaml";
   SendAnalytics "validateDocument" [("documentType", JSString "cfn")];
   CallValidationDoValidation "crash.yaml";
   CallValidate "b.yaml"; SendDiagnostics "b.yaml" []].
Proof. by vm_compute. Qed.

(** Opening a file and changing it 100 ms later validates it once, 200 ms
    after the change. *)
Example debounce_run :
  let s0 := run exampleWorld [DocumentStored "a.yaml" "Resources: {}"]
              initial in
  trace (run exampleWorld
           [FileOpened "a.yaml"; Elapse 100; FileChanged "a.yaml";
            Elapse 199] s0) =
    [SetTimeout 1 "a.yaml" 200; ClearTimeout 1; SetTimeout 2 "a.yaml" 200] ∧
  trace (run exampleWorld
           [FileOpened "a.yaml"; Elapse 100; FileChanged "a.yaml";
            Elapse 200] s0) =
    [SetTimeout 1 "a.yaml" 200; ClearTimeout 1; SetTimeout 2 "a.yaml" 200;
     CallValidate "a.yaml"; CallGetYamlDocument "a.yaml";
     SendAnalytics "validateDocument" [("documentType", JSString "cfn")];
     CallValidationDoValidation "a.yaml"; SendDiagnostics "a.yaml" ["finding"]].
Proof. by vm_compute. Qed.

(** A parent with one recorded child is changed, then deleted. *)
Example invalidation_run :
  trace (run exampleWorld
           [ExternalImport (onRegisterExternalImport "b.yaml" "a.yaml");
            ExternalImport
              (onValidateExternalImport "b.yaml" "a.yaml" "schema"
                 (Some "Resources") (Returned tt) (Returned tt) (Returned tt));
            FileChanged "a.yaml";
            ExternalImport (onRegisterExternalImport "b.yaml" "a.yaml");
            FileDeleted "a.yaml"] initial) =
  [CallRegisterChildParentRelation "b.yaml" "a.yaml";
   CallRegisterPartialSchema "b.yaml" "schema" (Some "Resources");
   CallGetYamlDocument "b.yaml"; CallDoExternalImportValidation "b.yaml";
   CallClearPartialSchema "b.yaml"; CallClearRelations "a.yaml";
   SetTimeout 1 "a.yaml" 200;
   CallRegisterChildParentRelation "b.yaml" "a.yaml";
   ClearTimeout 1; CallDocumentServiceClear "a.yaml";
   SendDiagnostics "a.yaml" []; CallClearPartialSchema "b.yaml"].
Proof. by vm_compute. Qed.

(** ** Completion, hover and document symbols *)

Lemma quiet_returned {A B} (a : answer A) (value : A → B)
    (caught : Error → state → state * outcome B) s0 s :
  quiet s0 s → (∀ err, quiet s0 (caught err s).1) →
  quiet s0 (returned a value caught s).1.
Proof. intros Hs Hc. destruct a; simpl; auto. Qed.

Lemma quiet_doComplete E W document position s :
  quiet s (doComplete E W document position s).1.
Proof.
  unfold doComplete. destruct document as [d|]; [| apply quiet_refl].
  destruct (completionHelper E (now s) d position) as [nd|e]; [| quiet_emit].
  pose proof (quiet_awaitYamlDocument W (uri d) s) as Hq.
  destruct (awaitYamlDocument W (uri d) s) as [s1 [y|e]]; simpl in Hq |- *.
  - destruct (parse E (now s) nd (parentParams y)) as [y'|e].
    + apply quiet_returned; [done |]. intros err.
      eapply quiet_trans; [exact Hq | quiet_emit].
    + eapply quiet_trans; [exact Hq | quiet_emit].
  - eapply quiet_trans; [exact Hq | quiet_emit].
Qed.

Lemma quiet_doHover E W document position s :
  quiet s (doHover E W document position s).1.
Proof.
  unfold doHover. destruct document as [d|]; [| quiet_emit].
  pose proof (quiet_awaitYamlDocument W (uri d) s) as Hq.
  destruct (awaitYamlDocument W (uri d) s) as [s1 [y|e]]; simpl in Hq |- *.
  - apply quiet_returned; [done |]. intros err.
    eapply quiet_trans; [exact Hq | quiet_emit].
  - eapply quiet_trans; [exact Hq | quiet_emit].
Qed.

Lemma quiet_findDocumentSymbols E W document s :
  quiet s (findDocumentSymbols E W document s).1.
Proof.
  unfold findDocumentSymbols. destruct document as [d|]; [| apply quiet_refl].
  pose proof (quiet_awaitYamlDocument W (uri d) s) as Hq.
  destruct (awaitYamlDocument W (uri d) s) as [s1 [y|e]]; simpl in Hq |- *;
    [| done].
  by apply quiet_returned.
Qed.

Lemma quiet_doResolve item delegate s : quiet s (doResolve item delegate s).1.
Proof.
  unfold doResolve. cbn [fst].
  eapply quiet_trans; [| quiet_emit]; quiet_emit.
Qed.

(** X1.  No request touches the scheduler: completion, hover, symbols,
    definitions, references, links and resolve leave the clock, the timers,
    the pending handles, the promises, the pools and the stored documents as
    they are, enter no validation and arm no timer, whatever the
    collaborators answer. *)
Theorem requests_bypass_scheduler E W document position u item delegate s :
  quiet s (doComplete E W document position s).1 ∧
  quiet s (doHover E W document position s).1 ∧
  quiet s (findDocumentSymbols E W document s).1 ∧
  quiet s (findDefinitions W u s).1 ∧
  quiet s (findReferences W u s).1 ∧
  quiet s (findLinks W u s).1 ∧
  quiet s (doResolve item delegate s).1.
Proof.
  split_and!.
  - apply quiet_doComplete.
  - apply quiet_doHover.
  - apply quiet_findDocumentSymbols.
  - apply quiet_findDefinitions.
  - apply quiet_findReferences.
  - apply quiet_findLinks.
  - apply quiet_doResolve.
Qed.



(** X4.  [findDocumentSymbols] never reports: whatever happens, the state it
    leaves is the one the parse left.  It rejects only when the promise of
    the symbol engine rejects; an absent document, a failure of the parser
    and an exception thrown by the engine end in the empty list. *)
Theorem findDocumentSymbols_answers E W document s :
  let r := findDocumentSymbols E W document s in
  match document with
  | None => r = (s, Returned [])
  | Some d =>
      let asked (a : answer (list DocumentSymbol)) : Prop :=
        ∃ y,
          (getYamlDocument W (now s) (uri d)).2 = Returned y ∧
          services_findDocumentSymbols E (now s) d y = a in
      r.1 = (awaitYamlDocument W (uri d) s).1 ∧
      match r.2 with
      | Threw e => asked (Rejects e)
      | Returned l => l = [] ∨ asked (Answers l)
      end
  end.
Proof.
  intros r. subst r. unfold findDocumentSymbols.
  destruct document as [d|]; [| done]. cbv zeta.
  pose proof (awaitYamlDocument_result W (uri d) s) as Hres.
  destruct (awaitYamlDocument W (uri d) s) as [s1 [y|e]]; simpl in *.
  2: { split; [done | by left]. }
  destruct (services_findDocumentSymbols E (now s) d y) as [l|e|e] eqn:Hh;
    simpl; (split; [done |]).
  - right. by exists y.
  - by left.
  - by exists y.
Qed.

(** ** A burst of calls *)




(** ** What a call for one URI leaves alone *)

Ltac step_quiet :=
  first [apply quiet_doResolve | apply quiet_findReferences
        | apply quiet_findDefinitions | apply quiet_findLinks
        | apply quiet_externalImportsCallback].

Lemma publishedDiagnostics_other u v tr ds :
  v ≠ u →
  publishedDiagnostics u (tr ++ [SendDiagnostics v ds]) =
  publishedDiagnostics u tr.
Proof.
  intros Hne. unfold publishedDiagnostics. rewrite fold_left_app. simpl.
  by destruct (String.eqb_spec v u).
Qed.




Lemma doValidation_published v u s :
  publishedDiagnostics u (trace (doValidation v s).2) =
  publishedDiagnostics u (trace s).
Proof.
  rewrite doValidation_trace, publishedDiagnostics_app_silent; [done |].
  destruct (pendingValidationRequests s !! v); by repeat constructor.
Qed.





Lemma validations_clearPartialSchema v children :
  validations v (CallClearPartialSchema <$> children) = 0.
Proof. by induction children. Qed.

Lemma undisturbed_same_scheduler v s s' :
  scheduler s' = scheduler s → documents s' = documents s →
  validations v (trace s') = validations v (trace s) →
  publishedDiagnostics v (trace s') = publishedDiagnostics v (trace s) →
  undisturbed v s s'.
Proof.
  unfold scheduler, undisturbed, liveHandles.
  intros Heq -> -> ->. injection Heq as _ _ _ -> -> _ _. done.
Qed.

Lemma undisturbed_trans v s1 s2 s3 :
  undisturbed v s1 s2 → undisturbed v s2 s3 → undisturbed v s1 s3.
Proof.
  intros (A1 & A2 & A3 & A4 & A5) (B1 & B2 & B3 & B4 & B5).
  unfold undisturbed. split_and!; congruence.
Qed.

Lemma undisturbed_doValidation u v s :
  wf s → u ≠ v → undisturbed v s (doValidation u s).2.
Proof.
  intros Hwf Hne. unfold undisturbed. split_and!.
  - by apply doValidation_liveHandles_other.
  - by rewrite doValidation_pending, lookup_insert_ne.
  - by rewrite doValidation_documents.
  - apply doValidation_validations.
  - apply doValidation_published.
Qed.

Lemma undisturbed_clearDocument u v s :
  wf s → u ≠ v → undisturbed v s (clearDocument u s).
Proof.
  intros Hwf Hne.
  pose proof (clearDocument_scheduler u s) as Hsch.
  unfold scheduler in Hsch. injection Hsch as E1 E2 E3 E4 E5 E6 E7.
  unfold undisturbed, liveHandles. rewrite E4, E5.
  rewrite cleanPendingValidation_timers, cleanPendingValidation_pending by done.
  rewrite clearDocument_unfold, clearPartialSchemas_documents,
    clearPartialSchemas_trace.
  cbn [documents trace emit documentService_clear set_documents].
  rewrite cleanPendingValidation_documents, cleanPendingValidation_trace.
  split_and!.
  - rewrite list_filter_filter. apply filter_agree. intros t _.
    split; [tauto | intros <-; done].
  - by rewrite lookup_delete_ne.
  - by rewrite lookup_delete_ne.
  - rewrite !validations_app, validations_clearPartialSchema.
    destruct (pendingValidationRequests s !! u); unfold validations; simpl; lia.
  - rewrite publishedDiagnostics_app_silent
      by (apply Forall_fmap, Forall_forall; by intros c _).
    rewrite publishedDiagnostics_other by done.
    rewrite !publishedDiagnostics_app_silent; [done | |];
      [destruct (pendingValidationRequests s !! u) |]; by repeat constructor.
Qed.

Lemma undisturbed_invalidated u v s : undisturbed v s (invalidated u s).
Proof.
  apply undisturbed_same_scheduler; [apply invalidated_scheduler | | |];
    unfold invalidated; case_decide; try done;
    fold (clearPartialSchemas (getChildrenUris u s) s).
  - cbn [documents clearRelations emit set_relations].
    apply clearPartialSchemas_documents.
  - rewrite clearRelations_trace, clearPartialSchemas_trace.
    rewrite !validations_app, validations_clearPartialSchema.
    unfold validations; simpl; lia.
  - rewrite clearRelations_trace, clearPartialSchemas_trace.
    rewrite publishedDiagnostics_app_silent by by repeat constructor.
    rewrite publishedDiagnostics_app_silent; [done |].
    apply Forall_fmap, Forall_forall; by intros c _.
Qed.

(** X6.  [doValidation u], [clearDocument u] and [onFileChanged u] touch
    nothing that belongs to another URI [v]: its timer, its entry in
    [pendingValidationRequests], its document, the number of its
    validations and the diagnostics shown for it are what they were.  The
    cancellation finds the timer by the handle stored for [u], and in every
    state a run can reach that handle belongs to a timer of [u]. *)
Theorem other_uris_undisturbed W history u v :
  let s := run W history initial in
  u ≠ v →
  undisturbed v s (doValidation u s).2 ∧
  undisturbed v s (clearDocument u s) ∧
  undisturbed v s (onFileChanged u s).
Proof.
  intros s Hne. assert (wf s) as Hwf by apply wf_reachable.
  split_and!.
  - by apply undisturbed_doValidation.
  - by apply undisturbed_clearDocument.
  - rewrite onFileChanged_unfold.
    eapply undisturbed_trans; [apply (undisturbed_invalidated u) |].
    apply undisturbed_doValidation; [| done].
    eapply wf_same_scheduler; [symmetry; apply invalidated_scheduler | done].
Qed.

Lemma other_uris_undisturbed_witness :
  let s := run exampleWorld exampleHistory initial in
  "b.yaml" ≠ "a.yaml" ∧
  undisturbed "a.yaml" s (clearDocument "b.yaml" s).
Proof.
  assert ("b.yaml" ≠ "a.yaml") as H1 by discriminate.
  split; [exact H1 |].
  apply (other_uris_undisturbed exampleWorld exampleHistory "b.yaml" "a.yaml"
           H1).
Defined.

Lemma clearDocument_cleared u s :
  wf s →
  liveHandles u (clearDocument u s) = [] ∧
  documents (clearDocument u s) !! u = None ∧
  validations u (trace (clearDocument u s)) = validations u (trace s) ∧
  publishedDiagnostics u (trace (clearDocument u s)) = Some [] ∧
  pools (clearDocument u s) = pools s.
Proof.
  intros Hwf.
  pose proof (clearDocument_scheduler u s) as Hsch.
  unfold scheduler in Hsch. injection Hsch as E1 E2 E3 E4 E5 E6 E7.
  unfold liveHandles. rewrite E4, E7, cleanPendingValidation_pools.
  rewrite cleanPendingValidation_timers by done.
  rewrite clearDocument_unfold, clearPartialSchemas_documents,
    clearPartialSchemas_trace.
  cbn [documents trace emit documentService_clear set_documents].
  rewrite cleanPendingValidation_documents, cleanPendingValidation_trace.
  split_and!; try done.
  - rewrite list_filter_filter. apply filter_none. intros t _. tauto.
  - apply lookup_delete_eq.
  - rewrite !validations_app, validations_clearPartialSchema.
    destruct (pendingValidationRequests s !! u); unfold validations; simpl; lia.
  - rewrite publishedDiagnostics_app_silent
      by (apply Forall_fmap, Forall_forall; by intros c _).
    unfold publishedDiagnostics. rewrite fold_left_app. simpl.
    by rewrite String.eqb_refl.
Qed.

(** ** After a delete *)









Lemma dormant_same_scheduler u s s' :
  scheduler s' = scheduler s → dormant u s → dormant u s'.
Proof.
  unfold scheduler, dormant, queued, liveHandles.
  intros Heq. injection Heq as _ _ _ -> _ _ ->. done.
Qed.

Lemma dormant_doValidation u v s :
  wf s → v ≠ u → dormant u s → dormant u (doValidation v s).2.
Proof.
  intros Hwf Hne [Hl Hq]. split.
  - by rewrite doValidation_liveHandles_other.
  - by rewrite doValidation_queued.
Qed.

Lemma dormant_clearDocument u v s :
  wf s → ¬ queued u s → liveHandles u s = [] ∨ v = u →
  dormant u (clearDocument v s).
Proof.
  intros Hwf Hq Hl.
  destruct (clearDocument_cleared v s Hwf) as (A & _ & _ & _ & Hpools).
  split; [| unfold queued; by rewrite Hpools].
  destruct (decide (v = u)) as [-> | Hne]; [done |].
  destruct Hl as [Hl | ->]; [| done].
  destruct (undisturbed_clearDocument v u s Hwf Hne) as (B & _). congruence.
Qed.

Lemma dormant_triggerValidationForWorkspaceFiles u files s :
  wf s → u ∉ files → dormant u s →
  dormant u (triggerValidationForWorkspaceFiles files s).
Proof.
  intros Hwf Hnot [Hl Hq]. rewrite triggerValidationForWorkspaceFiles_unfold.
  cbv zeta. split.
  - change (liveHandles u (set_pools ?p ?x)) with (liveHandles u x).
    rewrite arm_all_liveHandles_other; [done | done |].
    intros Hin. apply Hnot. eapply elem_of_sublist; [exact Hin |].
    apply sublist_take.
  - unfold queued. cbn [pools set_pools]. rewrite Exists_app.
    intros [H | H]; [by apply Hq |].
    apply Exists_cons in H as [H | H]; [| by apply Exists_nil in H].
    cbn [currentIndex uris] in H. apply Hnot.
    eapply elem_of_sublist; [exact H | apply sublist_drop].
Qed.

Lemma step_unscheduled W e u s :
  wf s → ¬ schedules u e → dormant u s →
  dormant u (step W e s) ∧
  validations u (trace (step W e s)) = validations u (trace s).
Proof.
  intros Hwf He Hdor.
  assert (∀ s', quiet s s' →
            dormant u s' ∧ validations u (trace s') = validations u (trace s))
    as Hquiet.
  { intros s' Hq. split; [| apply (q_validations _ _ Hq)].
    eapply dormant_same_scheduler; [apply (q_scheduler _ _ Hq) | done]. }
  assert (∀ v, v ≠ u →
            dormant u (doValidation v s).2 ∧
            validations u (trace (doValidation v s).2) =
            validations u (trace s)) as Hdo.
  { intros v Hne. split; [by apply dormant_doValidation |].
    apply doValidation_validations. }
  assert (∀ v, dormant u (clearDocument v s) ∧
               validations u (trace (clearDocument v s)) =
               validations u (trace s)) as Hclear.
  { intros v. destruct Hdor as [Hl Hq].
    split; [apply dormant_clearDocument; auto |].
    destruct (decide (v = u)) as [-> | Hne].
    - by destruct (clearDocument_cleared u s Hwf) as (_ & _ & A & _).
    - by destruct (undisturbed_clearDocument v u s Hwf Hne)
        as (_ & _ & _ & A & _). }
  assert (∀ files, u ∉ files →
            dormant u (triggerValidationForWorkspaceFiles files s) ∧
            validations u (trace (triggerValidationForWorkspaceFiles files s)) =
            validations u (trace s)) as Htrig.
  { intros files Hnot.
    split; [by apply dormant_triggerValidationForWorkspaceFiles |].
    rewrite triggerValidationForWorkspaceFiles_unfold. cbv zeta.
    cbn [trace set_pools]. apply arm_all_validations. }
  destruct e as [v|v|item delegate|v|v|v|v|v|v|v|v|files|files|c|v text|dt];
    cbn [step schedules] in *;
    unfold onFileCreated, onFileOpened, onFileDeleted, onFileClosed;
    auto.
  - apply Hquiet, quiet_doResolve.
  - apply Hquiet, quiet_findReferences.
  - apply Hquiet, quiet_findDefinitions.
  - apply Hquiet, quiet_findLinks.
  - rewrite onFileChanged_unfold.
    assert (wf (invalidated v s)) as Hwf'
      by (eapply wf_same_scheduler;
          [symmetry; apply invalidated_scheduler | done]).
    destruct (undisturbed_invalidated v u s) as (_ & _ & _ & A & _).
    split.
    + apply dormant_doValidation; [done | done |].
      eapply dormant_same_scheduler; [apply invalidated_scheduler | done].
    + by rewrite doValidation_validations.
  - apply Hquiet, quiet_externalImportsCallback.
  - destruct Hdor as [Hl Hq].
    destruct (elapse_keeps W dt s u Hwf Hq) as (A & B & C).
    { intros t. rewrite Hl. by intros ?%not_elem_of_nil. }
    split; [split; congruence | done].
Qed.

(** X8.  [clearDocument u] cancels the validation pending for [u]: unless
    a pool still has [u] queued, [validate u] does not run again, however
    much time passes and whatever else happens, until some event schedules
    [u] anew; meanwhile [u] has no timer and no entry in
    [pendingValidationRequests]. *)
Theorem deleted_never_validated W history u after :
  let s := run W history initial in
  let s' := run W after (clearDocument u s) in
  ¬ queued u s → Forall (λ e, ¬ schedules u e) after →
  validations u (trace s') = validations u (trace s) ∧
  liveHandles u s' = [] ∧
  pendingValidationRequests s' !! u = None.
Proof.
  intros s s' Hnq Hafter. subst s'.
  assert (wf s) as Hwf0 by apply wf_reachable.
  assert (wf (clearDocument u s)) as Hwf by by apply wf_clearDocument.
  assert (dormant u (clearDocument u s)) as Hdor
    by (apply dormant_clearDocument; auto).
  destruct (clearDocument_cleared u s Hwf0) as (_ & _ & <- & _).
  revert Hwf Hdor. generalize (clearDocument u s).
  induction Hafter as [|e after He _ IH]; intros s0 Hwf Hdor.
  - destruct Hdor as [Hl _]. split_and!; try done.
    destruct (pendingValidationRequests s0 !! u) as [h|] eqn:E; [| done].
    destruct (wf_pending_live _ Hwf _ _ E) as (t & Ht & _ & Hu).
    assert (t ∈ liveHandles u s0) as Hin by by apply liveHandles_elem.
    rewrite Hl in Hin. by apply not_elem_of_nil in Hin.
  - cbn [run fold_left].
    destruct (step_unscheduled W e u s0 Hwf He Hdor) as [A <-].
    apply IH; [by apply wf_step | done].
Qed.

Lemma deleted_never_validated_witness :
  let s := run exampleWorld (exampleHistory ++ [FileChanged "a.yaml"])
             initial in
  let after := [Elapse 150; FileOpened "b.yaml"; Call_clearDocument "b.yaml";
                Elapse 1000] in
  ¬ queued "a.yaml" s ∧ Forall (λ e, ¬ schedules "a.yaml" e) after ∧
  validations "a.yaml"
    (trace (run exampleWorld after (clearDocument "a.yaml" s))) =
  validations "a.yaml" (trace s).
Proof.
  intros s after.
  assert (¬ queued "a.yaml" s) as H1
    by (apply (bool_decide_unpack _); vm_compute; exact I).
  assert (Forall (λ e, ¬ schedules "a.yaml" e) after) as H2
    by (apply (bool_decide_unpack _); vm_compute; exact I).
  split; [exact H1 | split; [exact H2 |]].
  apply (deleted_never_validated exampleWorld
           (exampleHistory ++ [FileChanged "a.yaml"]) "a.yaml" after H1 H2).
Defined.

(** ** Validations and the timers armed for them *)

Lemma scheduled_silent es :
  Forall (λ e, match e with SetTimeout _ _ _ => False | _ => True end) es →
  scheduled es = [].
Proof.
  induction 1 as [|e es He _ IH]; [done |].
  change (e :: es) with ([e] ++ es). rewrite scheduled_app, IH.
  by destruct e.
Qed.

Lemma doValidation_accounted u v s :
  wf s →
  accounted u (doValidation v s).2 ≤
  validations u (trace s) + List.length (liveHandles u s) `max`
                              (if decide (v = u) then 1 else 0) ∧
  timesScheduled u (trace (doValidation v s).2) =
  timesScheduled u (trace s) + (if decide (v = u) then 1 else 0).
Proof.
  intros Hwf. unfold accounted, timesScheduled.
  rewrite doValidation_validations, doValidation_scheduled, filter_app,
    length_app.
  destruct (decide (v = u)) as [-> | Hne].
  - rewrite doValidation_liveHandles_same by done.
    rewrite filter_cons, decide_True by done. simpl. lia.
  - rewrite doValidation_liveHandles_other by done.
    rewrite filter_cons, decide_False by done. simpl. lia.
Qed.

Lemma bounded_doValidation u v s :
  wf s → accounted u s ≤ timesScheduled u (trace s) →
  accounted u (doValidation v s).2 ≤ timesScheduled u (trace (doValidation v s).2).
Proof.
  intros Hwf Hb. destruct (doValidation_accounted u v s Hwf) as (A & ->).
  unfold accounted in *. destruct (decide (v = u)); lia.
Qed.

Lemma bounded_arm_all u us s :
  wf s → accounted u s ≤ timesScheduled u (trace s) →
  accounted u (arm_all us s) ≤ timesScheduled u (trace (arm_all us s)).
Proof.
  revert s. induction us as [|v l IH]; intros s Hwf Hb; [done |].
  rewrite arm_all_cons. apply IH; [by apply wf_doValidation |].
  by apply bounded_doValidation.
Qed.

Lemma bounded_fire W t u s :
  wf s → t ∈ timers s → accounted u s ≤ timesScheduled u (trace s) →
  accounted u (fire W t s) ≤ timesScheduled u (trace (fire W t s)).
Proof.
  intros Hwf Hin Hb. destruct (fire_spec W t s) as (us & pls & -> & _).
  change (accounted u (set_pools pls ?x)) with (accounted u x).
  change (trace (set_pools pls ?x)) with (trace x).
  apply bounded_arm_all; [by apply wf_timer_callback |].
  unfold accounted, timesScheduled.
  by rewrite timer_callback_count, timer_callback_scheduled.
Qed.

Lemma bounded_same u s s' :
  scheduler s' = scheduler s →
  validations u (trace s') = validations u (trace s) →
  scheduled (trace s') = scheduled (trace s) →
  accounted u s ≤ timesScheduled u (trace s) →
  accounted u s' ≤ timesScheduled u (trace s').
Proof.
  unfold accounted, timesScheduled, liveHandles, scheduler.
  intros Heq -> ->. injection Heq as _ _ _ -> _ _ _. done.
Qed.

Lemma clearDocument_scheduled u s :
  scheduled (trace (clearDocument u s)) = scheduled (trace s).
Proof.
  rewrite clearDocument_unfold, clearPartialSchemas_trace.
  cbn [trace emit documentService_clear set_documents].
  rewrite cleanPendingValidation_trace, !scheduled_app.
  rewrite (scheduled_silent (CallClearPartialSchema <$> _))
    by (apply Forall_fmap, Forall_forall; by intros c _).
  destruct (pendingValidationRequests s !! u); simpl; by rewrite !app_nil_r.
Qed.

Lemma invalidated_scheduled u s :
  scheduled (trace (invalidated u s)) = scheduled (trace s).
Proof.
  unfold invalidated. case_decide; [| done].
  fold (clearPartialSchemas (getChildrenUris u s) s).
  rewrite clearRelations_trace, clearPartialSchemas_trace, !scheduled_app.
  rewrite (scheduled_silent (CallClearPartialSchema <$> _))
    by (apply Forall_fmap, Forall_forall; by intros c _).
  simpl. by rewrite !app_nil_r.
Qed.

Lemma bounded_step W e u s :
  wf s → accounted u s ≤ timesScheduled u (trace s) →
  accounted u (step W e s) ≤ timesScheduled u (trace (step W e s)).
Proof.
  intros Hwf Hb.
  assert (∀ s', quiet s s' → accounted u s' ≤ timesScheduled u (trace s'))
    as Hquiet.
  { intros s' [A _ B C]. by apply (bounded_same u s). }
  assert (∀ v, accounted u (clearDocument v s) ≤
               timesScheduled u (trace (clearDocument v s))) as Hclear.
  { intros v. unfold accounted, timesScheduled in *.
    rewrite clearDocument_scheduled.
    destruct (decide (v = u)) as [-> | Hne].
    - destruct (clearDocument_cleared u s Hwf) as (-> & _ & -> & _).
      simpl. lia.
    - destruct (undisturbed_clearDocument v u s Hwf Hne)
        as (-> & _ & _ & -> & _). done. }
  assert (∀ files,
            accounted u (triggerValidationForWorkspaceFiles files s) ≤
            timesScheduled u
              (trace (triggerValidationForWorkspaceFiles files s))) as Htrig.
  { intros files. rewrite triggerValidationForWorkspaceFiles_unfold. cbv zeta.
    change (accounted u (set_pools ?p ?x)) with (accounted u x).
    change (trace (set_pools ?p ?x)) with (trace x).
    by apply bounded_arm_all. }
  destruct e as [v|v|item delegate|v|v|v|v|v|v|v|v|files|files|c|v text|dt];
    cbn [step];
    unfold onFileCreated, onFileOpened, onFileDeleted, onFileClosed;
    auto using bounded_doValidation.
  - apply Hquiet, quiet_doResolve.
  - apply Hquiet, quiet_findReferences.
  - apply Hquiet, quiet_findDefinitions.
  - apply Hquiet, quiet_findLinks.
  - rewrite onFileChanged_unfold. apply bounded_doValidation.
    + eapply wf_same_scheduler; [symmetry; apply invalidated_scheduler | done].
    + destruct (undisturbed_invalidated v u s) as (_ & _ & _ & A & _).
      apply (bounded_same u s); auto using invalidated_scheduler,
        invalidated_scheduled.
  - apply Hquiet, quiet_externalImportsCallback.
  - unfold elapse.
    change (accounted u (set_now ?n ?x)) with (accounted u x).
    change (trace (set_now ?n ?x)) with (trace x).
    apply (run_timers_ind W (now s + dt)
             (λ s', wf s' ∧ accounted u s' ≤ timesScheduled u (trace s')));
      [| done].
    intros s' t [Hwf' Hb'] Hin _ _.
    split; [by apply wf_fire | by apply bounded_fire].
Qed.

(** X9.  In every state a run can reach, and for every URI, the number of
    times [validate] was entered plus the number of its live timers is at
    most the number of timers armed for the URI: [validate] only ever runs
    from a timer of [doValidation], and no timer runs it twice. *)
Theorem validate_only_when_scheduled W history u :
  let s := run W history initial in
  validations u (trace s) + List.length (liveHandles u s) ≤
  timesScheduled u (trace s).
Proof.
  intros s. subst s.
  induction history as [|e history IH] using rev_ind; [done |].
  rewrite run_snoc. apply bounded_step; [apply wf_reachable | exact IH].
Qed.

(** ** The order in which timers run *)

Lemma Forall_filter_keep {A} (Q P : A → Prop) `{∀ x, Decision (P x)}
    (l : list A) :
  Forall Q l → Forall Q (filter P l).
Proof.
  rewrite !Forall_forall. intros HQ x [_ Hx]%list_elem_of_filter. auto.
Qed.

Lemma StronglySorted_filter {A} (R : relation A) (P : A → Prop)
    `{∀ x, Decision (P x)} (l : list A) :
  StronglySorted R l → StronglySorted R (filter P l).
Proof.
  induction 1 as [|a l Hs IH Ha]; [constructor |].
  rewrite filter_cons. destruct (decide (P a)); [| done].
  constructor; [done |]. by apply Forall_filter_keep.
Qed.

Lemma earliest_head l : StronglySorted no_later l → earliest l = head l.
Proof.
  induction 1 as [|a l Hs IH Ha]; [done |].
  cbn [earliest head]. rewrite IH.
  destruct l as [|b l]; [done |]. cbn [head].
  apply Forall_cons in Ha as [Hab _]. unfold no_later in Hab.
  by rewrite (proj2 (Nat.ltb_ge _ _)).
Qed.

Lemma on_schedule_doValidation u s :
  wf s → on_schedule s → on_schedule (doValidation u s).2.
Proof.
  intros Hwf [Ho Hb]. split; rewrite doValidation_timers by done.
  - apply StronglySorted_app. split_and!.
    + intros t1 t2 [_ Ht1]%list_elem_of_filter ->%list_elem_of_singleton.
      rewrite Forall_forall in Hb. apply Hb in Ht1.
      unfold no_later, armed. simpl. done.
    + by apply StronglySorted_filter.
    + repeat constructor.
  - rewrite doValidation_now. apply Forall_app. split.
    + by apply Forall_filter_keep.
    + repeat constructor.
Qed.

Lemma on_schedule_arm_all us s :
  wf s → on_schedule s → on_schedule (arm_all us s).
Proof.
  revert s. induction us as [|v l IH]; intros s Hwf Hos; [done |].
  rewrite arm_all_cons. apply IH; [by apply wf_doValidation |].
  by apply on_schedule_doValidation.
Qed.

Lemma on_schedule_fire W t s :
  wf s → t ∈ timers s → on_schedule s → on_schedule (fire W t s).
Proof.
  intros Hwf Hin [Ho Hb]. destruct (fire_spec W t s) as (us & pls & -> & _).
  assert (on_schedule (arm_all us (timer_callback W t s))) as [A B].
  { apply on_schedule_arm_all; [by apply wf_timer_callback |].
    split; rewrite timer_callback_timers.
    - by apply StronglySorted_filter.
    - rewrite timer_callback_now. apply Forall_filter_keep.
      eapply Forall_impl; [exact Hb |]. simpl. intros. lia. }
  by split.
Qed.

Lemma on_schedule_same s s' :
  scheduler s' = scheduler s → on_schedule s → on_schedule s'.
Proof.
  unfold scheduler. intros Heq [Ho Hb]. injection Heq as E1 _ _ E4 _ _ _.
  split; rewrite E4, ?E1; done.
Qed.

Lemma on_schedule_run_timers W fuel deadline s :
  wf s → on_schedule s → on_schedule (run_timers W fuel deadline s).
Proof.
  intros Hwf Hos.
  apply (run_timers_ind W deadline (λ s', wf s' ∧ on_schedule s')); [| done].
  intros s' t [Hwf' Hos'] Hin _ _.
  split; [by apply wf_fire | by apply on_schedule_fire].
Qed.

Lemma on_schedule_step W e s :
  wf s → on_schedule s → on_schedule (step W e s).
Proof.
  intros Hwf Hos.
  assert (∀ s', quiet s s' → on_schedule s') as Hquiet.
  { intros s' [A _ _ _]. by apply (on_schedule_same s). }
  assert (∀ files, on_schedule (triggerValidationForWorkspaceFiles files s))
    as Htrig.
  { intros files. rewrite triggerValidationForWorkspaceFiles_unfold. cbv zeta.
    destruct (on_schedule_arm_all
                (take (POOL_CONCURRENCY `min` List.length files) files) s
                Hwf Hos) as [A B].
    by split. }
  assert (∀ v, on_schedule (clearDocument v s)) as Hclear.
  { intros v. eapply on_schedule_same; [apply clearDocument_scheduler |].
    destruct Hos as [Ho Hb].
    split; rewrite cleanPendingValidation_timers by done.
    - by apply StronglySorted_filter.
    - rewrite cleanPendingValidation_now. by apply Forall_filter_keep. }
  destruct e as [v|v|item delegate|v|v|v|v|v|v|v|v|files|files|c|v text|dt];
    cbn [step];
    unfold onFileCreated, onFileOpened, onFileDeleted, onFileClosed;
    try (apply Hquiet; step_quiet);
    auto using on_schedule_doValidation.
  - rewrite onFileChanged_unfold. apply on_schedule_doValidation.
    + eapply wf_same_scheduler; [symmetry; apply invalidated_scheduler | done].
    + eapply on_schedule_same; [apply invalidated_scheduler | done].
  - by apply (on_schedule_same s).
  - destruct (on_schedule_run_timers W (backlog s) (now s + dt) s Hwf Hos)
      as [A B].
    unfold elapse. split; [done |]. cbn [timers now set_now].
    eapply Forall_impl; [exact B |]. simpl. intros. lia.
Qed.

Lemma on_schedule_reachable W history : on_schedule (run W history initial).
Proof.
  induction history as [|e history IH] using rev_ind.
  - split; constructor.
  - rewrite run_snoc. apply on_schedule_step; [apply wf_reachable | exact IH].
Qed.

Lemma none_overdue_doValidation u s :
  wf s → none_overdue s → none_overdue (doValidation u s).2.
Proof.
  unfold none_overdue. intros Hwf Hno.
  rewrite doValidation_timers, doValidation_now by done.
  apply Forall_app. split; [by apply Forall_filter_keep |].
  repeat constructor. simpl. unfold VALIDATION_DELAY_MS. lia.
Qed.

Lemma none_overdue_arm_all us s :
  wf s → none_overdue s → none_overdue (arm_all us s).
Proof.
  revert s. induction us as [|v l IH]; intros s Hwf Hos; [done |].
  rewrite arm_all_cons. apply IH; [by apply wf_doValidation |].
  by apply none_overdue_doValidation.
Qed.

Lemma none_overdue_same s s' :
  scheduler s' = scheduler s → none_overdue s → none_overdue s'.
Proof.
  unfold scheduler, none_overdue. intros Heq.
  injection Heq as -> _ _ -> _ _ _. done.
Qed.

Lemma none_overdue_step W e s :
  wf s → none_overdue s → none_overdue (step W e s).
Proof.
  intros Hwf Hos.
  assert (∀ s', quiet s s' → none_overdue s') as Hquiet.
  { intros s' [A _ _ _]. by apply (none_overdue_same s). }
  assert (∀ files, none_overdue (triggerValidationForWorkspaceFiles files s))
    as Htrig.
  { intros files. rewrite triggerValidationForWorkspaceFiles_unfold. cbv zeta.
    by apply (none_overdue_arm_all
                (take (POOL_CONCURRENCY `min` List.length files) files) s). }
  assert (∀ v, none_overdue (clearDocument v s)) as Hclear.
  { intros v. eapply none_overdue_same; [apply clearDocument_scheduler |].
    unfold none_overdue.
    rewrite cleanPendingValidation_timers, cleanPendingValidation_now by done.
    by apply Forall_filter_keep. }
  destruct e as [v|v|item delegate|v|v|v|v|v|v|v|v|files|files|c|v text|dt];
    cbn [step];
    unfold onFileCreated, onFileOpened, onFileDeleted, onFileClosed;
    try (apply Hquiet; step_quiet);
    auto using none_overdue_doValidation.
  - rewrite onFileChanged_unfold. apply none_overdue_doValidation.
    + eapply wf_same_scheduler; [symmetry; apply invalidated_scheduler | done].
    + eapply none_overdue_same; [apply invalidated_scheduler | done].
  - unfold none_overdue. apply Forall_forall. intros t Ht.
    rewrite elapse_now. by apply (elapse_complete W dt s).
Qed.

(** X10.  All timers are armed with the same delay, so they run in the
    order in which they were armed: whenever the event loop picks the next
    timer, it is the oldest live one.  Between events every live timer is
    due after now and at most [VALIDATION_DELAY_MS] from now. *)
Theorem timers_run_in_arming_order W history :
  let s := run W history initial in
  Forall (λ t, now s < t_due t ≤ now s + VALIDATION_DELAY_MS) (timers s) ∧
  ∀ fuel deadline,
    let s' := run_timers W fuel deadline s in
    earliest (timers s') = head (timers s') ∧
    Forall (λ t, t_due t ≤ now s' + VALIDATION_DELAY_MS) (timers s').
Proof.
  intros s. split.
  - assert (none_overdue s) as Hno.
    { subst s. induction history as [|e history IH] using rev_ind;
        [constructor |].
      rewrite run_snoc. apply none_overdue_step; [apply wf_reachable | exact IH]. }
    destruct (on_schedule_reachable W history) as [_ Hb]. fold s in Hb.
    unfold none_overdue in Hno. rewrite Forall_forall in *. intros t Ht.
    split; auto.
  - intros fuel deadline s'.
    destruct (on_schedule_run_timers W fuel deadline s (wf_reachable W history)
                (on_schedule_reachable W history)) as [A B].
    split; [by apply earliest_head | done].
Qed.

(** ** The map of pending requests *)

Lemma wf_uris_NoDup s : wf s → NoDup (t_uri <$> timers s).
Proof.
  intros Hwf. apply NoDup_fmap_2_strong; [| by apply wf_timers_NoDup].
  intros t1 t2 H1 H2 Heq. by eapply wf_uri_inj.
Qed.

(** X11.  At every moment of every run [pendingValidationRequests] holds
    exactly the live timers: each URI with a live timer is mapped to the
    handle of that timer, and no other URI has an entry.  So the handle
    [cleanPendingValidation] passes to [clearTimeout] is always the one of
    a timer that has neither run nor been cleared. *)
Theorem pending_requests_are_live_timers W history fuel deadline :
  let s := run_timers W fuel deadline (run W history initial) in
  pendingValidationRequests s =
  list_to_map ((λ t, (t_uri t, t_handle t)) <$> timers s) ∧
  NoDup (t_uri <$> timers s) ∧
  NoDup (t_handle <$> timers s).
Proof.
  intros s. assert (wf s) as Hwf by apply wf_run_timers, wf_reachable.
  split_and!; [| by apply wf_uris_NoDup | apply (wf_handles _ Hwf)].
  assert (((λ t, (t_uri t, t_handle t)) <$> timers s).*1 = t_uri <$> timers s)
    as Hkeys by (rewrite <- list_fmap_compose; done).
  apply map_eq. intros u. symmetry.
  destruct (pendingValidationRequests s !! u) as [h|] eqn:E.
  - apply elem_of_list_to_map_1.
    + rewrite Hkeys. by apply wf_uris_NoDup.
    + destruct (wf_pending_live _ Hwf _ _ E) as (t & Ht & <- & <-).
      apply list_elem_of_fmap. by exists t.
  - apply not_elem_of_list_to_map_1. rewrite Hkeys.
    intros (t & -> & Ht)%list_elem_of_fmap.
    rewrite (wf_live_pending _ Hwf _ Ht) in E. discriminate.
Qed.

(** ** The start of a batch *)

Lemma arm_all_snoc us v s :
  arm_all (us ++ [v]) s = (doValidation v (arm_all us s)).2.
Proof. by rewrite arm_all_app. Qed.

Lemma arm_all_live us u s :
  wf s → u ∈ us →
  ∃ t, liveHandles u (arm_all us s) = [t] ∧
       t_due t = now s + VALIDATION_DELAY_MS ∧
       next_promise s ≤ t_promise t < next_promise s + List.length us.
Proof.
  intros Hwf. induction us as [|v us IH] using rev_ind.
  { by intros ?%not_elem_of_nil. }
  intros Hin. rewrite arm_all_snoc, length_app. cbn [List.length].
  assert (wf (arm_all us s)) as Hwf' by by apply wf_arm_all.
  destruct (decide (v = u)) as [-> | Hne].
  - exists (armed u (arm_all us s)).
    rewrite doValidation_liveHandles_same by done.
    unfold armed. cbn [t_due t_promise].
    rewrite arm_all_now, arm_all_next_promise. split_and!; try done; lia.
  - apply elem_of_app in Hin as [Hin | Hin%list_elem_of_singleton]; [| done].
    destruct (IH Hin) as (t & Hl & Hd & Hp).
    exists t. rewrite doValidation_liveHandles_other by done.
    split_and!; try done; lia.
Qed.

Lemma take_min {A} (n : nat) (l : list A) :
  take (n `min` List.length l) l = take n l.
Proof.
  destruct (decide (n ≤ List.length l)) as [Hle | Hgt].
  - by rewrite Nat.min_l.
  - rewrite Nat.min_r, !take_ge by lia. done.
Qed.

(** X12.  [triggerValidationForWorkspaceFiles], on whatever state it is
    called, arms timers for the first [POOL_CONCURRENCY] of the files, in
    their order, before it returns, and validates nothing itself.  Each of
    those files then has exactly one live timer, due
    [VALIDATION_DELAY_MS] from now and carrying a promise the new pool
    tracks, also when it had a timer before; the timers of all other URIs
    are left as they were. *)
Theorem batch_start W history files :
  let s := run W history initial in
  let s' := triggerValidationForWorkspaceFiles files s in
  let first := take POOL_CONCURRENCY files in
  scheduled (trace s') = scheduled (trace s) ++ first ∧
  (∀ u, validations u (trace s') = validations u (trace s)) ∧
  now s' = now s ∧
  pools s' =
    pools s ++ [mkPool files (List.length first)
                  (seq (next_promise s) (List.length first))] ∧
  (∀ u, u ∈ first →
     ∃ t, liveHandles u s' = [t] ∧
          t_due t = now s + VALIDATION_DELAY_MS ∧
          t_promise t ∈ seq (next_promise s) (List.length first)) ∧
  (∀ u, u ∉ first → liveHandles u s' = liveHandles u s).
Proof.
  intros s s' first. subst s'.
  assert (wf s) as Hwf by apply wf_reachable.
  rewrite triggerValidationForWorkspaceFiles_unfold. cbv zeta.
  rewrite take_min. fold first.
  assert (POOL_CONCURRENCY `min` List.length files = List.length first) as ->
    by (unfold first; rewrite length_take; lia).
  cbn [trace now pools set_pools].
  change (liveHandles ?u (set_pools ?p ?x)) with (liveHandles u x).
  split_and!.
  - apply arm_all_scheduled.
  - intros u. apply arm_all_validations.
  - apply arm_all_now.
  - done.
  - intros u Hu. destruct (arm_all_live first u s Hwf Hu) as (t & A & B & C).
    exists t. split_and!; try done. apply elem_of_seq. lia.
  - intros u Hu. by apply arm_all_liveHandles_other.
Qed.

(** ** A pool whose promises cannot settle *)

Lemma pools_onFulfilled_untracked p pls s i pl :
  pls !! i = Some pl → p ∉ tracked pl →
  (pools_onFulfilled p pls s).1 !! i = Some pl.
Proof.
  revert s i. induction pls as [|q rest IH]; intros s i Hi Hp; [done |].
  cbn [pools_onFulfilled].
  destruct i as [|i]; simpl in Hi.
  - injection Hi as ->. rewrite decide_False by done.
    destruct (pools_onFulfilled p rest s). done.
  - destruct (if decide (p ∈ tracked q) then _ else _) as [pl1 s1].
    specialize (IH s1 i Hi Hp).
    destruct (pools_onFulfilled p rest s1). done.
Qed.

Lemma fire_untracked W t s i pl :
  pools s !! i = Some pl → t_promise t ∉ tracked pl →
  pools (fire W t s) !! i = Some pl.
Proof.
  intros Hi Hp. unfold fire.
  rewrite <- (timer_callback_pools W t s) in Hi.
  pose proof (pools_onFulfilled_untracked (t_promise t) _
                (timer_callback W t s) i pl Hi Hp) as H.
  by destruct (pools_onFulfilled _ _ _).
Qed.

Lemma stalled_evolves pl s s' :
  wf s → pl ∈ pools s → evolves s s' → stalled pl s → stalled pl s'.
Proof.
  unfold stalled, superseded. rewrite !Forall_forall.
  intros Hwf Hpl Hev Hst p Hp. apply Forall_forall. intros t Ht Heq.
  destruct (ev_timers _ _ Hev _ Ht) as [Hold | Hnew].
  - specialize (Hst _ Hp). unfold superseded in Hst.
    rewrite Forall_forall in Hst. by apply (Hst t).
  - pose proof (wf_tracked_bound _ Hwf _ _ Hpl Hp). lia.
Qed.

Lemma stalled_in pl s i : pools s !! i = Some pl → pl ∈ pools s.
Proof. apply list_elem_of_lookup_2. Qed.

Lemma run_timers_stalled W fuel deadline s i pl :
  wf s → pools s !! i = Some pl → stalled pl s →
  pools (run_timers W fuel deadline s) !! i = Some pl.
Proof.
  intros Hwf Hi Hst.
  apply (run_timers_ind W deadline
           (λ s', wf s' ∧ pools s' !! i = Some pl ∧ stalled pl s'));
    [| done].
  intros s' t (Hwf' & Hi' & Hst') Hin _ _.
  split_and!.
  - by apply wf_fire.
  - apply fire_untracked; [done |]. intros Hp.
    unfold stalled in Hst'. rewrite Forall_forall in Hst'.
    specialize (Hst' _ Hp). unfold superseded in Hst'.
    rewrite Forall_forall in Hst'. by apply (Hst' t).
  - eapply stalled_evolves; [exact Hwf' | by eapply stalled_in | | done].
    by apply evolves_fire.
Qed.

Lemma step_stalled W e s i pl :
  wf s → pools s !! i = Some pl → stalled pl s →
  pools (step W e s) !! i = Some pl.
Proof.
  intros Hwf Hi Hst.
  assert (∀ s', quiet s s' → pools s' !! i = Some pl) as Hquiet.
  { intros s' [A _ _ _]. unfold scheduler in A.
    injection A as _ _ _ _ _ _ ->. done. }
  destruct e as [v|v|item delegate|v|v|v|v|v|v|v|v|files|files|c|v text|dt];
    cbn [step];
    unfold onFileCreated, onFileOpened, onFileDeleted, onFileClosed;
    rewrite ?doValidation_pools; try done;
    try (apply Hquiet; step_quiet).
  - by destruct (clearDocument_cleared v s Hwf) as (_ & _ & _ & _ & ->).
  - by destruct (clearDocument_cleared v s Hwf) as (_ & _ & _ & _ & ->).
  - rewrite onFileChanged_unfold, doValidation_pools.
    pose proof (invalidated_scheduler v s) as A. unfold scheduler in A.
    injection A as _ _ _ _ _ _ ->. done.
  - rewrite triggerValidationForWorkspaceFiles_unfold. cbv zeta.
    cbn [pools set_pools]. by apply lookup_app_l_Some.
  - rewrite triggerValidationForWorkspaceFiles_unfold. cbv zeta.
    cbn [pools set_pools]. by apply lookup_app_l_Some.
  - unfold elapse. cbn [pools set_now]. by apply run_timers_stalled.
Qed.

(** X13.  A pool proceeds only when a promise it tracks settles, and a
    promise whose timer was cancelled never does.  So once no live timer
    carries any promise a pool tracks, the pool stays as it is for ever,
    whatever happens next: its cursor does not move and the URIs it has not
    handed out are never scheduled by it. *)
Theorem superseded_pool_stalls W history after i pl :
  let s := run W history initial in
  pools s !! i = Some pl → stalled pl s →
  pools (run W after s) !! i = Some pl ∧ stalled pl (run W after s).
Proof.
  intros s Hi Hst. assert (wf s) as Hwf by apply wf_reachable.
  revert Hwf Hi Hst. generalize s. clear s.
  induction after as [|e after IH]; intros s Hwf Hi Hst; [done |].
  cbn [run fold_left]. apply IH.
  - by apply wf_step.
  - by apply step_stalled.
  - eapply stalled_evolves; [exact Hwf | by eapply stalled_in | | done].
    by apply evolves_step.
Qed.

Lemma superseded_pool_stalls_witness :
  let s := run exampleWorld stallHistory initial in
  let pl := mkPool exampleFiles 3 [0; 1; 2] in
  pools s !! 0 = Some pl ∧ stalled pl s ∧
  pools (run exampleWorld [Elapse 5000] s) !! 0 = Some pl.
Proof.
  intros s pl.
  assert (pools s !! 0 = Some pl) as H1 by (vm_compute; reflexivity).
  assert (stalled pl s) as H2
    by (apply (bool_decide_unpack _); vm_compute; exact I).
  split; [exact H1 | split; [exact H2 |]].
  apply (superseded_pool_stalls exampleWorld stallHistory [Elapse 5000] 0 pl
           H1 H2).
Defined.

(** ** What [validate] reports and counts *)

Lemma awaitYamlDocument_occurrences W u s f :
  f (CallGetYamlDocument u) = false →
  (∀ c, occurrences f (externalImportEffects c) = 0) →
  occurrences f (trace (awaitYamlDocument W u s).1) = occurrences f (trace s).
Proof.
  intros Hf Hc. rewrite awaitYamlDocument_trace, !occurrences_app.
  assert (occurrences f [CallGetYamlDocument u] = 0) as ->
    by (unfold occurrences; simpl; by rewrite Hf).
  assert (occurrences f
            (concat (externalImportEffects <$>
                       (getYamlDocument W (now s) u).1)) = 0) as ->; [| lia].
  induction (getYamlDocument W (now s) u).1 as [|c cs IH]; [done |].
  rewrite fmap_cons, concat_cons, occurrences_app, Hc, IH. done.
Qed.

Lemma externalImportEffects_no_engine c :
  occurrences isEngineCall (externalImportEffects c) = 0 ∧
  occurrences (isAnalytics "validateDocument") (externalImportEffects c) = 0.
Proof.
  by destruct c as [u p | u p schema property [[]|e] [[]|e'] [[]|e'']].
Qed.

Lemma reports_app_silent e es1 es2 :
  Forall (λ x, isSendException x = false) es2 →
  SendException e ∈ es1 ++ es2 → SendException e ∈ es1.
Proof.
  intros H [Hin | Hin]%elem_of_app; [done |].
  rewrite Forall_forall in H. apply H in Hin. discriminate.
Qed.

(** X14.  [validate] rejects exactly when the store fails to hand over the
    document, with the failure of the store, and then it has changed
    nothing.  The [validateDocument] event and the call of the engine each
    occur once when the parser accepted a document with text, also when the
    engine then fails, and not at all otherwise.  [validate] itself reports
    nothing to the exception sink: what the parser or the engine raise is
    dropped there, whatever it is. *)
Theorem validate_outcome W u s :
  let r := validate W u s in
  let n := if reaches_engine W u s then 1 else 0 in
  r.2 = match getTextDocument_fails W (now s) u with
        | Some e => Threw e
        | None => Returned tt
        end ∧
  (r.2 ≠ Returned tt → r.1 = s) ∧
  occurrences (isAnalytics "validateDocument") (trace r.1) =
    occurrences (isAnalytics "validateDocument") (trace s) + n ∧
  occurrences isEngineCall (trace r.1) =
    occurrences isEngineCall (trace s) + n ∧
  (∀ e, SendException e ∈ trace r.1 →
        SendException e ∈ trace (awaitYamlDocument W u s).1).
Proof.
  intros r n. subst r n. unfold validate, reaches_engine, getTextDocument.
  destruct (getTextDocument_fails W (now s) u) as [e0|].
  { split_and!; try done; try (simpl; lia).
    intros e He. rewrite awaitYamlDocument_trace. apply elem_of_app. by left. }
  assert (∀ e, SendException e ∈ trace s →
               SendException e ∈ trace (awaitYamlDocument W u s).1) as Hsub.
  { intros e He. rewrite awaitYamlDocument_trace. apply elem_of_app. by left. }
  destruct (documents s !! u) as [text|]; cbn [fmap option_fmap option_map].
  2: { split_and!; try done; simpl; lia. }
  cbn [getText uri].
  destruct (String.length text =? 0) eqn:Hlen; cbn [negb andb].
  { cbn [fst snd trace emit]. split_and!; try done.
    - rewrite occurrences_app. unfold occurrences at 2. simpl. lia.
    - rewrite occurrences_app. unfold occurrences at 2. simpl. lia.
    - intros e [He | He%list_elem_of_singleton]%elem_of_app; [auto | done]. }
  pose proof (awaitYamlDocument_occurrences W u s isEngineCall eq_refl
                (λ c, proj1 (externalImportEffects_no_engine c))) as Hen.
  pose proof (awaitYamlDocument_occurrences W u s
                (isAnalytics "validateDocument") eq_refl
                (λ c, proj2 (externalImportEffects_no_engine c))) as Han.
  pose proof (awaitYamlDocument_result W u s) as Hres.
  destruct (awaitYamlDocument W u s) as [s1 parsed]. cbn [fst snd] in *.
  rewrite <- Hres.
  destruct parsed as [y|e].
  - destruct (validation_doValidation W (now s) _ y) as [ds|e];
      [| destruct (isCfnLintFailedToExecuteError e)];
      cbn [fst snd trace emit]; (split_and!; try done);
      try (rewrite !occurrences_app, ?Hen, ?Han; unfold occurrences; simpl; lia);
      intros e' He';
      repeat (apply reports_app_silent in He'; [| by repeat constructor]);
      done.
  - destruct (isCfnLintFailedToExecuteError e);
      cbn [fst snd trace emit]; (split_and!; try done);
      try (rewrite ?occurrences_app, ?Hen, ?Han; unfold occurrences; simpl; lia);
      intros e' He';
      repeat (apply reports_app_silent in He'; [| by repeat constructor]);
      done.
Qed.

(** ** Requests for a URI the store does not know *)



(** ** The import callback *)


(** ** The fate of a promise *)



(** ** Runs of the example engines *)

Example completion_run :
  let s := run exampleWorld exampleHistory initial in
  let at_ (u : string) := Some (mkTextDocument u "Resources:") in
  (doComplete exampleEngines exampleWorld (at_ "a.yaml") (0, 10) s).2 =
    Returned (mkCompletionList [mkCompletionItem "Resources" JSUndefined] true) ∧
  (doComplete exampleEngines exampleWorld (at_ "crash.yaml") (0, 10) s).2 =
    Returned emptyCompletionList ∧
  (doComplete exampleEngines exampleWorld (at_ "late.yaml") (0, 10) s).2 =
    Threw (OtherError "too late") ∧
  (doComplete exampleEngines exampleWorld (at_ "broken.yaml") (0, 10) s).2 =
    Returned emptyCompletionList ∧
  (doHover exampleEngines exampleWorld (at_ "crash.yaml") (0, 10) s).2 =
    Returned (inr (mkResponseError 1 "boom")) ∧
  (doHover exampleEngines exampleWorld (at_ "late.yaml") (0, 10) s).2 =
    Threw (OtherError "too late") ∧
  (findDocumentSymbols exampleEngines exampleWorld (at_ "broken.yaml") s).2 =
    Returned [] ∧
  trace (findDocumentSymbols exampleEngines exampleWorld (at_ "broken.yaml") s).1 =
    trace s ++ [CallGetYamlDocument "broken.yaml"].
Proof. vm_compute. by split_and!. Qed.
